(** * ggRMCP: the dynamic gRPC discovery, schema and invocation core

    A shallow embedding of the Go sources of ggRMCP:
    - [pkg/descriptors] schema extractor ([SchemaExtractor]),
    - [pkg/tools] tool builder ([Builder]),
    - [pkg/server] handler (tool-name parsing),
    - [pkg/grpc] unified service discoverer ([serviceDiscoverer]),
      reflection client ([reflectionClient]) and connection manager
      ([connectionManager]).

    The first half of the file holds the definitions, the second half the
    lemmas and theorems about them. *)

From stdpp Require Import gmap strings list fin_maps fin_sets pretty.
From Stdlib Require Import Ascii ZArith Lia.

#[local] Set Warnings "-register-all,-clear-no-such-hyp".

(* ===================================================================== *)
(** * Part I: definitions                                                 *)
(* ===================================================================== *)

(** ** The fragment of Go's [strings] and [fmt] packages the sources use.
    A Go string is a sequence of bytes: [string] over [ascii]. *)
Module GoStrings.

Definition isUpper (c : ascii) : bool :=
  ((65 <=? N_of_ascii c) && (N_of_ascii c <=? 90))%N.

(** [c += 'a' - 'A'] for an upper-case ASCII letter. *)
Definition lowerByte (c : ascii) : ascii :=
  if isUpper c then ascii_of_N (N_of_ascii c + 32) else c.

Fixpoint mapBytes (f : ascii → ascii) (s : string) : string :=
  match s with
  | EmptyString => EmptyString
  | String c rest => String (f c) (mapBytes f rest)
  end.

(** No byte at or above [utf8.RuneSelf] (0x80). *)
Fixpoint isASCII (s : string) : bool :=
  match s with
  | EmptyString => true
  | String c rest => (N_of_ascii c <? 128)%N && isASCII rest
  end.

Fixpoint hasUpper (s : string) : bool :=
  match s with
  | EmptyString => false
  | String c rest => isUpper c || hasUpper rest
  end.

Section ToLower.
(** [strings.Map(unicode.ToLower, s)], the path Go takes for a string
    with a byte above 0x7f; the Unicode tables are those of the Go
    standard library and stay a parameter. *)
Variable unicodeToLower : string → string.

(** [strings.ToLower]: the ASCII fast path is written out. *)
Definition ToLower (s : string) : string :=
  if isASCII s then
    if hasUpper s then mapBytes lowerByte s else s
  else unicodeToLower s.
End ToLower.

(** [strings.ReplaceAll(s, old, new)] for a non-empty [old] (every call
    in the sources passes [old = "."]): non-overlapping occurrences of
    [old] are replaced from the left.  [skip] counts the bytes of a matched
    occurrence that are still to be dropped. *)
Fixpoint replaceFrom (old new s : string) (skip : nat) : string :=
  match s with
  | EmptyString => EmptyString
  | String c rest =>
      match skip with
      | S k => replaceFrom old new rest k
      | O =>
          if String.prefix old s
          then new +:+ replaceFrom old new rest (String.length old - 1)
          else String c (replaceFrom old new rest 0)
      end
  end.

Definition ReplaceAll (s old new : string) : string :=
  match old with
  | EmptyString => s
  | _ => replaceFrom old new s 0
  end.

(** The white space of [strings.TrimSpace] among the ASCII bytes. *)
Definition isSpace (c : ascii) : bool :=
  let n := N_of_ascii c in
  ((9 <=? n) && (n <=? 13) || (n =? 32))%N.

Fixpoint trimLeft (s : string) : string :=
  match s with
  | EmptyString => EmptyString
  | String c rest => if isSpace c then trimLeft rest else s
  end.

Fixpoint trimRight (s : string) : string :=
  match s with
  | EmptyString => EmptyString
  | String c rest =>
      match trimRight rest with
      | EmptyString => if isSpace c then EmptyString else String c EmptyString
      | rest' => String c rest'
      end
  end.

(** [strings.TrimSpace] on ASCII input. *)
Definition trimSpaceASCII (s : string) : string := trimRight (trimLeft s).

(** [fmt.Sprintf("%s_%s", a, b)]. *)
Definition Sprintf_s_s (a b : string) : string := a +:+ "_" +:+ b.

End GoStrings.

(** ** Protobuf descriptors, as the [protoreflect] interfaces expose them.

    A message descriptor is a handle into a type registry: its full name.
    The registry maps a full name to the message's fields and oneofs; a name
    the registry does not hold behaves as protoreflect's placeholder
    descriptor does (it has a full name and no fields). *)
Module Protoreflect.

Inductive Kind :=
| BoolKind | EnumKind | Int32Kind | Sint32Kind | Uint32Kind
| Int64Kind | Sint64Kind | Uint64Kind | Sfixed32Kind | Fixed32Kind
| FloatKind | Sfixed64Kind | Fixed64Kind | DoubleKind
| StringKind | BytesKind | MessageKind | GroupKind.

Inductive Cardinality := Optional | Required | Repeated.

#[global] Instance Kind_eq_dec : EqDecision Kind.
Proof. solve_decision. Defined.
#[global] Instance Cardinality_eq_dec : EqDecision Cardinality.
Proof. solve_decision. Defined.

Record EnumValueDescriptor := {
  evName : string;
  evComments : string   (* what [extractComments] yields for the value *)
}.

Record EnumDescriptor := {
  enFullName : string;
  enValues : list EnumValueDescriptor;
  enComments : string
}.

(** [MessageDescriptor]: the handle. *)
Abbreviation MessageDescriptor := string (only parsing).

(** A field. [fdMapKV] holds [MapKey()] and [MapValue()] of a map field
    and is [None] for every other field; [fdComments] is what
    [extractComments] yields for the field, [fdLeadingComments] and
    [fdTrailingComments] are the two texts of its source location. *)
Inductive FieldDescriptor := mkField {
  fdName : string;
  fdKind : Kind;
  fdCardinality : Cardinality;
  fdHasOptionalKeyword : bool;
  fdHasPresence : bool;
  fdMessage : MessageDescriptor;
  fdEnum : EnumDescriptor;
  fdMapKV : option (FieldDescriptor * FieldDescriptor);
  fdComments : string;
  fdLeadingComments : string;
  fdTrailingComments : string
}.

(** The nesting of map key and value descriptors below a field. *)
Fixpoint fieldDepth (f : FieldDescriptor) : nat :=
  match fdMapKV f with
  | Some (k, v) => S (Nat.max (fieldDepth k) (fieldDepth v))
  | None => 0
  end.

Definition IsMap (f : FieldDescriptor) : bool :=
  match fdMapKV f with Some _ => true | None => false end.

Definition IsList (f : FieldDescriptor) : bool :=
  bool_decide (fdCardinality f = Repeated) && negb (IsMap f).

Record OneofDescriptor := {
  ooName : string;
  ooFields : list FieldDescriptor;
  ooComments : string
}.

Record MessageBody := {
  mFields : list FieldDescriptor;
  mOneofs : list OneofDescriptor;
  mComments : string
}.

Definition Fields (reg : gmap string MessageBody) (d : MessageDescriptor)
  : list FieldDescriptor :=
  match reg !! d with Some b => mFields b | None => [] end.

Definition Oneofs (reg : gmap string MessageBody) (d : MessageDescriptor)
  : list OneofDescriptor :=
  match reg !! d with Some b => mOneofs b | None => [] end.

Definition Comments (reg : gmap string MessageBody) (d : MessageDescriptor)
  : string :=
  match reg !! d with Some b => mComments b | None => "" end.

(** The empty enum, for fields that are not of enum kind. *)
Definition noEnum : EnumDescriptor :=
  {| enFullName := ""; enValues := []; enComments := "" |}.

(** A singular field of scalar kind [k], without comments. *)
Definition scalarField (name : string) (k : Kind) : FieldDescriptor :=
  mkField name k Optional false false "" noEnum None "" "" "".

(** A singular field of message kind whose type is [ty]. *)
Definition messageField (name : string) (ty : MessageDescriptor)
  : FieldDescriptor :=
  mkField name MessageKind Optional false true ty noEnum None "" "" "".

End Protoreflect.

(** ** JSON documents: what a [map[string]interface{}] schema holds. *)
Module Json.

Inductive JSON :=
| JNull
| JStr (s : string)
| JInt (z : Z)
| JBool (b : bool)
| JArr (l : list JSON)
| JObj (m : gmap string JSON).

Definition JStrs (l : list string) : JSON := JArr (JStr <$> l).

(** [obj[key]] of an object, [None] for a missing key or a non-object. *)
Definition member (key : string) (j : JSON) : option JSON :=
  match j with JObj m => m !! key | _ => None end.

(** [{"$ref": "#/definitions/<fullName>"}]. *)
Definition refTo (fullName : string) : JSON :=
  JObj {[ "$ref" := JStr ("#/definitions/" +:+ fullName) ]}.

End Json.

(** ** The fixed scalar mapping table, as the specification words it:
    boolean to boolean; the signed and signed-fixed 32-bit kinds to integer
    with format int32, the 64-bit ones to integer with format int64; the
    unsigned and fixed 32-bit kinds to integer with format uint32 and
    minimum 0, the 64-bit ones to integer with format uint64 and minimum 0;
    float to number/float; double to number/double; string to string; bytes
    to string with format byte. *)
Module SpecTable.
Import Protoreflect Json.

Definition typed (type : string) : gmap string JSON := {[ "type" := JStr type ]}.

Definition formatted (type format : string) : gmap string JSON :=
  <["format" := JStr format]> (typed type).

Definition scalarSchema (k : Kind) : option JSON :=
  match k with
  | BoolKind => Some (JObj (typed "boolean"))
  | Int32Kind | Sint32Kind | Sfixed32Kind =>
      Some (JObj (formatted "integer" "int32"))
  | Int64Kind | Sint64Kind | Sfixed64Kind =>
      Some (JObj (formatted "integer" "int64"))
  | Uint32Kind | Fixed32Kind =>
      Some (JObj (<["minimum" := JInt 0]> (formatted "integer" "uint32")))
  | Uint64Kind | Fixed64Kind =>
      Some (JObj (<["minimum" := JInt 0]> (formatted "integer" "uint64")))
  | FloatKind => Some (JObj (formatted "number" "float"))
  | DoubleKind => Some (JObj (formatted "number" "double"))
  | StringKind => Some (JObj (typed "string"))
  | BytesKind => Some (JObj (formatted "string" "byte"))
  | EnumKind | MessageKind | GroupKind => None
  end.

End SpecTable.

(** The outcome of a Go function returning [(T, error)]. *)
Inductive result (E A : Type) :=
| Ok (a : A)
| Err (e : E).
Arguments Ok {E A} a.
Arguments Err {E A} e.

(** ** Package [descriptors]: the schema extractor.

    The [visited] map of the source only ever stores [true]; it is the set
    of its keys.  The source mutates one shared map through all recursive
    calls, so every function returns the map as it leaves it. *)
Module Descriptors.
Import GoStrings Protoreflect Json.

Inductive error :=
| ErrUnsupportedKind (k : Kind)
    (* "unsupported field kind: %v" *)
| ErrMessageSchema (fullName : string) (cause : error).
    (* "failed to extract schema for message %s: %w" *)

(** The schema and the visited map after the call; [None] when the fuel
    of the model ran out. *)
Definition Outcome : Type := option (result error JSON * gset string).

(** The [switch msgDesc.FullName()] over the well-known types of
    [extractFieldTypeSchemaInternal]; [None] is its [default] case. *)
Definition wellKnownSchema (fullName : string) : option JSON :=
  if decide (fullName = "google.protobuf.Any") then
    Some (JObj (<["description" := JStr "Any contains an arbitrary serialized protocol buffer message"]>
                (<["type" := JStr "object"]> ∅)))
  else if decide (fullName = "google.protobuf.Timestamp") then
    Some (JObj (<["description" := JStr "RFC 3339 formatted timestamp"]>
                (<["format" := JStr "date-time"]> (<["type" := JStr "string"]> ∅))))
  else if decide (fullName = "google.protobuf.Duration") then
    Some (JObj (<["description" := JStr "Duration in seconds with up to 9 fractional digits"]>
                (<["format" := JStr "duration"]> (<["type" := JStr "string"]> ∅))))
  else if decide (fullName = "google.protobuf.Struct") then
    Some (JObj (<["description" := JStr "Arbitrary JSON-like structure"]>
                (<["type" := JStr "object"]> ∅)))
  else if decide (fullName = "google.protobuf.Value") then
    Some (JObj (<["description" := JStr "Any JSON value"]> ∅))
  else if decide (fullName = "google.protobuf.ListValue") then
    Some (JObj (<["description" := JStr "Array of JSON values"]>
                (<["type" := JStr "array"]> ∅)))
  else if decide (fullName = "google.protobuf.StringValue"
                  ∨ fullName = "google.protobuf.BytesValue") then
    Some (JObj (<["type" := JStr "string"]> ∅))
  else if decide (fullName = "google.protobuf.BoolValue") then
    Some (JObj (<["type" := JStr "boolean"]> ∅))
  else if decide (fullName = "google.protobuf.Int32Value"
                  ∨ fullName = "google.protobuf.UInt32Value"
                  ∨ fullName = "google.protobuf.Int64Value"
                  ∨ fullName = "google.protobuf.UInt64Value") then
    Some (JObj (<["type" := JStr "integer"]> ∅))
  else if decide (fullName = "google.protobuf.FloatValue"
                  ∨ fullName = "google.protobuf.DoubleValue") then
    Some (JObj (<["type" := JStr "number"]> ∅))
  else None.

(** The [EnumKind] case: the value names, and the comments of the values
    that have one. *)
Definition enumSchema (enumDesc : EnumDescriptor) : JSON :=
  let enumValues := evName <$> enValues enumDesc in
  let enumDescriptions : gmap string JSON :=
    fold_left (λ acc enumValue,
               if decide (evComments enumValue = "") then acc
               else <[evName enumValue := JStr (evComments enumValue)]> acc)
              (enValues enumDesc) ∅ in
  let schema : gmap string JSON :=
    <["enum" := JStrs enumValues]> (<["type" := JStr "string"]> ∅) in
  let schema :=
    if decide (enComments enumDesc = "") then schema
    else <["description" := JStr (enComments enumDesc)]> schema in
  let schema :=
    if decide (enumDescriptions = ∅) then schema
    else <["enumDescriptions" := JObj enumDescriptions]> schema in
  JObj schema.

Section Extractor.
Variable reg : gmap string MessageBody.

Section Fields.
(** [e.extractMessageSchemaInternal], for the recursive calls. *)
Variable extractMessage : MessageDescriptor → gset string → Outcome.

Definition extractFieldTypeSchemaInternal_
    (field : FieldDescriptor) (visited : gset string) : Outcome :=
  match fdKind field with
  | BoolKind =>
      Some (Ok (JObj (<["type" := JStr "boolean"]> ∅)), visited)
  | Int32Kind | Sint32Kind | Sfixed32Kind =>
      Some (Ok (JObj (<["format" := JStr "int32"]>
                      (<["type" := JStr "integer"]> ∅))), visited)
  | Int64Kind | Sint64Kind | Sfixed64Kind =>
      Some (Ok (JObj (<["format" := JStr "int64"]>
                      (<["type" := JStr "integer"]> ∅))), visited)
  | Uint32Kind | Fixed32Kind =>
      Some (Ok (JObj (<["minimum" := JInt 0]>
                      (<["format" := JStr "uint32"]>
                       (<["type" := JStr "integer"]> ∅)))), visited)
  | Uint64Kind | Fixed64Kind =>
      Some (Ok (JObj (<["minimum" := JInt 0]>
                      (<["format" := JStr "uint64"]>
                       (<["type" := JStr "integer"]> ∅)))), visited)
  | FloatKind =>
      Some (Ok (JObj (<["format" := JStr "float"]>
                      (<["type" := JStr "number"]> ∅))), visited)
  | DoubleKind =>
      Some (Ok (JObj (<["format" := JStr "double"]>
                      (<["type" := JStr "number"]> ∅))), visited)
  | StringKind =>
      Some (Ok (JObj (<["type" := JStr "string"]> ∅)), visited)
  | BytesKind =>
      Some (Ok (JObj (<["format" := JStr "byte"]>
                      (<["type" := JStr "string"]> ∅))), visited)
  | EnumKind =>
      Some (Ok (enumSchema (fdEnum field)), visited)
  | MessageKind =>
      let msgDesc := fdMessage field in
      match wellKnownSchema msgDesc with
      | Some schema => Some (Ok schema, visited)
      | None =>
          match extractMessage msgDesc visited with
          | None => None
          | Some (Err err, visited') =>
              Some (Err (ErrMessageSchema msgDesc err), visited')
          | Some (Ok messageSchema, visited') =>
              Some (Ok messageSchema, visited')
          end
      end
  | GroupKind =>
      Some (Err (ErrUnsupportedKind (fdKind field)), visited)
  end.

Definition extractFieldSchemaInternal_
    (field : FieldDescriptor) (visited : gset string) : Outcome :=
  let schema : gmap string JSON :=
    if decide (fdComments field = "") then ∅
    else <["description" := JStr (fdComments field)]> ∅ in
  if IsList field then
    match extractFieldTypeSchemaInternal_ field visited with
    | None => None
    | Some (Err err, visited') => Some (Err err, visited')
    | Some (Ok itemSchema, visited') =>
        Some (Ok (JObj (<["items" := itemSchema]>
                        (<["type" := JStr "array"]> schema))), visited')
    end
  else
    match fdMapKV field with
    | Some (_, valueField) =>
        match extractFieldTypeSchemaInternal_ valueField visited with
        | None => None
        | Some (Err err, visited') => Some (Err err, visited')
        | Some (Ok valueSchema, visited') =>
            Some (Ok (JObj (<["additionalProperties" := valueSchema]>
                            (<["type" := JStr "object"]> schema))),
                  visited')
        end
    | None => extractFieldTypeSchemaInternal_ field visited
    end.

(** The loop over [msgDesc.Fields()]: a failing field is logged and
    skipped. *)
Fixpoint fieldsLoop (fields : list FieldDescriptor)
    (properties : gmap string JSON) (required : list string)
    (visited : gset string)
  : option (gmap string JSON * list string * gset string) :=
  match fields with
  | [] => Some (properties, required, visited)
  | field :: rest =>
      let fieldName := fdName field in
      match extractFieldSchemaInternal_ field visited with
      | None => None
      | Some (Err _, visited') =>
          fieldsLoop rest properties required visited'
      | Some (Ok fieldSchema, visited') =>
          let properties := <[fieldName := fieldSchema]> properties in
          let required :=
            if fdHasOptionalKeyword field || fdHasPresence field
            then required
            else (required ++ [fieldName]) in
          fieldsLoop rest properties required visited'
      end
  end.

(** The loop over the member fields of one oneof. *)
Fixpoint oneofFieldsLoop (fields : list FieldDescriptor)
    (oneOf : list JSON) (visited : gset string)
  : option (list JSON * gset string) :=
  match fields with
  | [] => Some (oneOf, visited)
  | field :: rest =>
      let fieldName := fdName field in
      match extractFieldSchemaInternal_ field visited with
      | None => None
      | Some (Err _, visited') => oneofFieldsLoop rest oneOf visited'
      | Some (Ok fieldSchema, visited') =>
          let oneofOption :=
            JObj (<["required" := JStrs [fieldName]]>
                  (<["properties" := JObj {[fieldName := fieldSchema]}]> ∅)) in
          oneofFieldsLoop rest (oneOf ++ [oneofOption]) visited'
      end
  end.

(** The loop over [msgDesc.Oneofs()]. *)
Fixpoint oneofsLoop (oneofs : list OneofDescriptor)
    (properties : gmap string JSON) (visited : gset string)
  : option (gmap string JSON * gset string) :=
  match oneofs with
  | [] => Some (properties, visited)
  | oneof :: rest =>
      match oneofFieldsLoop (ooFields oneof) [] visited with
      | None => None
      | Some (oneOf, visited') =>
          let oneofSchema : gmap string JSON :=
            <["oneOf" := JArr oneOf]> (<["type" := JStr "object"]> ∅) in
          let oneofSchema :=
            if decide (ooComments oneof = "") then oneofSchema
            else <["description" := JStr (ooComments oneof)]> oneofSchema in
          oneofsLoop rest (<[ooName oneof := JObj oneofSchema]> properties)
                     visited'
      end
  end.

(** The body of [extractMessageSchemaInternal]; the deferred
    [delete(visited, fullName)] runs on the way out. *)
Definition extractMessageBody
    (msgDesc : MessageDescriptor) (visited : gset string) : Outcome :=
  let fullName := msgDesc in
  if decide (fullName ∈ visited) then
    Some (Ok (refTo fullName), visited)
  else
    let visited := visited ∪ {[fullName]} in
    let schema : gmap string JSON := <["type" := JStr "object"]> ∅ in
    let schema :=
      if decide (Comments reg msgDesc = "") then schema
      else <["description" := JStr (Comments reg msgDesc)]> schema in
    match fieldsLoop (Fields reg msgDesc) ∅ [] visited with
    | None => None
    | Some (properties, required, visited) =>
        match oneofsLoop (Oneofs reg msgDesc) properties visited with
        | None => None
        | Some (properties, visited) =>
            let schema := <["properties" := JObj properties]> schema in
            let schema :=
              match required with
              | [] => schema
              | _ => <["required" := JStrs required]> schema
              end in
            Some (Ok (JObj schema), visited ∖ {[fullName]})
        end
    end.
End Fields.

(** [extractMessageSchemaInternal]: one unit of fuel per message
    entered. *)
Fixpoint extractMessageSchemaInternal (fuel : nat)
    (msgDesc : MessageDescriptor) (visited : gset string) : Outcome :=
  match fuel with
  | O => None
  | S fuel' =>
      extractMessageBody (extractMessageSchemaInternal fuel') msgDesc visited
  end.

Definition extractFieldSchemaInternal (fuel : nat) :=
  extractFieldSchemaInternal_ (extractMessageSchemaInternal fuel).

Definition extractFieldTypeSchemaInternal (fuel : nat) :=
  extractFieldTypeSchemaInternal_ (extractMessageSchemaInternal fuel).

(** Fuel that always suffices: one more than the number of messages of
    the registry (see [extractMessageSchemaInternal_restores]). *)
Definition enoughFuel : nat := S (size (dom reg)).

(** A compiler of messages that, when fewer than [bound] messages of the
    registry are unvisited, returns a schema and hands the visited map
    back as it got it. *)
Definition restores (extractMessage : MessageDescriptor → gset string → Outcome)
    (bound : nat) : Prop :=
  ∀ msgDesc visited,
    size (dom reg ∖ visited) < bound →
    ∃ schema, extractMessage msgDesc visited = Some (Ok schema, visited).

(** [ExtractMessageSchema]: a fresh visited map per call. *)
Definition ExtractMessageSchema (msgDesc : MessageDescriptor)
  : option (result error JSON) :=
  fst <$> extractMessageSchemaInternal enoughFuel msgDesc ∅.

(** [extractFieldSchema] and [extractFieldTypeSchema]. *)
Definition extractFieldSchema (field : FieldDescriptor)
  : option (result error JSON) :=
  fst <$> extractFieldSchemaInternal enoughFuel field ∅.

Definition extractFieldTypeSchema (field : FieldDescriptor)
  : option (result error JSON) :=
  fst <$> extractFieldTypeSchemaInternal enoughFuel field ∅.
End Extractor.

(** The descriptor whose kind decides the type schema of a field: the value
    descriptor of a map field, the field itself otherwise. *)
Definition typeField (field : FieldDescriptor) : FieldDescriptor :=
  match fdMapKV field with
  | Some (_, valueField) => valueField
  | None => field
  end.

(** Where the type schema sits in the schema of a field: under "items" for a
    repeated field, under "additionalProperties" for a map field, and it is
    the whole schema of a singular field. *)
Definition typeSchemaIn (field : FieldDescriptor) (fieldSchema : JSON)
  : option JSON :=
  if IsList field then member "items" fieldSchema
  else match fdMapKV field with
       | Some _ => member "additionalProperties" fieldSchema
       | None => Some fieldSchema
       end.

(** [field] is a field of the message [body] whose type is the message
    [target], which is not one of the well-known types; field names are
    unique in [body] and no oneof of [body] bears the name of [field] (as
    protobuf requires of every message). *)
Definition messageFieldTo (body : MessageBody) (field : FieldDescriptor)
    (target : string) : Prop :=
  field ∈ mFields body
  ∧ fdKind (typeField field) = MessageKind
  ∧ fdMessage (typeField field) = target
  ∧ wellKnownSchema target = None
  ∧ NoDup (fdName <$> mFields body)
  ∧ fdName field ∉ (ooName <$> mOneofs body).

(** The schema found in [schema] under "properties" for the name of
    [field], unwrapped to the type schema. *)
Definition propertyType (field : FieldDescriptor) (schema : JSON)
  : option JSON :=
  match member "properties" schema with
  | Some properties =>
      match member (fdName field) properties with
      | Some fieldSchema => typeSchemaIn field fieldSchema
      | None => None
      end
  | None => None
  end.

Section ToolName.
Variable unicodeToLower : string → string.

(** [generateToolName] of package [descriptors]. *)
Definition generateToolName (serviceName methodName : string) : string :=
  let servicePart :=
    ToLower unicodeToLower (ReplaceAll serviceName "." "_") in
  let methodPart := ToLower unicodeToLower methodName in
  Sprintf_s_s servicePart methodPart.
End ToolName.

End Descriptors.

(** ** Package [grpc]: the catalog records.

    [ServiceInfo.Methods] is a Go slice: a header (backing array, length)
    that is copied with the struct while the backing array stays shared.
    The arrays live in a store. *)
Module GrpcTypes.
Import Protoreflect.

Record MethodInfo := {
  Name : string;
  FullName : string;
  Description : string;
  InputType : string;
  OutputType : string;
  InputDescriptor : option MessageDescriptor;   (* [None]: a nil interface *)
  OutputDescriptor : option MessageDescriptor;
  IsClientStreaming : bool;
  IsServerStreaming : bool
}.

(** A slice header; [NilSlice] is the nil slice. *)
Inductive Slice :=
| NilSlice
| MkSlice (array : nat) (len : nat).

(** [svcName] is the field [Name] of [ServiceInfo]. *)
Record ServiceInfo := {
  svcName : string;
  Methods : Slice;
  FileDescriptor : option nat     (* a pointer, [None] when nil *)
}.

(** The backing arrays of all [[]MethodInfo] slices. *)
Record Store := {
  arrays : gmap nat (list MethodInfo);
  nextArray : nat
}.

(** The elements a slice denotes: [for _, m := range slice]. *)
Definition elems (st : Store) (sl : Slice) : list MethodInfo :=
  match sl with
  | NilSlice => []
  | MkSlice a n => take n (default [] (arrays st !! a))
  end.

(** [len(slice)]. *)
Definition sliceLen (sl : Slice) : nat :=
  match sl with NilSlice => 0 | MkSlice _ n => n end.

(** A fresh backing array holding [ms], and the slice over it. *)
Definition newSlice (st : Store) (ms : list MethodInfo) : Slice * Store :=
  (MkSlice (nextArray st) (length ms),
   {| arrays := <[nextArray st := ms]> (arrays st);
      nextArray := S (nextArray st) |}).

(** [slice[i] = m]: a write through the header into the shared array. Go
    panics when [i] is out of range; the store is then left as it is. *)
Definition setElem (st : Store) (sl : Slice) (i : nat) (m : MethodInfo)
  : Store :=
  match sl with
  | NilSlice => st
  | MkSlice a n =>
      if decide (i < n)
      then {| arrays := alter (λ l, <[i := m]> l) a (arrays st);
              nextArray := nextArray st |}
      else st
  end.

End GrpcTypes.

(** ** Package [tools]: the tool builder.

    The builder's schemas are Go maps held by reference: the schema cache,
    the properties of an enclosing schema and the caller can all hold the
    same map, and [generateFieldSchema] writes a description into the map it
    got back.  Maps are therefore objects in a heap, and a schema is the
    address of its object. *)
Module Tools.
Import GoStrings Protoreflect Json.

(** What a map entry of a builder schema holds. *)
Inductive Val :=
| VStr (s : string)
| VInt (z : Z)
| VBool (b : bool)
| VStrs (l : list string)
| VRef (obj : nat)
| VRefs (objs : list nat).

Inductive error :=
| ErrNilDescriptor                               (* "nil message descriptor" *)
| ErrUnsupportedKind (k : Kind)                  (* "unsupported field kind: %v" *)
| ErrField (fieldName : string) (cause : error)  (* "failed to generate schema for field %s: %w" *)
| ErrOneof (oneofName : string) (cause : error)  (* "failed to generate schema for oneof %s: %w" *)
| ErrOneofField (fieldName : string) (cause : error)
    (* "failed to generate schema for oneof field %s: %w" *)
| ErrMapKey (cause : error)                      (* "failed to generate map key schema: %w" *)
| ErrMapValue (cause : error).                   (* "failed to generate map value schema: %w" *)

(** The builder: its schema cache, and the heap of map objects. *)
Record Builder := {
  objects : gmap nat (gmap string Val);
  nextObject : nat;
  schemaCache : gmap string nat;
  maxRecursionDepth : Z;
  includeComments : bool
}.

(** [NewBuilder]. *)
Definition NewBuilder : Builder :=
  {| objects := ∅; nextObject := 0; schemaCache := ∅;
     maxRecursionDepth := 10; includeComments := true |}.

(** A map literal: a fresh object. *)
Definition newObject (b : Builder) (o : gmap string Val) : nat * Builder :=
  (nextObject b,
   {| objects := <[nextObject b := o]> (objects b);
      nextObject := S (nextObject b);
      schemaCache := schemaCache b;
      maxRecursionDepth := maxRecursionDepth b;
      includeComments := includeComments b |}).

(** [m[key] = v] on the map at address [obj]. *)
Definition setKey (b : Builder) (obj : nat) (key : string) (v : Val)
  : Builder :=
  {| objects := alter (λ o, <[key := v]> o) obj (objects b);
     nextObject := nextObject b;
     schemaCache := schemaCache b;
     maxRecursionDepth := maxRecursionDepth b;
     includeComments := includeComments b |}.

(** [b.schemaCache[fullName] = schema]. *)
Definition cacheSchema (b : Builder) (fullName : string) (obj : nat)
  : Builder :=
  {| objects := objects b;
     nextObject := nextObject b;
     schemaCache := <[fullName := obj]> (schemaCache b);
     maxRecursionDepth := maxRecursionDepth b;
     includeComments := includeComments b |}.

(** The JSON document a schema address stands for (what marshalling the
    map yields); [depth] bounds the nesting that is followed. *)
Fixpoint readSchema (depth : nat) (objs : gmap nat (gmap string Val))
    (obj : nat) : JSON :=
  match depth with
  | O => JNull
  | S depth' =>
      match objs !! obj with
      | None => JNull
      | Some o =>
          JObj ((λ v, match v with
                      | VStr s => JStr s
                      | VInt z => JInt z
                      | VBool b => JBool b
                      | VStrs l => JStrs l
                      | VRef r => readSchema depth' objs r
                      | VRefs rs => JArr (readSchema depth' objs <$> rs)
                      end) <$> o)
      end
  end.

(** The outcome of a schema generator: the schema or the error, the
    visited map and the builder after the call; [None] when the fuel of
    the model ran out. *)
Definition Outcome (A : Type) : Type :=
  option (result error A * gset string * Builder).

(** [generateEnumSchema]. *)
Definition generateEnumSchema (b : Builder) (enum : EnumDescriptor)
  : nat * Builder :=
  let enumValues := evName <$> enValues enum in
  newObject b (<["enum" := VStrs enumValues]> (<["type" := VStr "string"]> ∅)).

Section Generator.
Variable reg : gmap string MessageBody.
(** [strings.TrimSpace], of the Go standard library. *)
Variable TrimSpace : string → string.

(** [GetFieldDescription]. *)
Definition GetFieldDescription (field : FieldDescriptor) : string :=
  let comments := fdLeadingComments field in
  let comments :=
    if decide (fdTrailingComments field = "") then comments
    else if decide (comments = "") then fdTrailingComments field
    else comments +:+ String (ascii_of_nat 10) (fdTrailingComments field) in
  if decide (comments = "") then "Field " +:+ fdName field
  else TrimSpace comments.

Section Fields.
(** [b.generateMessageSchema], for the recursive calls. *)
Variable generateMessage :
  option MessageDescriptor → gset string → Builder → Outcome nat.

Fixpoint generateFieldSchema_ (field : FieldDescriptor)
    (visited : gset string) (b : Builder) {struct field} : Outcome nat :=
  let base : Outcome nat :=
    match fdKind field with
    | BoolKind =>
        let '(o, b) := newObject b (<["type" := VStr "boolean"]> ∅) in
        Some (Ok o, visited, b)
    | Int32Kind | Int64Kind | Sint32Kind | Sint64Kind
    | Sfixed32Kind | Sfixed64Kind =>
        let '(o, b) := newObject b (<["type" := VStr "integer"]> ∅) in
        Some (Ok o, visited, b)
    | Uint32Kind | Uint64Kind | Fixed32Kind | Fixed64Kind =>
        let '(o, b) :=
          newObject b (<["minimum" := VInt 0]>
                       (<["type" := VStr "integer"]> ∅)) in
        Some (Ok o, visited, b)
    | FloatKind | DoubleKind =>
        let '(o, b) := newObject b (<["type" := VStr "number"]> ∅) in
        Some (Ok o, visited, b)
    | StringKind =>
        let '(o, b) := newObject b (<["type" := VStr "string"]> ∅) in
        Some (Ok o, visited, b)
    | BytesKind =>
        let '(o, b) :=
          newObject b (<["format" := VStr "byte"]>
                       (<["type" := VStr "string"]> ∅)) in
        Some (Ok o, visited, b)
    | EnumKind =>
        let '(o, b) := generateEnumSchema b (fdEnum field) in
        Some (Ok o, visited, b)
    | MessageKind =>
        generateMessage (Some (fdMessage field)) visited b
    | GroupKind =>
        Some (Err (ErrUnsupportedKind (fdKind field)), visited, b)
    end in
  match base with
  | None => None
  | Some (Err err, visited, b) => Some (Err err, visited, b)
  | Some (Ok baseSchema, visited, b) =>
      if IsList field then
        let '(o, b) :=
          newObject b (<["items" := VRef baseSchema]>
                       (<["type" := VStr "array"]> ∅)) in
        Some (Ok o, visited, b)
      else
        match fdMapKV field with
        | Some (keyField, valueField) =>
            match generateFieldSchema_ keyField visited b with
            | None => None
            | Some (Err err, visited, b) =>
                Some (Err (ErrMapKey err), visited, b)
            | Some (Ok _, visited, b) =>
                match generateFieldSchema_ valueField visited b with
                | None => None
                | Some (Err err, visited, b) =>
                    Some (Err (ErrMapValue err), visited, b)
                | Some (Ok valueSchema, visited, b) =>
                    let '(pat, b) :=
                      newObject b {[ ".*" := VRef valueSchema ]} in
                    let '(o, b) :=
                      newObject b
                        (<["additionalProperties" := VBool false]>
                         (<["patternProperties" := VRef pat]>
                          (<["type" := VStr "object"]> ∅))) in
                    Some (Ok o, visited, b)
                end
            end
        | None =>
            let description := GetFieldDescription field in
            let b :=
              if decide (description = "") then b
              else setKey b baseSchema "description" (VStr description) in
            Some (Ok baseSchema, visited, b)
        end
  end.

(** The loop of [generateOneofSchema] over the member fields. *)
Fixpoint oneofOptionsLoop (fields : list FieldDescriptor)
    (oneOfOptions : list nat) (visited : gset string) (b : Builder)
  : Outcome (list nat) :=
  match fields with
  | [] => Some (Ok oneOfOptions, visited, b)
  | field :: rest =>
      let fieldName := fdName field in
      match generateFieldSchema_ field visited b with
      | None => None
      | Some (Err err, visited, b) =>
          Some (Err (ErrOneofField fieldName err), visited, b)
      | Some (Ok fieldSchema, visited, b) =>
          let '(properties, b) :=
            newObject b {[ fieldName := VRef fieldSchema ]} in
          let '(oneOfOption, b) :=
            newObject b (<["required" := VStrs [fieldName]]>
                         (<["properties" := VRef properties]>
                          (<["type" := VStr "object"]> ∅))) in
          oneofOptionsLoop rest (oneOfOptions ++ [oneOfOption])
                           visited b
      end
  end.

(** [generateOneofSchema]: [Ok None] is its [nil, nil]. *)
Definition generateOneofSchema_ (oneof : OneofDescriptor)
    (visited : gset string) (b : Builder) : Outcome (option nat) :=
  match ooFields oneof with
  | [] => Some (Ok None, visited, b)
  | fields =>
      match oneofOptionsLoop fields [] visited b with
      | None => None
      | Some (Err err, visited, b) => Some (Err err, visited, b)
      | Some (Ok oneOfOptions, visited, b) =>
          let '(o, b) := newObject b {[ "oneOf" := VRefs oneOfOptions ]} in
          Some (Ok (Some o), visited, b)
      end
  end.

(** The loop of [generateMessageSchema] over [desc.Fields()]; the
    first failing field ends the whole call. *)
Fixpoint fieldsLoop (fields : list FieldDescriptor) (properties : nat)
    (required : list string) (visited : gset string) (b : Builder)
  : Outcome (list string) :=
  match fields with
  | [] => Some (Ok required, visited, b)
  | field :: rest =>
      let fieldName := fdName field in
      match generateFieldSchema_ field visited b with
      | None => None
      | Some (Err err, visited, b) =>
          Some (Err (ErrField fieldName err), visited, b)
      | Some (Ok fieldSchema, visited, b) =>
          let b := setKey b properties fieldName (VRef fieldSchema) in
          let required :=
            if negb (fdHasOptionalKeyword field)
               && bool_decide (fdCardinality field = Required)
            then (required ++ [fieldName])
            else required in
          fieldsLoop rest properties required visited b
      end
  end.

(** The loop of [generateMessageSchema] over [desc.Oneofs()]. *)
Fixpoint oneofsLoop (oneofs : list OneofDescriptor) (properties : nat)
    (visited : gset string) (b : Builder) : Outcome unit :=
  match oneofs with
  | [] => Some (Ok tt, visited, b)
  | oneof :: rest =>
      match generateOneofSchema_ oneof visited b with
      | None => None
      | Some (Err err, visited, b) =>
          Some (Err (ErrOneof (ooName oneof) err), visited, b)
      | Some (Ok oneofSchema, visited, b) =>
          let b :=
            match oneofSchema with
            | Some o => setKey b properties (ooName oneof) (VRef o)
            | None => b
            end in
          oneofsLoop rest properties visited b
      end
  end.

(** The body of [generateMessageSchema]. *)
Definition generateMessageBody (desc : option MessageDescriptor)
    (visited : gset string) (b : Builder) : Outcome nat :=
  match desc with
  | None => Some (Err ErrNilDescriptor, visited, b)
  | Some desc =>
      let fullName := desc in
      if decide (fullName ∈ visited) then
        let '(o, b) :=
          newObject b {[ "$ref" := VStr ("#/definitions/" +:+ fullName) ]} in
        Some (Ok o, visited, b)
      else
        let visited := visited ∪ {[fullName]} in
        match schemaCache b !! fullName with
        | Some cached => Some (Ok cached, visited, b)
        | None =>
            let '(properties, b) := newObject b ∅ in
            let '(schema, b) :=
              newObject b (<["properties" := VRef properties]>
                           (<["type" := VStr "object"]> ∅)) in
            match fieldsLoop (Fields reg desc) properties [] visited b with
            | None => None
            | Some (Err err, visited, b) => Some (Err err, visited, b)
            | Some (Ok required, visited, b) =>
                match oneofsLoop (Oneofs reg desc) properties visited b with
                | None => None
                | Some (Err err, visited, b) => Some (Err err, visited, b)
                | Some (Ok _, visited, b) =>
                    let b :=
                      match required with
                      | [] => b
                      | _ => setKey b schema "required" (VStrs required)
                      end in
                    let b := cacheSchema b fullName schema in
                    Some (Ok schema, visited, b)
                end
            end
        end
  end.
End Fields.

(** [generateMessageSchema]: one unit of fuel per message entered. *)
Fixpoint generateMessageSchema (fuel : nat)
    (desc : option MessageDescriptor) (visited : gset string) (b : Builder)
  : Outcome nat :=
  match fuel with
  | O => None
  | S fuel' =>
      generateMessageBody (generateMessageSchema fuel') desc visited b
  end.

Definition generateFieldSchema (fuel : nat) :=
  generateFieldSchema_ (generateMessageSchema fuel).

Definition generateOneofSchema (fuel : nat) :=
  generateOneofSchema_ (generateMessageSchema fuel).

(** Fuel that always suffices (see [generateMessageSchema_grows]). *)
Definition enoughFuel : nat := S (size (dom reg)).

(** A generator of message schemas that, when fewer than [bound] messages of
    the registry are unvisited, returns, and hands back a visited map that
    holds at least what it held. *)
Definition grows
    (generateMessage : option string → gset string → Builder → Outcome nat)
    (bound : nat) : Prop :=
  ∀ desc visited b,
    size (dom reg ∖ visited) < bound →
    ∃ r visited' b',
      generateMessage desc visited b = Some (r, visited', b')
      ∧ visited ⊆ visited'.
End Generator.

(** The map literal that [generateFieldSchema] makes for a scalar kind. *)
Definition scalarLiteral (k : Kind) : option (gmap string Val) :=
  match k with
  | BoolKind => Some (<["type" := VStr "boolean"]> ∅)
  | Int32Kind | Int64Kind | Sint32Kind | Sint64Kind
  | Sfixed32Kind | Sfixed64Kind => Some (<["type" := VStr "integer"]> ∅)
  | Uint32Kind | Uint64Kind | Fixed32Kind | Fixed64Kind =>
      Some (<["minimum" := VInt 0]> (<["type" := VStr "integer"]> ∅))
  | FloatKind | DoubleKind => Some (<["type" := VStr "number"]> ∅)
  | StringKind => Some (<["type" := VStr "string"]> ∅)
  | BytesKind =>
      Some (<["format" := VStr "byte"]> (<["type" := VStr "string"]> ∅))
  | EnumKind | MessageKind | GroupKind => None
  end.

(** The schema of [desc] as [BuildTool] gets it from the builder [b]:
    [b.generateMessageSchema(desc, make(map[string]bool))], read as JSON, and
    the builder after the call. *)
Definition schemaJSONFrom (reg : gmap string MessageBody) (b : Builder)
    (desc : MessageDescriptor) : option (result error JSON * Builder) :=
  match generateMessageSchema reg trimSpaceASCII (enoughFuel reg)
                              (Some desc) ∅ b with
  | Some (Ok o, _, b') =>
      Some (Ok (readSchema (nextObject b') (objects b') o), b')
  | Some (Err err, _, b') => Some (Err err, b')
  | None => None
  end.

(** The same from a new builder. *)
Definition messageSchemaJSON (reg : gmap string MessageBody)
    (desc : MessageDescriptor) : option (result error JSON) :=
  fst <$> schemaJSONFrom reg NewBuilder desc.

(** The schema of one field from a new builder, read as JSON. *)
Definition fieldSchemaJSON (reg : gmap string MessageBody)
    (field : FieldDescriptor) : option (result error JSON) :=
  match generateFieldSchema reg trimSpaceASCII (enoughFuel reg)
                            field ∅ NewBuilder with
  | Some (Ok o, _, b) => Some (Ok (readSchema (nextObject b) (objects b) o))
  | Some (Err err, _, _) => Some (Err err)
  | None => None
  end.

Section ToolName.
Variable unicodeToLower : string → string.

(** [Builder.generateToolName]. *)
Definition generateToolName (serviceName methodName : string) : string :=
  let servicePart :=
    ToLower unicodeToLower (ReplaceAll serviceName "." "_") in
  let methodPart := ToLower unicodeToLower methodName in
  Sprintf_s_s servicePart methodPart.
End ToolName.

End Tools.

(** ** Package [grpc]: the unified service discoverer.

    The connection manager, the reflection client and the descriptor loader
    are collaborators behind interfaces.  Every call on one of them is
    recorded in a trace, and its result is given by the environment as a
    function of the calls made so far. *)
Module Grpc.
Import GrpcTypes Protoreflect.

(** *** Contexts and time.  Times and durations are in nanoseconds, as
    [time.Duration]. *)
Definition Second : Z := 1000000000.

Inductive ctxError := Canceled | DeadlineExceeded.

Record Context := {
  deadline : option Z;                 (* absolute; [None]: no deadline *)
  cancelled : bool;                    (* cancelled by its owner *)
  outgoing : list (string * string)    (* outgoing metadata, as appended *)
}.

(** [context.Background()]. *)
Definition Background : Context :=
  {| deadline := None; cancelled := false; outgoing := [] |}.

(** [ctx.Err()] at time [now]: non-nil exactly when [ctx.Done()] is
    closed. *)
Definition ctxErr (now : Z) (ctx : Context) : option ctxError :=
  if cancelled ctx then Some Canceled
  else match deadline ctx with
       | Some d => if (d <=? now)%Z then Some DeadlineExceeded else None
       | None => None
       end.

(** [context.WithTimeout(ctx, timeout)] at time [now]: the earlier of the
    parent's deadline and [now + timeout]. *)
Definition WithTimeout (now : Z) (ctx : Context) (timeout : Z) : Context :=
  {| deadline := Some (match deadline ctx with
                       | Some d => Z.min d (now + timeout)
                       | None => (now + timeout)%Z
                       end);
     cancelled := cancelled ctx;
     outgoing := outgoing ctx |}.

(** [metadata.AppendToOutgoingContext(ctx, key, value)]. *)
Definition AppendToOutgoingContext (ctx : Context) (key value : string)
  : Context :=
  {| deadline := deadline ctx;
     cancelled := cancelled ctx;
     outgoing := outgoing ctx ++ [(key, value)] |}.

(** *** Errors. *)
Inductive error :=
| ErrExternal (msg : string)          (* an error made by a collaborator *)
| ErrContext (e : ctxError)           (* [ctx.Err()] *)
| ErrNotConnected                     (* "not connected to gRPC server" *)
| ErrConnectFailed (cause : error)    (* "failed to connect via connection manager: %w" *)
| ErrNilConnection                    (* "connection manager returned nil connection" *)
| ErrHealthCheckFailed (cause : error)       (* "health check failed: %w" *)
| ErrLoadDescriptorSet (cause : error)       (* "failed to load descriptor set: %w" *)
| ErrBuildRegistry (cause : error)           (* "failed to build file registry: %w" *)
| ErrExtractServiceInfo (cause : error)      (* "failed to extract enhanced service info: %w" *)
| ErrReflectionDiscovery (cause : error)     (* "failed to discover services via reflection: %w" *)
| ErrMethodNotFound (serviceName methodName : string)   (* "method %s.%s not found" *)
| ErrStreamingNotSupported            (* "streaming methods are not supported" *)
| ErrInvokeFailed (cause : error)     (* "failed to invoke method: %w" *)
| ErrNilConnectionAfterReconnect      (* "connection manager returned nil connection after reconnect" *)
| ErrReconnectFailed (attempts : Z) (lastErr : option error)
                                      (* "failed to reconnect after %d attempts: %w" *)
| ErrManagerHealthCheckFailed (cause : error)
                                      (* "connection manager health check failed: %w" *)
| ErrClientNotInitialized.            (* "reflection client not initialized" *)

(** *** Collaborators. *)

(** A [*grpc.ClientConn]. *)
Definition ClientConn := nat.

(** A reflection client made by [NewReflectionClient(conn, logger)]. *)
Record ReflectionClient := { clientConn : ClientConn }.

Definition NewReflectionClient (conn : ClientConn) : ReflectionClient :=
  {| clientConn := conn |}.

(** A service as [ReflectionClient.DiscoverServices] yields it: the
    elements of its [Methods] slice are given, the discoverer's store
    receives the backing array. *)
Record DiscoveredService := {
  dsName : string;
  dsMethods : list MethodInfo;
  dsFileDescriptor : option nat
}.

(** [descriptors.EnhancedMethodInfo] and [EnhancedServiceInfo]: the fields
    the discoverer reads. *)
Record EnhancedMethodInfo := {
  emName : string;
  emFullName : string;
  emDescription : string;
  emInputType : string;
  emOutputType : string;
  emInputDescriptor : option MessageDescriptor;
  emOutputDescriptor : option MessageDescriptor;
  emIsClientStreaming : bool;
  emIsServerStreaming : bool
}.

Record EnhancedServiceInfo := {
  esName : string;
  esMethods : list EnhancedMethodInfo
}.

(** A call made on a collaborator. *)
Inductive Event :=
| EvManagerConnect (ctx : Context)
| EvManagerReconnect (ctx : Context)
| EvManagerGetConnection
| EvManagerIsConnected
| EvManagerHealthCheck (ctx : Context)
| EvManagerClose
| EvClientDiscoverServices (client : ReflectionClient) (ctx : Context)
| EvClientInvokeMethod (client : ReflectionClient) (ctx : Context)
                       (method : MethodInfo) (inputJSON : string)
| EvClientHealthCheck (client : ReflectionClient) (ctx : Context)
| EvClientClose (client : ReflectionClient)
| EvLoadFromFile (path : string).

(** The environment: what each call returns, given the calls so far.  A
    Go [error] result is [None] for nil. *)
Record Env := {
  managerConnect : list Event → Context → option error;
  managerReconnect : list Event → Context → option error;
  managerGetConnection : list Event → option ClientConn;
  managerIsConnected : list Event → bool;
  managerHealthCheck : list Event → Context → option error;
  managerClose : list Event → option error;
  clientDiscoverServices :
    list Event → ReflectionClient → Context → result error (list DiscoveredService);
  clientInvokeMethod :
    list Event → ReflectionClient → Context → MethodInfo → string → result error string;
  clientHealthCheck : list Event → ReflectionClient → Context → option error;
  clientClose : list Event → ReflectionClient → option error;
  (* descriptorLoader: LoadFromFile, BuildRegistry, ExtractServiceInfo *)
  loaderLoadFromFile : list Event → string → result error nat;
  loaderBuildRegistry : nat → result error nat;
  loaderExtractServiceInfo : nat → result error (list EnhancedServiceInfo)
}.

(** *** State. *)

(** [config.DescriptorSetConfig]: the fields the discoverer reads. *)
Record DescriptorSetConfig := {
  Enabled : bool;
  Path : string
}.

Record serviceDiscoverer := {
  reflectionClient : option ReflectionClient;      (* [None]: nil *)
  services : gmap string ServiceInfo;
  descriptorConfig : DescriptorSetConfig;
  reconnectInterval : Z;
  maxReconnectAttempts : Z
}.

(** What lies outside the discoverer: the clock, the calls made so far and
    the store of slice arrays. *)
Record World := {
  now : Z;
  trace : list Event;
  store : Store
}.

(** A method of the discoverer: a state transformer with a result. *)
Definition M (A : Type) : Type :=
  serviceDiscoverer * World → A * (serviceDiscoverer * World).

Definition ret {A} (a : A) : M A := λ σ, (a, σ).

Definition bind {A B} (m : M A) (k : A → M B) : M B :=
  λ σ, let '(a, σ') := m σ in k a σ'.

#[global] Instance M_ret : MRet M := @ret.
#[global] Instance M_bind : MBind M := λ A B k m, bind m k.

(** [d], the receiver. *)
Definition this : M serviceDiscoverer := λ σ, (fst σ, σ).

Definition world : M World := λ σ, (snd σ, σ).

(** [d.reflectionClient = c]. *)
Definition setReflectionClient (c : option ReflectionClient) : M unit :=
  λ '(d, w),
    (tt, ({| reflectionClient := c;
             services := services d;
             descriptorConfig := descriptorConfig d;
             reconnectInterval := reconnectInterval d;
             maxReconnectAttempts := maxReconnectAttempts d |}, w)).

(** [d.services = m]. *)
Definition setServices (m : gmap string ServiceInfo) : M unit :=
  λ '(d, w),
    (tt, ({| reflectionClient := reflectionClient d;
             services := m;
             descriptorConfig := descriptorConfig d;
             reconnectInterval := reconnectInterval d;
             maxReconnectAttempts := maxReconnectAttempts d |}, w)).

(** A call on a collaborator: it is recorded, and answered from the calls
    before it. *)
Definition call {A} (ev : Event) (answer : list Event → A) : M A :=
  λ '(d, w),
    (answer (trace w),
     (d, {| now := now w; trace := trace w ++ [ev]; store := store w |})).

(** A fresh slice holding [ms]. *)
Definition makeSlice (ms : list MethodInfo) : M Slice :=
  λ '(d, w),
    let '(sl, st) := newSlice (store w) ms in
    (sl, (d, {| now := now w; trace := trace w; store := st |})).

(** [select { case <-ctx.Done(): ...; case <-time.After(interval): }] for
    a positive interval: the context wins when it is done on entry or its
    deadline falls within the interval, otherwise the interval passes. *)
Definition awaitInterval (ctx : Context) (interval : Z)
  : M (option ctxError) :=
  λ '(d, w),
    match ctxErr (now w) ctx with
    | Some e => (Some e, (d, w))
    | None =>
        match deadline ctx with
        | Some dl =>
            if (dl <=? now w + interval)%Z
            then (Some DeadlineExceeded,
                  (d, {| now := dl; trace := trace w; store := store w |}))
            else (None,
                  (d, {| now := now w + interval; trace := trace w;
                         store := store w |}))
        | None =>
            (None, (d, {| now := now w + interval; trace := trace w;
                          store := store w |}))
        end
    end.

(** [NewServiceDiscoverer] (and [newServiceDiscovererWithConnManager],
    with the zero configuration). *)
Definition NewServiceDiscoverer (descriptorConfig : DescriptorSetConfig)
  : serviceDiscoverer :=
  {| reflectionClient := None;
     services := ∅;
     descriptorConfig := descriptorConfig;
     reconnectInterval := 5 * Second;
     maxReconnectAttempts := 5 |}.

Section Discoverer.
Variable env : Env.

(** [Connect]. *)
Definition Connect (ctx : Context) : M (option error) :=
  err ← call (EvManagerConnect ctx) (λ h, managerConnect env h ctx);
  match err with
  | Some err => ret (Some (ErrConnectFailed err))
  | None =>
      conn ← call EvManagerGetConnection (managerGetConnection env);
      match conn with
      | None => ret (Some ErrNilConnection)
      | Some conn =>
          let client := NewReflectionClient conn in
          setReflectionClient (Some client) ;;
          err ← call (EvClientHealthCheck client ctx)
                      (λ h, clientHealthCheck env h client ctx);
          match err with
          | Some err => ret (Some (ErrHealthCheckFailed err))
          | None => ret None
          end
      end
  end.

(** The conversion of one enhanced method. *)
Definition toMethodInfo (m : EnhancedMethodInfo) : MethodInfo :=
  {| Name := emName m;
     FullName := emFullName m;
     Description := emDescription m;
     InputType := emInputType m;
     OutputType := emOutputType m;
     InputDescriptor := emInputDescriptor m;
     OutputDescriptor := emOutputDescriptor m;
     IsClientStreaming := emIsClientStreaming m;
     IsServerStreaming := emIsServerStreaming m |}.

(** The loop of [discoverFromFileDescriptor] over the enhanced
    services. *)
Fixpoint storeEnhanced (enhancedServices : list EnhancedServiceInfo)
  : M unit :=
  match enhancedServices with
  | [] => ret tt
  | enhancedService :: rest =>
      methods ← makeSlice (toMethodInfo <$> esMethods enhancedService);
      let serviceInfo :=
        {| svcName := esName enhancedService;
           Methods := methods;
           FileDescriptor := None |} in
      d ← this;
      setServices (<[esName enhancedService := serviceInfo]> (services d)) ;;
      storeEnhanced rest
  end.

(** [discoverFromFileDescriptor]. *)
Definition discoverFromFileDescriptor : M (option error) :=
  d ← this;
  let path := Path (descriptorConfig d) in
  fdSet ← call (EvLoadFromFile path) (λ h, loaderLoadFromFile env h path);
  match fdSet with
  | Err err => ret (Some (ErrLoadDescriptorSet err))
  | Ok fdSet =>
      match loaderBuildRegistry env fdSet with
      | Err err => ret (Some (ErrBuildRegistry err))
      | Ok files =>
          setServices ∅ ;;
          match loaderExtractServiceInfo env files with
          | Err err => ret (Some (ErrExtractServiceInfo err))
          | Ok enhancedServices =>
              storeEnhanced enhancedServices ;;
              ret None
          end
      end
  end.

(** The loop of [discoverFromReflection] over the discovered services. *)
Fixpoint storeDiscovered (discovered : list DiscoveredService) : M unit :=
  match discovered with
  | [] => ret tt
  | service :: rest =>
      methods ← makeSlice (dsMethods service);
      let serviceInfo :=
        {| svcName := dsName service;
           Methods := methods;
           FileDescriptor := dsFileDescriptor service |} in
      d ← this;
      setServices (<[dsName service := serviceInfo]> (services d)) ;;
      storeDiscovered rest
  end.

(** [discoverFromReflection]; [client] is [d.reflectionClient], which
    its only caller has found not to be nil. *)
Definition discoverFromReflection (client : ReflectionClient)
    (ctx : Context) : M (option error) :=
  discovered ← call (EvClientDiscoverServices client ctx)
                     (λ h, clientDiscoverServices env h client ctx);
  match discovered with
  | Err err => ret (Some (ErrReflectionDiscovery err))
  | Ok discovered =>
      setServices ∅ ;;
      storeDiscovered discovered ;;
      ret None
  end.

(** [DiscoverServices]. *)
Definition DiscoverServices (ctx : Context) : M (option error) :=
  d ← this;
  match reflectionClient d with
  | None => ret (Some ErrNotConnected)
  | Some client =>
      if Enabled (descriptorConfig d)
         && negb (bool_decide (Path (descriptorConfig d) = ""))
      then
        err ← discoverFromFileDescriptor;
        match err with
        | None => ret None
        | Some _ => discoverFromReflection client ctx
        end
      else discoverFromReflection client ctx
  end.

(** [GetServices]: a new map with the entries of [d.services]. *)
Definition GetServices (d : serviceDiscoverer) : gmap string ServiceInfo :=
  map_fold (λ name service copy, <[name := service]> copy) ∅ (services d).

(** [GetService]. *)
Definition GetService (d : serviceDiscoverer) (name : string)
  : option ServiceInfo :=
  services d !! name.

(** The zero [MethodInfo{}]. *)
Definition noMethod : MethodInfo :=
  {| Name := ""; FullName := ""; Description := ""; InputType := "";
     OutputType := ""; InputDescriptor := None; OutputDescriptor := None;
     IsClientStreaming := false; IsServerStreaming := false |}.

(** The loop of [GetMethod] over [service.Methods]. *)
Fixpoint findMethod (methods : list MethodInfo) (methodName : string)
  : MethodInfo * bool :=
  match methods with
  | [] => (noMethod, false)
  | method :: rest =>
      if decide (Name method = methodName) then (method, true)
      else findMethod rest methodName
  end.

(** [GetMethod]. *)
Definition GetMethod (d : serviceDiscoverer) (st : Store)
    (serviceName methodName : string) : MethodInfo * bool :=
  match GetService d serviceName with
  | None => (noMethod, false)
  | Some service => findMethod (elems st (Methods service)) methodName
  end.

(** [InvokeMethod]. *)
Definition InvokeMethod (ctx : Context)
    (serviceName methodName inputJSON : string) : M (result error string) :=
  d ← this;
  match reflectionClient d with
  | None => ret (Err ErrNotConnected)
  | Some client =>
      w ← world;
      let '(method, exists_) :=
        GetMethod d (store w) serviceName methodName in
      if negb exists_ then
        ret (Err (ErrMethodNotFound serviceName methodName))
      else if IsClientStreaming method || IsServerStreaming method then
        ret (Err ErrStreamingNotSupported)
      else
        res ← call (EvClientInvokeMethod client ctx method inputJSON)
                    (λ h, clientInvokeMethod env h client ctx method inputJSON);
        match res with
        | Err err => ret (Err (ErrInvokeFailed err))
        | Ok result => ret (Ok result)
        end
  end.

(** The loop of [InvokeMethodWithHeaders] over the headers. *)
Definition appendHeaders (ctx : Context) (headers : list (string * string))
  : Context :=
  fold_left (λ ctx '(key, value), AppendToOutgoingContext ctx key value)
            headers ctx.

(** [InvokeMethodWithHeaders]; [headers] lists the entries of the map in
    the order the [range] loop visits them. *)
Definition InvokeMethodWithHeaders (ctx : Context)
    (headers : list (string * string))
    (serviceName methodName inputJSON : string) : M (result error string) :=
  d ← this;
  match reflectionClient d with
  | None => ret (Err ErrNotConnected)
  | Some _ =>
      let ctx := appendHeaders ctx headers in
      InvokeMethod ctx serviceName methodName inputJSON
  end.

(** The loop of [Reconnect]: [remaining] iterations are left, [i] is the
    loop counter. *)
Fixpoint reconnectLoop (remaining : nat) (i : Z) (lastErr : option error)
    (ctx : Context) : M (option error) :=
  match remaining with
  | O =>
      d ← this;
      ret (Some (ErrReconnectFailed (maxReconnectAttempts d) lastErr))
  | S remaining =>
      d ← this;
      done ← (if (0 <? i)%Z then awaitInterval ctx (reconnectInterval d)
               else ret None);
      match done with
      | Some e => ret (Some (ErrContext e))
      | None =>
          err ← call (EvManagerReconnect ctx)
                      (λ h, managerReconnect env h ctx);
          match err with
          | Some err => reconnectLoop remaining (i + 1) (Some err) ctx
          | None =>
              conn ← call EvManagerGetConnection (managerGetConnection env);
              match conn with
              | None =>
                  reconnectLoop remaining (i + 1)
                                (Some ErrNilConnectionAfterReconnect) ctx
              | Some conn =>
                  setReflectionClient (Some (NewReflectionClient conn)) ;;
                  err ← DiscoverServices ctx;
                  match err with
                  | Some err => reconnectLoop remaining (i + 1) (Some err) ctx
                  | None => ret None
                  end
              end
          end
      end
  end.

(** [Reconnect]. *)
Definition Reconnect (ctx : Context) : M (option error) :=
  d ← this;
  reconnectLoop (Z.to_nat (maxReconnectAttempts d)) 0 None ctx.

(** [IsConnected]. *)
Definition IsConnected : M bool :=
  connected ← call EvManagerIsConnected (managerIsConnected env);
  d ← this;
  ret (connected && bool_decide (reflectionClient d ≠ None)).

(** [HealthCheck]. *)
Definition HealthCheck (ctx : Context) : M (option error) :=
  err ← call (EvManagerHealthCheck ctx) (λ h, managerHealthCheck env h ctx);
  match err with
  | Some err => ret (Some (ErrManagerHealthCheckFailed err))
  | None =>
      d ← this;
      match reflectionClient d with
      | None => ret (Some ErrClientNotInitialized)
      | Some client =>
          call (EvClientHealthCheck client ctx)
               (λ h, clientHealthCheck env h client ctx)
      end
  end.

(** [Close]: both close errors are logged and dropped. *)
Definition Close : M (option error) :=
  d ← this;
  match reflectionClient d with
   | Some client =>
       call (EvClientClose client) (λ h, clientClose env h client) ;;
       setReflectionClient None
   | None => ret tt
   end ;;
  call EvManagerClose (managerClose env) ;;
  setServices ∅ ;;
  ret None.

(** [GetServiceCount]. *)
Definition GetServiceCount (d : serviceDiscoverer) : nat :=
  size (services d).

(** [GetMethodCount]. *)
Definition GetMethodCount (d : serviceDiscoverer) : nat :=
  map_fold (λ _ service count, count + sliceLen (Methods service)) 0
           (services d).

(** What a caller can do to the map [GetServices] returned. *)
Inductive Mutation :=
| SetEntry (name : string) (service : ServiceInfo)     (* [m[name] = service] *)
| DeleteEntry (name : string)                          (* [delete(m, name)] *)
| SetMethod (name : string) (i : nat) (method : MethodInfo).
                                              (* [m[name].Methods[i] = method] *)

Definition mutate (mu : Mutation) (m : gmap string ServiceInfo) (st : Store)
  : gmap string ServiceInfo * Store :=
  match mu with
  | SetEntry name service => (<[name := service]> m, st)
  | DeleteEntry name => (delete name m, st)
  | SetMethod name i method =>
      match m !! name with
      | Some service => (m, setElem st (Methods service) i method)
      | None => (m, st)
      end
  end.

(** What can happen to a discoverer: the calls of its public interface that
    are not plain reads, and what a caller does to a map that [GetServices]
    returned. *)
Inductive Op :=
| OpMutate (mu : Mutation)
| OpConnect (ctx : Context)
| OpDiscoverServices (ctx : Context)
| OpInvokeMethod (ctx : Context) (serviceName methodName inputJSON : string)
| OpInvokeMethodWithHeaders (ctx : Context) (headers : list (string * string))
                            (serviceName methodName inputJSON : string)
| OpReconnect (ctx : Context)
| OpIsConnected
| OpHealthCheck (ctx : Context)
| OpClose.

Definition perform (op : Op) (σ : serviceDiscoverer * World)
  : serviceDiscoverer * World :=
  match op with
  | OpMutate mu =>
      (fst σ,
       {| now := now (snd σ); trace := trace (snd σ);
          store := snd (mutate mu (GetServices (fst σ)) (store (snd σ))) |})
  | OpConnect ctx => snd (Connect ctx σ)
  | OpDiscoverServices ctx => snd (DiscoverServices ctx σ)
  | OpInvokeMethod ctx s m j => snd (InvokeMethod ctx s m j σ)
  | OpInvokeMethodWithHeaders ctx h s m j =>
      snd (InvokeMethodWithHeaders ctx h s m j σ)
  | OpReconnect ctx => snd (Reconnect ctx σ)
  | OpIsConnected => snd (IsConnected σ)
  | OpHealthCheck ctx => snd (HealthCheck ctx σ)
  | OpClose => snd (Close σ)
  end.

(** The states a discoverer made by [NewServiceDiscoverer] can be in
    after any sequence of such steps. *)
Inductive reachable : serviceDiscoverer * World → Prop :=
| reachable_new (cfg : DescriptorSetConfig) (w : World) :
    reachable (NewServiceDiscoverer cfg, w)
| reachable_step (op : Op) (σ : serviceDiscoverer * World) :
    reachable σ → reachable (perform op σ).
End Discoverer.

(** The catalog as its readers see it: the methods of every service. *)
Definition catalog (d : serviceDiscoverer) (st : Store)
  : gmap string (list MethodInfo) :=
  (λ service, elems st (Methods service)) <$> services d.

(** *** Observations on traces and states. *)

Definition isAttempt (ev : Event) : bool :=
  match ev with EvManagerReconnect _ => true | _ => false end.

(** The number of [connManager.Reconnect] calls in a trace. *)
Definition attempts (tr : list Event) : nat :=
  length (filter (λ ev, isAttempt ev = true) tr).

(** The contexts under which [ReflectionClient.InvokeMethod] was called:
    the contexts of the wire calls. *)
Definition wireContexts (tr : list Event) : list Context :=
  omap (λ ev, match ev with
              | EvClientInvokeMethod _ ctx _ _ => Some ctx
              | _ => None
              end) tr.

(** A step that leaves the client, the clock and the number of
    reconnection attempts as they are. *)
Definition quiet {A} (m : M A) : Prop :=
  ∀ σ,
    reflectionClient (fst (snd (m σ))) = reflectionClient (fst σ)
    ∧ now (snd (snd (m σ))) = now (snd σ)
    ∧ attempts (trace (snd (snd (m σ)))) = attempts (trace (snd σ)).

(** The preconditions of [InvokeMethod] hold: there is a reflection
    client, and the method is in the catalog and not streaming. *)
Definition invocable (σ : serviceDiscoverer * World)
    (serviceName methodName : string) : bool :=
  let found := GetMethod (fst σ) (store (snd σ)) serviceName methodName in
  bool_decide (reflectionClient (fst σ) ≠ None)
  && snd found
  && negb (IsClientStreaming (fst found) || IsServerStreaming (fst found)).

(** A discoverer without a reflection client has an empty catalog. *)
Definition consistent (σ : serviceDiscoverer * World) : Prop :=
  reflectionClient (fst σ) = None → services (fst σ) = ∅.

End Grpc.

(** ** Package [server]: the handler's path from a tool name to a call. *)
Module Server.
Import GoStrings GrpcTypes Grpc.

Inductive error :=
| ErrNoMatch (toolName : string)
    (* "tool name %s does not match any discovered service method" *)
| ErrInvalidToolName (cause : error).
    (* "invalid tool name: %w" *)


Section Handler.
Variable unicodeToLower : string → string.

(** The inner loop of [parseToolName], over [service.Methods]. *)
Fixpoint matchMethod (servicePart toolName : string)
    (methods : list MethodInfo) : option string :=
  match methods with
  | [] => None
  | method :: rest =>
      let methodPart := ToLower unicodeToLower (Name method) in
      let expectedToolName := Sprintf_s_s servicePart methodPart in
      if decide (expectedToolName = toolName) then Some (Name method)
      else matchMethod servicePart toolName rest
  end.

(** [parseToolName]; [services] lists the entries of the map that
    [GetServices] returned, in the order the [range] loop visits them. *)
Fixpoint parseToolName (st : Store) (services : list (string * ServiceInfo))
    (toolName : string) : result error (string * string) :=
  match services with
  | [] => Err (ErrNoMatch toolName)
  | (serviceName, service) :: rest =>
      let servicePart :=
        ToLower unicodeToLower (ReplaceAll serviceName "." "_") in
      match matchMethod servicePart toolName (elems st (Methods service)) with
      | Some methodName => Ok (serviceName, methodName)
      | None => parseToolName st rest toolName
      end
  end.

Variable env : Env.

(** [handleToolsCall] from the point where the parameters are validated
    and the arguments marshalled: [headers] are the filtered headers in
    [range] order, [services] the entries of [GetServices()] in [range]
    order.  The result is the text of the content block, or the error of
    the invocation. *)
Definition handleToolsCall (ctx : Context) (toolName argumentsJSON : string)
    (services : list (string * ServiceInfo))
    (filteredHeaders : list (string * string))
  : M (result error (result Grpc.error string)) :=
  w ← world;
  match parseToolName (store w) services toolName with
  | Err err => mret (Err (ErrInvalidToolName err))
  | Ok (serviceName, methodName) =>
      let ctx := WithTimeout (now w) ctx (30 * Second) in
      res ← (if decide (0 < length filteredHeaders) then
               InvokeMethodWithHeaders env ctx filteredHeaders
                                       serviceName methodName argumentsJSON
             else
               InvokeMethod env ctx serviceName methodName argumentsJSON);
      mret (Ok res)
  end.
End Handler.

End Server.

(** ** Concrete descriptors and catalogs used by the examples below. *)
Module Samples.
Import Protoreflect GrpcTypes Grpc.

Definition message (fields : list FieldDescriptor) : MessageBody :=
  {| mFields := fields; mOneofs := []; mComments := "" |}.

(** [message A { B b = 1; }  message B { A a = 1; }]. *)
Definition cyclic : gmap string MessageBody :=
  <["test.A" := message [messageField "b" "test.B"]]>
  (<["test.B" := message [messageField "a" "test.A"]]> ∅).

(** [message Root { Leaf x = 1; Leaf y = 2; }  message Leaf { string s = 1; }]. *)
Definition diamond : gmap string MessageBody :=
  <["test.Root" := message [messageField "x" "test.Leaf";
                             messageField "y" "test.Leaf"]]>
  (<["test.Leaf" := message [scalarField "s" StringKind]]> ∅).

(** The schema of [test.Leaf] as the extractor compiles it. *)
Definition leafExtracted : Json.JSON :=
  Json.JObj (<["required" := Json.JStrs ["s"]]>
             (<["properties" :=
                  Json.JObj {[ "s" := Json.JObj {[ "type" := Json.JStr "string" ]} ]}]>
              {[ "type" := Json.JStr "object" ]})).

(** The schema of [test.Root] as the extractor compiles it: the leaf is
    expanded under both fields. *)
Definition rootExtracted : Json.JSON :=
  Json.JObj (<["properties" :=
                 Json.JObj (<["y" := leafExtracted]> {[ "x" := leafExtracted ]})]>
             {[ "type" := Json.JStr "object" ]}).

(** The schema of [test.Root] as a new builder generates it: the leaf is
    expanded under [x], and is a reference under [y]. *)
Definition rootGenerated : Json.JSON :=
  Json.JObj
    (<["properties" :=
         Json.JObj
           (<["y" := Json.JObj (<["description" := Json.JStr "Field y"]>
                                {[ "$ref" := Json.JStr "#/definitions/test.Leaf" ]})]>
            {[ "x" :=
                 Json.JObj
                   (<["description" := Json.JStr "Field x"]>
                    (<["properties" :=
                         Json.JObj
                           {[ "s" := Json.JObj (<["description" := Json.JStr "Field s"]>
                                                {[ "type" := Json.JStr "string" ]}) ]}]>
                     {[ "type" := Json.JStr "object" ]})) ]})]>
     {[ "type" := Json.JStr "object" ]}).

(** The schema of [test.A] (in [cyclic]) as the extractor compiles it. *)
Definition cycleExtracted : Json.JSON :=
  Json.JObj
    (<["properties" :=
         Json.JObj
           {[ "b" := Json.JObj
                       (<["properties" :=
                            Json.JObj {[ "a" := Json.refTo "test.A" ]}]>
                        {[ "type" := Json.JStr "object" ]}) ]}]>
     {[ "type" := Json.JStr "object" ]}).

(** The schema of [test.A] (in [cyclic]) as a new builder generates it. *)
Definition cycleGenerated : Json.JSON :=
  Json.JObj
    (<["properties" :=
         Json.JObj
           {[ "b" :=
                Json.JObj
                  (<["description" := Json.JStr "Field b"]>
                   (<["properties" :=
                        Json.JObj
                          {[ "a" := Json.JObj
                                      (<["description" := Json.JStr "Field a"]>
                                       {[ "$ref" := Json.JStr "#/definitions/test.A" ]}) ]}]>
                    {[ "type" := Json.JStr "object" ]})) ]}]>
     {[ "type" := Json.JStr "object" ]}).

(** What a builder that has generated [test.A] returns for [test.B] (in
    [cyclic]): the object it cached while [test.A] was marked. *)
Definition cachedB : Json.JSON :=
  Json.JObj
    (<["description" := Json.JStr "Field b"]>
     (<["properties" :=
          Json.JObj
            {[ "a" := Json.JObj
                        (<["description" := Json.JStr "Field a"]>
                         {[ "$ref" := Json.JStr "#/definitions/test.A" ]}) ]}]>
      {[ "type" := Json.JStr "object" ]})).

(** What a new builder generates for a singular [uint32] field [n]. *)
Definition uint32Generated : Json.JSON :=
  Json.JObj (<["description" := Json.JStr "Field n"]>
             (<["minimum" := Json.JInt 0]> {[ "type" := Json.JStr "integer" ]})).

Definition method (name : string) (clientStreaming serverStreaming : bool)
  : MethodInfo :=
  {| Name := name; FullName := "pkg.sub.Widget." +:+ name; Description := "";
     InputType := "pkg.sub.Req"; OutputType := "pkg.sub.Resp";
     InputDescriptor := Some "pkg.sub.Req";
     OutputDescriptor := Some "pkg.sub.Resp";
     IsClientStreaming := clientStreaming;
     IsServerStreaming := serverStreaming |}.

(** A store with one backing array, holding the methods [ms]. *)
Definition storeWith (ms : list MethodInfo) : Store :=
  {| arrays := {[ 0 := ms ]}; nextArray := 1 |}.

(** The service [pkg.sub.Widget] over the array of [storeWith ms]. *)
Definition widget (n : nat) : ServiceInfo :=
  {| svcName := "pkg.sub.Widget"; Methods := MkSlice 0 n;
     FileDescriptor := None |}.

Definition widgetCatalog (n : nat) : gmap string ServiceInfo :=
  {[ "pkg.sub.Widget" := widget n ]}.

(** An environment in which every call on a collaborator fails. *)
Definition failing : Env :=
  {| managerConnect := λ _ _, Some (ErrExternal "connect");
     managerReconnect := λ _ _, Some (ErrExternal "reconnect");
     managerGetConnection := λ _, None;
     managerIsConnected := λ _, false;
     managerHealthCheck := λ _ _, Some (ErrExternal "health");
     managerClose := λ _, Some (ErrExternal "close");
     clientDiscoverServices := λ _ _ _, Err (ErrExternal "discover");
     clientInvokeMethod := λ _ _ _ _ _, Err (ErrExternal "invoke");
     clientHealthCheck := λ _ _ _, Some (ErrExternal "health");
     clientClose := λ _ _, Some (ErrExternal "close");
     loaderLoadFromFile := λ _ _, Err (ErrExternal "load");
     loaderBuildRegistry := λ _, Err (ErrExternal "registry");
     loaderExtractServiceInfo := λ _, Err (ErrExternal "extract") |}.

(** An environment in which every call succeeds; discovery finds the
    service [pkg.sub.Widget] with the methods [ms]. *)
Definition succeeding (ms : list MethodInfo) : Env :=
  {| managerConnect := λ _ _, None;
     managerReconnect := λ _ _, None;
     managerGetConnection := λ _, Some 7;
     managerIsConnected := λ _, true;
     managerHealthCheck := λ _ _, None;
     managerClose := λ _, None;
     clientDiscoverServices := λ _ _ _,
       Ok [ {| dsName := "pkg.sub.Widget"; dsMethods := ms;
               dsFileDescriptor := None |} ];
     clientInvokeMethod := λ _ _ _ _ _, Ok "{}";
     clientHealthCheck := λ _ _ _, None;
     clientClose := λ _ _, None;
     loaderLoadFromFile := λ _ _, Err (ErrExternal "load");
     loaderBuildRegistry := λ _, Err (ErrExternal "registry");
     loaderExtractServiceInfo := λ _, Err (ErrExternal "extract") |}.

Definition noConfig : DescriptorSetConfig := {| Enabled := false; Path := "" |}.

Definition world0 : World :=
  {| now := 0; trace := []; store := {| arrays := ∅; nextArray := 0 |} |}.

(** A new discoverer at time 100. *)
Definition fresh : serviceDiscoverer * World :=
  (NewServiceDiscoverer noConfig,
   {| now := 100; trace := []; store := {| arrays := ∅; nextArray := 0 |} |}).

(** The discoverer after [Connect] and [DiscoverServices] in the
    environment [succeeding ms]. *)
Definition discovered (ms : list MethodInfo) : serviceDiscoverer * World :=
  perform (succeeding ms) (OpDiscoverServices Background)
    (perform (succeeding ms) (OpConnect Background)
       (NewServiceDiscoverer noConfig, world0)).

(** A context with a deadline one minute after time 0. *)
Definition oneMinute : Context :=
  {| deadline := Some (60 * Second)%Z; cancelled := false; outgoing := [] |}.

(** A context whose deadline (time 10) has passed at time [100]. *)
Definition expired : Context :=
  {| deadline := Some 10%Z; cancelled := false; outgoing := [] |}.

End Samples.

(** ** More of Go's [strings] package: prefixes, search, splitting and the
    slicing of a string. *)
Module GoSubstrings.

(** [strings.HasPrefix(s, prefix)]. *)
Definition HasPrefix (s prefix : string) : bool := String.prefix prefix s.

(** [s[n:]], for [n] up to the length of [s]. *)
Fixpoint dropBytes (n : nat) (s : string) : string :=
  match n, s with
  | S n', String _ rest => dropBytes n' rest
  | _, _ => s
  end.

(** [s[:n]], for [n] up to the length of [s]. *)
Fixpoint takeBytes (n : nat) (s : string) : string :=
  match n, s with
  | S n', String c rest => String c (takeBytes n' rest)
  | _, _ => EmptyString
  end.

(** [s[:i]] for an [int] index: Go panics (here: [None]) when [i] is
    negative or beyond the length of [s]. *)
Definition slicePrefix (s : string) (i : Z) : option string :=
  if decide (0 ≤ i ≤ Z.of_nat (String.length s))%Z
  then Some (takeBytes (Z.to_nat i) s)
  else None.

(** [strings.TrimPrefix(s, prefix)]. *)
Definition TrimPrefix (s prefix : string) : string :=
  if HasPrefix s prefix then dropBytes (String.length prefix) s else s.

(** [strings.Contains(s, substr)]. *)
Fixpoint Contains (s substr : string) : bool :=
  String.prefix substr s
  || match s with
     | EmptyString => false
     | String _ rest => Contains rest substr
     end.

(** The scan of [strings.LastIndex]: [i] is the index of the first byte of
    [s] in the whole string, [found] the last index at which [substr] was
    seen so far. *)
Fixpoint lastIndexFrom (substr s : string) (i found : Z) : Z :=
  let found := if String.prefix substr s then i else found in
  match s with
  | EmptyString => found
  | String _ rest => lastIndexFrom substr rest (i + 1) found
  end.

(** [strings.LastIndex(s, substr)]: -1 when [substr] does not occur. *)
Definition LastIndex (s substr : string) : Z := lastIndexFrom substr s 0 (-1).

(** The scan of [strings.Split] for a non-empty separator: the piece that
    is being read and the pieces after it.  [skip] counts the bytes of a
    matched separator that are still to be dropped. *)
Fixpoint splitFrom (sep s : string) (skip : nat) : string * list string :=
  match s with
  | EmptyString => (EmptyString, [])
  | String c rest =>
      match skip with
      | S k => splitFrom sep rest k
      | O =>
          if String.prefix sep s then
            let '(piece, pieces) :=
              splitFrom sep rest (String.length sep - 1) in
            (EmptyString, piece :: pieces)
          else
            let '(piece, pieces) := splitFrom sep rest 0 in
            (String c piece, pieces)
      end
  end.

(** [strings.Split(s, sep)].  With an empty separator Go cuts after every
    UTF-8 sequence, which for ASCII input is after every byte; every call in
    the sources passes [sep = "."]. *)
Definition Split (s sep : string) : list string :=
  match sep with
  | EmptyString => (λ c, String c EmptyString) <$> String.list_ascii_of_string s
  | _ => let '(piece, pieces) := splitFrom sep s 0 in piece :: pieces
  end.

End GoSubstrings.

(** ** Panics: the result of a call that returns or panics. *)
Module Panics.

Inductive outcome (A : Type) :=
| Returns (a : A)
| Panics.
#[global] Arguments Returns {A} a.
#[global] Arguments Panics {A}.

End Panics.

(** ** Package [grpc]: the reflection client ([reflection.go]).

    The reflection stream of the server and the protobuf runtime
    ([proto.Unmarshal], [protodesc.NewFile], the registries, [protojson],
    [dynamicpb], [conn.Invoke]) are collaborators: each call on the network
    is recorded in a trace and answered by the environment from the calls
    made so far.

    A [*descriptorpb.FileDescriptorProto] is a pointer to a value that this
    code never writes to: it is modelled as the pair of its address and the
    value it points to. *)
Module Reflection.
Import GoStrings GoSubstrings Protoreflect GrpcTypes Grpc Panics.

(** *** The descriptor messages, read through their getters (an unset
    field reads as the empty string or [false]). *)
Record MethodDescriptorProto := {
  mdpName : string;
  mdpInputType : string;
  mdpOutputType : string;
  mdpClientStreaming : bool;
  mdpServerStreaming : bool
}.

Record ServiceDescriptorProto := {
  sdpName : string;
  sdpMethod : list MethodDescriptorProto
}.

Record FileDescriptorProto := {
  fdpName : string;
  fdpPackage : string;
  fdpService : list ServiceDescriptorProto
}.

(** A [*descriptorpb.FileDescriptorProto]. *)
Definition FilePtr : Type := nat * FileDescriptorProto.

Inductive error :=
| ErrLibrary (msg : string)          (* an error made by a collaborator *)
| ErrListServices (cause : error)    (* "failed to list services: %w" *)
| ErrCreateStream (cause : error)    (* "failed to create reflection stream: %w" *)
| ErrSendListServices (cause : error)
    (* "failed to send list services request: %w" *)
| ErrRecvListServices (cause : error)
    (* "failed to receive list services response: %w" *)
| ErrInvalidResponse                 (* "received invalid response type" *)
| ErrSendFileContainingSymbol (cause : error)
    (* "failed to send file containing symbol request: %w" *)
| ErrRecvFileContainingSymbol (cause : error)
    (* "failed to receive file containing symbol response: %w" *)
| ErrNoFileDescriptor (symbol : string)
    (* "no file descriptor found for symbol %s" *)
| ErrUnmarshalFileDescriptor (cause : error)
    (* "failed to unmarshal file descriptor: %w" *)
| ErrResolveInput (typeName : string) (cause : error)
    (* "failed to resolve input descriptor for %s: %w" *)
| ErrResolveOutput (typeName : string) (cause : error)
    (* "failed to resolve output descriptor for %s: %w" *)
| ErrCreateFileDescriptor (cause : error)
    (* "failed to create file descriptor: %w" *)
| ErrFindMessage (typeName : string) (cause : error)
    (* "failed to find message descriptor for %s: %w" *)
| ErrNotMessage (typeName : string)
    (* "descriptor for %s is not a message descriptor" *)
| ErrParseInput (cause : error)      (* "failed to parse input JSON: %w" *)
| ErrCallFailed (cause : error)      (* "gRPC call failed: %w" *)
| ErrMarshalOutput (cause : error)   (* "failed to marshal output to JSON: %w" *)
| ErrHealthCheck (cause : error).    (* "health check failed: %w" *)

(** *** [filterInternalServices] *)

Definition internalPrefixes : list string :=
  ["grpc.reflection."; "grpc.health."; "grpc.channelz."; "grpc.testing."].

(** The inner loop over the prefixes, which breaks at the first match. *)
Fixpoint isInternalLoop (service : string) (prefixes : list string) : bool :=
  match prefixes with
  | [] => false
  | prefix :: rest =>
      if HasPrefix service prefix then true else isInternalLoop service rest
  end.

(** The outer loop over the services. *)
Fixpoint filterLoop (services filtered : list string) : list string :=
  match services with
  | [] => filtered
  | service :: rest =>
      let isInternal := isInternalLoop service internalPrefixes in
      filterLoop rest (if negb isInternal then filtered ++ [service]
                       else filtered)
  end.

Definition filterInternalServices (services : list string) : list string :=
  filterLoop services [].

(** *** [getSimpleServiceName] *)
Definition getSimpleServiceName (fullName : string) : string :=
  let parts := Split fullName "." in
  if decide (0 < length parts) then default fullName (last parts)
  else fullName.

(** *** Resolving message descriptors *)

(** What [FindDescriptorByName] finds under a name: a message, or a
    descriptor of another sort (an enum, a service, ...). *)
Inductive Descriptor :=
| MessageDesc (msgDesc : MessageDescriptor)
| OtherDesc.

(** The protobuf runtime behind [resolveMessageDescriptor]: a file
    descriptor made by [protodesc.NewFile] is a handle; a handle that was
    registered in a registry can be searched by name. *)
Record Protodesc := {
  NewFile : FileDescriptorProto → result error nat;
  RegisterFile : nat → option error;            (* into a new registry *)
  FindInFile : nat → string → option Descriptor;
  FindGlobal : string → result error Descriptor (* [protoregistry.GlobalFiles] *)
}.

Section Resolver.
Variable pd : Protodesc.

(** [resolveMessageDescriptor]. *)
Definition resolveMessageDescriptor (typeName : string)
    (fileDescriptor : FilePtr) : result error MessageDescriptor :=
  let typeName := TrimPrefix typeName "." in
  match NewFile pd (snd fileDescriptor) with
  | Err err => Err (ErrCreateFileDescriptor err)
  | Ok fileDesc =>
      (* a registry of its own; when the registration fails it stays empty *)
      let registered :=
        match RegisterFile pd fileDesc with None => true | Some _ => false end in
      let found : result error Descriptor :=
        match (if registered then FindInFile pd fileDesc typeName else None) with
        | Some messageDesc => Ok messageDesc
        | None =>
            match FindGlobal pd typeName with
            | Ok messageDesc => Ok messageDesc
            | Err err => Err (ErrFindMessage typeName err)
            end
        end in
      match found with
      | Err err => Err err
      | Ok (MessageDesc msgDesc) => Ok msgDesc
      | Ok OtherDesc => Err (ErrNotMessage typeName)
      end
  end.

(** [createMethodInfo]. *)
Definition createMethodInfo (serviceName : string)
    (method : MethodDescriptorProto) (fileDescriptor : FilePtr)
  : result error MethodInfo :=
  match resolveMessageDescriptor (mdpInputType method) fileDescriptor with
  | Err err => Err (ErrResolveInput (mdpInputType method) err)
  | Ok inputDescriptor =>
      match resolveMessageDescriptor (mdpOutputType method) fileDescriptor with
      | Err err => Err (ErrResolveOutput (mdpOutputType method) err)
      | Ok outputDescriptor =>
          Ok {| Name := mdpName method;
                FullName := serviceName +:+ "." +:+ mdpName method;
                Description := "";
                InputType := mdpInputType method;
                OutputType := mdpOutputType method;
                InputDescriptor := Some inputDescriptor;
                OutputDescriptor := Some outputDescriptor;
                IsClientStreaming := mdpClientStreaming method;
                IsServerStreaming := mdpServerStreaming method |}
      end
  end.

(** The loop over [service.Method]: a method whose descriptors do not
    resolve is logged and left out. *)
Fixpoint methodsLoop (fullServiceName : string)
    (methods : list MethodDescriptorProto) (fileDescriptor : FilePtr)
    (acc : list MethodInfo) : list MethodInfo :=
  match methods with
  | [] => acc
  | method :: rest =>
      match createMethodInfo fullServiceName method fileDescriptor with
      | Err _ => methodsLoop fullServiceName rest fileDescriptor acc
      | Ok methodInfo =>
          methodsLoop fullServiceName rest fileDescriptor (acc ++ [methodInfo])
      end
  end.

(** The loop of [extractServicesFromFileDescriptor] over
    [fileDescriptor.Service]. *)
Fixpoint servicesLoop (fileDescriptor : FilePtr)
    (targetServiceMap : gset string) (fileServices : list ServiceDescriptorProto)
    (services : list DiscoveredService) : list DiscoveredService :=
  match fileServices with
  | [] => services
  | service :: rest =>
      let packageName := fdpPackage (snd fileDescriptor) in
      let fullServiceName :=
        if decide (packageName = "") then sdpName service
        else packageName +:+ "." +:+ sdpName service in
      if decide (fullServiceName ∈ targetServiceMap) then
        let serviceInfo :=
          {| dsName := fullServiceName;
             dsMethods := methodsLoop fullServiceName (sdpMethod service)
                                      fileDescriptor [];
             dsFileDescriptor := Some (fst fileDescriptor) |} in
        servicesLoop fileDescriptor targetServiceMap rest
                     (services ++ [serviceInfo])
      else
        servicesLoop fileDescriptor targetServiceMap rest services
  end.

(** [extractServicesFromFileDescriptor]. *)
Definition extractServicesFromFileDescriptor (fileDescriptor : FilePtr)
    (targetServices : list string) : list DiscoveredService :=
  let targetServiceMap : gset string := list_to_set targetServices in
  servicesLoop fileDescriptor targetServiceMap
               (fdpService (snd fileDescriptor)) [].
End Resolver.

(** The full name of a service of a file: [package.Name], and [Name] alone
    for a file without a package. *)
Definition serviceFullName (fileDescriptor : FileDescriptorProto)
    (service : ServiceDescriptorProto) : string :=
  if decide (fdpPackage fileDescriptor = "") then sdpName service
  else fdpPackage fileDescriptor +:+ "." +:+ sdpName service.

(** *** The reflection stream *)

Inductive Request :=
| ListServices (arg : string)
| FileContainingSymbol (symbol : string).

Inductive Response :=
| ListServicesResponse (names : list string)
| FileDescriptorResponse (fileDescriptorProto : list (list Byte.byte))
| OtherResponse.

(** A call on the connection. *)
Inductive NetEvent :=
| NetOpen (ctx : Context)                (* [client.ServerReflectionInfo(ctx)] *)
| NetSend (req : Request)                (* [stream.Send] *)
| NetRecv                                (* [stream.Recv] *)
| NetCloseSend                           (* [stream.CloseSend] *)
| NetInvoke (ctx : Context) (grpcMethodName : string) (inputJSON : string)
                                         (* [conn.Invoke] *)
| NetClose.                              (* [conn.Close] *)

Record Net := {
  netClock : list NetEvent → Z;          (* the time, [time.Now()] *)
  netOpen : list NetEvent → Context → option error;
  netSend : list NetEvent → Request → option error;
  netRecv : list NetEvent → result error Response;
  netCloseSend : list NetEvent → option error;
  netInvoke : list NetEvent → Context → string → string → result error string;
  netClose : list NetEvent → option error;
  (* [proto.Unmarshal] into a file descriptor *)
  unmarshalFile : list Byte.byte → result error FileDescriptorProto;
  (* [protojson.Unmarshal] into a new message of a type: the message,
     here in its canonical JSON form *)
  unmarshalJSON : MessageDescriptor → string → result error string;
  (* [protojson.Marshal] of the reply, received as a message of a type *)
  marshalJSON : MessageDescriptor → string → result error string
}.

(** *** The client *)
Record reflectionClient := {
  conn : option ClientConn;              (* [None]: nil *)
  fdCache : gmap string FilePtr;
  nextFile : nat;                        (* the next fresh address *)
  net : list NetEvent                    (* the calls made so far *)
}.

(** [NewReflectionClient]. *)
Definition NewReflectionClient (c : ClientConn) : reflectionClient :=
  {| conn := Some c; fdCache := ∅; nextFile := 0; net := [] |}.

(** A method of the client: a state transformer with a result. *)
Definition R (A : Type) : Type := reflectionClient → A * reflectionClient.

#[global] Instance R_ret : MRet R := λ A a r, (a, r).
#[global] Instance R_bind : MBind R :=
  λ A B k m r, let '(a, r') := m r in k a r'.

(** A call on the network: recorded, and answered from the calls before
    it. *)
Definition netCall {A} (ev : NetEvent) (answer : list NetEvent → A) : R A :=
  λ r, (answer (net r),
        {| conn := conn r; fdCache := fdCache r; nextFile := nextFile r;
           net := net r ++ [ev] |}).

(** [r.fdCache[key] = fd]. *)
Definition cacheFile (key : string) (fd : FilePtr) : R unit :=
  λ r, (tt, {| conn := conn r; fdCache := <[key := fd]> (fdCache r);
               nextFile := nextFile r; net := net r |}).

(** [&fileDescriptor] of a new variable: a fresh address. *)
Definition newFile (fd : FileDescriptorProto) : R FilePtr :=
  λ r, ((nextFile r, fd),
        {| conn := conn r; fdCache := fdCache r; nextFile := S (nextFile r);
           net := net r |}).

Section Client.
Variable env : Net.
Variable pd : Protodesc.

(** [listServices]; the deferred [CloseSend] runs once the stream is
    open, and its error is only logged. *)
Definition listServices (ctx : Context) : R (result error (list string)) :=
  err ← netCall (NetOpen ctx) (λ h, netOpen env h ctx);
  match err with
  | Some err => mret (Err (ErrCreateStream err))
  | None =>
      res ← (let req := ListServices "" in
             sendErr ← netCall (NetSend req) (λ h, netSend env h req);
             match sendErr with
             | Some sendErr => mret (Err (ErrSendListServices sendErr))
             | None =>
                 resp ← netCall NetRecv (netRecv env);
                 match resp with
                 | Err err => mret (Err (ErrRecvListServices err))
                 | Ok (ListServicesResponse serviceNames) =>
                     mret (Ok serviceNames)
                 | Ok _ => mret (Err ErrInvalidResponse)
                 end
             end);
      netCall NetCloseSend (netCloseSend env) ;;
      mret res
  end.

(** [getFileDescriptorBySymbol]. *)
Definition getFileDescriptorBySymbol (ctx : Context) (symbol : string)
  : R (result error FilePtr) :=
  λ r,
    match fdCache r !! symbol with
    | Some fd => (Ok fd, r)
    | None =>
        (err ← netCall (NetOpen ctx) (λ h, netOpen env h ctx);
         match err with
         | Some err => mret (Err (ErrCreateStream err))
         | None =>
             res ← (let req := FileContainingSymbol symbol in
                    sendErr ← netCall (NetSend req) (λ h, netSend env h req);
                    match sendErr with
                    | Some sendErr =>
                        mret (Err (ErrSendFileContainingSymbol sendErr))
                    | None =>
                        resp ← netCall NetRecv (netRecv env);
                        match resp with
                        | Err err => mret (Err (ErrRecvFileContainingSymbol err))
                        | Ok (FileDescriptorResponse []) =>
                            mret (Err (ErrNoFileDescriptor symbol))
                        | Ok (FileDescriptorResponse (bytes :: _)) =>
                            match unmarshalFile env bytes with
                            | Err err =>
                                mret (Err (ErrUnmarshalFileDescriptor err))
                            | Ok fileDescriptor =>
                                fd ← newFile fileDescriptor;
                                cacheFile symbol fd ;;
                                (if decide (fdpName fileDescriptor = "")
                                 then mret tt
                                 else cacheFile (fdpName fileDescriptor) fd) ;;
                                mret (Ok fd)
                            end
                        | Ok _ => mret (Err ErrInvalidResponse)
                        end
                    end);
             netCall NetCloseSend (netCloseSend env) ;;
             mret res
         end) r
    end.

(** The first loop of [DiscoverServices]: one file descriptor per file
    name ([serviceToFileMap] is written and never read). *)
Fixpoint filesLoop (ctx : Context) (filteredServices : list string)
    (fileDescriptorMap : gmap string FilePtr) : R (gmap string FilePtr) :=
  match filteredServices with
  | [] => mret fileDescriptorMap
  | serviceName :: rest =>
      fileDescriptor ← getFileDescriptorBySymbol ctx serviceName;
      match fileDescriptor with
      | Err _ => filesLoop ctx rest fileDescriptorMap
      | Ok fileDescriptor =>
          let fileName :=
            if decide (fdpName (snd fileDescriptor) = "") then serviceName
            else fdpName (snd fileDescriptor) in
          let fileDescriptorMap :=
            match fileDescriptorMap !! fileName with
            | Some _ => fileDescriptorMap
            | None => <[fileName := fileDescriptor]> fileDescriptorMap
            end in
          filesLoop ctx rest fileDescriptorMap
      end
  end.

(** The loop over the services of one file: a service is added the first
    time its name is seen. *)
Fixpoint collectLoop (fileServices : list DiscoveredService)
    (services : list DiscoveredService) (processedServices : gset string)
  : list DiscoveredService * gset string :=
  match fileServices with
  | [] => (services, processedServices)
  | serviceInfo :: rest =>
      if decide (dsName serviceInfo ∈ processedServices) then
        collectLoop rest services processedServices
      else
        collectLoop rest (services ++ [serviceInfo])
                    (processedServices ∪ {[dsName serviceInfo]})
  end.

(** The second loop of [DiscoverServices], over the entries of
    [fileDescriptorMap] in the order the [range] visits them. *)
Fixpoint processLoop (files : list (string * FilePtr))
    (filteredServices : list string)
    (services : list DiscoveredService) (processedServices : gset string)
  : list DiscoveredService :=
  match files with
  | [] => services
  | (fileName, fileDescriptor) :: rest =>
      let fileServices :=
        extractServicesFromFileDescriptor pd fileDescriptor filteredServices in
      let '(services, processedServices) :=
        collectLoop fileServices services processedServices in
      processLoop rest filteredServices services processedServices
  end.

(** What the loops of [DiscoverServices] keep: the names collected so far
    are distinct, they are the processed names, and each is a target. *)
Definition collected (targets : list string)
    (services : list DiscoveredService) (processed : gset string) : Prop :=
  NoDup (dsName <$> services)
  ∧ (∀ name, name ∈ dsName <$> services ↔ name ∈ processed)
  ∧ Forall (λ s, dsName s ∈ targets) services.

(** The order in which a [range] visits a map of file descriptors. *)
Variable rangeOver : gmap string FilePtr → list (string * FilePtr).

(** [DiscoverServices]. *)
Definition DiscoverServices (ctx : Context)
  : R (result error (list DiscoveredService)) :=
  serviceNames ← listServices ctx;
  match serviceNames with
  | Err err => mret (Err (ErrListServices err))
  | Ok serviceNames =>
      let filteredServices := filterInternalServices serviceNames in
      fileDescriptorMap ← filesLoop ctx filteredServices ∅;
      mret (Ok (processLoop (rangeOver fileDescriptorMap) filteredServices
                            [] ∅))
  end.

(** [InvokeMethod].  The descriptors of [method] are used before anything
    else (a nil descriptor panics there); the slicing of [FullName] panics
    when it holds no dot. *)
Definition InvokeMethod (ctx : Context) (method : MethodInfo)
    (inputJSON : string) : R (outcome (result error string)) :=
  match InputDescriptor method, OutputDescriptor method with
  | Some inputDescriptor, Some outputDescriptor =>
      let inputMsg : result error string :=
        if bool_decide (inputJSON ≠ "") && bool_decide (inputJSON ≠ "{}")
        then unmarshalJSON env inputDescriptor inputJSON
        else Ok "{}" in
      match inputMsg with
      | Err err => mret (Returns (Err (ErrParseInput err)))
      | Ok inputMsg =>
          match slicePrefix (FullName method)
                            (LastIndex (FullName method) ".") with
          | None => mret Panics
          | Some service =>
              let grpcMethodName := "/" +:+ service +:+ "/" +:+ Name method in
              reply ← netCall (NetInvoke ctx grpcMethodName inputMsg)
                               (λ h, netInvoke env h ctx grpcMethodName inputMsg);
              match reply with
              | Err err => mret (Returns (Err (ErrCallFailed err)))
              | Ok outputMsg =>
                  match marshalJSON env outputDescriptor outputMsg with
                  | Err err => mret (Returns (Err (ErrMarshalOutput err)))
                  | Ok outputJSON => mret (Returns (Ok outputJSON))
                  end
              end
          end
      end
  | _, _ => mret Panics
  end.

(** [Close]. *)
Definition Close : R (option error) :=
  λ r, match conn r with
       | Some _ => netCall NetClose (netClose env) r
       | None => (None, r)
       end.

(** [HealthCheck]: listing the services, within five seconds. *)
Definition HealthCheck (ctx : Context) : R (option error) :=
  λ r,
    let ctx := WithTimeout (netClock env (net r)) ctx (5 * Second) in
    (res ← listServices ctx;
     match res with
     | Err err => mret (Some (ErrHealthCheck err))
     | Ok _ => mret None
     end) r.
End Client.

End Reflection.

(** ** Concrete files, runtimes and networks used by the examples below. *)
Module Fixtures.
Import Protoreflect GrpcTypes Grpc Reflection.

(** [rpc SayHello(HelloRequest) returns (HelloReply)] of
    [hello.HelloService]. *)
Definition sayHelloProto : MethodDescriptorProto :=
  {| mdpName := "SayHello";
     mdpInputType := ".hello.HelloRequest";
     mdpOutputType := ".hello.HelloReply";
     mdpClientStreaming := false;
     mdpServerStreaming := false |}.

Definition helloFile : FileDescriptorProto :=
  {| fdpName := "hello.proto"; fdpPackage := "hello";
     fdpService := [ {| sdpName := "HelloService";
                        sdpMethod := [sayHelloProto] |} ] |}.

(** A runtime in which every file can be built and registered, and holds
    every message that is asked for. *)
Definition helloRuntime : Protodesc :=
  {| NewFile := λ _, Ok 0;
     RegisterFile := λ _, None;
     FindInFile := λ _ name, Some (MessageDesc name);
     FindGlobal := λ name, Err (ErrLibrary "not found") |}.

(** What [createMethodInfo] makes of [sayHelloProto]. *)
Definition sayHello : MethodInfo :=
  {| Name := "SayHello"; FullName := "hello.HelloService.SayHello";
     Description := "";
     InputType := ".hello.HelloRequest"; OutputType := ".hello.HelloReply";
     InputDescriptor := Some "hello.HelloRequest";
     OutputDescriptor := Some "hello.HelloReply";
     IsClientStreaming := false; IsServerStreaming := false |}.

(** A network on which every call succeeds and every reply is empty. *)
Definition quietNet : Net :=
  {| netClock := λ _, 0%Z;
     netOpen := λ _ _, None;
     netSend := λ _ _, None;
     netRecv := λ _, Ok (ListServicesResponse []);
     netCloseSend := λ _, None;
     netInvoke := λ _ _ _ _, Ok "{}";
     netClose := λ _, None;
     unmarshalFile := λ _, Ok helloFile;
     unmarshalJSON := λ _ inputJSON, Ok inputJSON;
     marshalJSON := λ _ outputMsg, Ok outputMsg |}.

(** A server that lists the reflection service and [hello.HelloService],
    and answers every other request with one file, which unmarshals to
    [helloFile]. *)
Definition helloNet : Net :=
  {| netClock := λ _, 0%Z;
     netOpen := λ _ _, None;
     netSend := λ _ _, None;
     netRecv := λ h,
       match last h with
       | Some (NetSend (ListServices _)) =>
           Ok (ListServicesResponse
                 ["grpc.reflection.v1alpha.ServerReflection";
                  "hello.HelloService"])
       | _ => Ok (FileDescriptorResponse [[]])
       end;
     netCloseSend := λ _, None;
     netInvoke := λ _ _ _ _, Ok "{}";
     netClose := λ _, None;
     unmarshalFile := λ _, Ok helloFile;
     unmarshalJSON := λ _ inputJSON, Ok inputJSON;
     marshalJSON := λ _ outputMsg, Ok outputMsg |}.

End Fixtures.

(** ** Package [grpc]: the connection manager.

    The gRPC library ([grpc.DialContext] and the methods of
    [*grpc.ClientConn]) is a collaborator: every call on it is recorded in a
    trace and answered by the environment from the calls made so far.  The
    mutex of the manager is not modelled: calls do not overlap. *)
Module ConnManager.
Import Grpc.

(** [connectivity.State]; [Idle] is its zero value. *)
Inductive State := Idle | Connecting | Ready | TransientFailure | Shutdown.

#[global] Instance State_eq_dec : EqDecision State.
Proof. solve_decision. Defined.

Record KeepAliveConfig := {
  Time : Z;
  Timeout : Z;
  PermitWithoutStream : bool
}.

Record ConnectionManagerConfig := {
  Host : string;
  Port : Z;
  ConnectTimeout : Z;
  KeepAlive : KeepAliveConfig;
  MaxMessageSize : Z
}.

Inductive error :=
| ErrLibrary (msg : string)          (* an error made by the gRPC library *)
| ErrConnect (cause : error)         (* "failed to connect to gRPC server: %w" *)
| ErrHealthCheck (cause : error)     (* "health check failed: %w" *)
| ErrNoConnection                    (* "no connection available" *)
| ErrUnhealthyState (state : State)  (* "connection is in unhealthy state: %v" *)
| ErrNoStateChange
    (* "connection state did not change within timeout" *)
| ErrNotReady.                       (* "connection failed to become ready" *)

(** The dial options that [Connect] passes, besides the insecure transport
    credentials: the keep-alive parameters and the two message size
    limits. *)
Record DialOptions := {
  keepaliveParams : KeepAliveConfig;
  maxCallRecvMsgSize : Z;
  maxCallSendMsgSize : Z
}.

(** A call on the library. *)
Inductive LibEvent :=
| LibDial (ctx : Context) (target : string) (opts : DialOptions)
| LibClose (c : ClientConn)
| LibGetState (c : ClientConn)
| LibWaitForStateChange (c : ClientConn) (ctx : Context) (state : State).

Record Lib := {
  libClock : list LibEvent → Z;        (* the time, [time.Now()] *)
  libDial :
    list LibEvent → Context → string → DialOptions → result error ClientConn;
  libClose : list LibEvent → ClientConn → option error;
  libGetState : list LibEvent → ClientConn → State;
  libWaitForStateChange :
    list LibEvent → ClientConn → Context → State → bool
}.

Record connectionManager := {
  config : ConnectionManagerConfig;
  conn : option ClientConn;            (* [None]: nil *)
  calls : list LibEvent                (* the calls made so far *)
}.

(** [NewConnectionManager]. *)
Definition NewConnectionManager (config : ConnectionManagerConfig)
  : connectionManager :=
  {| config := config; conn := None; calls := [] |}.

(** A method of the manager: a state transformer with a result. *)
Definition C (A : Type) : Type := connectionManager → A * connectionManager.

#[global] Instance C_ret : MRet C := λ A a cm, (a, cm).
#[global] Instance C_bind : MBind C :=
  λ A B k m cm, let '(a, cm') := m cm in k a cm'.

(** [cm], the receiver. *)
Definition self : C connectionManager := λ cm, (cm, cm).

(** [cm.conn = c]. *)
Definition setConn (c : option ClientConn) : C unit :=
  λ cm, (tt, {| config := config cm; conn := c; calls := calls cm |}).

(** A call on the library: recorded, and answered from the calls before
    it. *)
Definition libCall {A} (ev : LibEvent) (answer : list LibEvent → A) : C A :=
  λ cm, (answer (calls cm),
         {| config := config cm; conn := conn cm;
            calls := calls cm ++ [ev] |}).

Section Manager.
Variable lib : Lib.

(** [time.Now()], as [context.WithTimeout] reads it. *)
Definition clock : C Z := λ cm, (libClock lib (calls cm), cm).

(** [healthCheckLocked]. *)
Definition healthCheckLocked (ctx : Context) : C (option error) :=
  cm ← self;
  match conn cm with
  | None => mret (Some ErrNoConnection)
  | Some c =>
      state ← libCall (LibGetState c) (λ h, libGetState lib h c);
      if bool_decide (state = TransientFailure ∨ state = Shutdown) then
        mret (Some (ErrUnhealthyState state))
      else if bool_decide (state ≠ Ready) then
        now ← clock;
        let healthCtx := WithTimeout now ctx (5 * Second) in
        changed ← libCall (LibWaitForStateChange c healthCtx state)
                          (λ h, libWaitForStateChange lib h c healthCtx state);
        if negb changed then mret (Some ErrNoStateChange)
        else
          state ← libCall (LibGetState c) (λ h, libGetState lib h c);
          if bool_decide (state ≠ Ready) then mret (Some ErrNotReady)
          else mret None
      else mret None
  end.

(** [Connect]. *)
Definition Connect (ctx : Context) : C (option error) :=
  cm ← self;
  match conn cm with
   | Some old => libCall (LibClose old) (λ h, libClose lib h old) ;; mret tt
   | None => mret tt
   end ;;
  let target := Host (config cm) +:+ ":" +:+ pretty (Port (config cm)) in
  let opts :=
    {| keepaliveParams := KeepAlive (config cm);
       maxCallRecvMsgSize := MaxMessageSize (config cm);
       maxCallSendMsgSize := MaxMessageSize (config cm) |} in
  now ← clock;
  let connectCtx := WithTimeout now ctx (ConnectTimeout (config cm)) in
  dialled ← libCall (LibDial connectCtx target opts)
                    (λ h, libDial lib h connectCtx target opts);
  match dialled with
  | Err err => mret (Some (ErrConnect err))
  | Ok c =>
      setConn (Some c) ;;
      err ← healthCheckLocked ctx;
      match err with
      | Some err =>
          libCall (LibClose c) (λ h, libClose lib h c) ;;
          setConn None ;;
          mret (Some (ErrHealthCheck err))
      | None => mret None
      end
  end.

(** [GetConnection]. *)
Definition GetConnection : C (option ClientConn) :=
  cm ← self; mret (conn cm).

(** [IsConnected]. *)
Definition IsConnected : C bool :=
  cm ← self;
  match conn cm with
  | None => mret false
  | Some c =>
      state ← libCall (LibGetState c) (λ h, libGetState lib h c);
      mret (bool_decide (state = Ready ∨ state = Idle))
  end.

(** [Reconnect]. *)
Definition Reconnect (ctx : Context) : C (option error) := Connect ctx.

(** [HealthCheck]. *)
Definition HealthCheck (ctx : Context) : C (option error) :=
  healthCheckLocked ctx.

(** [Close]. *)
Definition Close : C (option error) :=
  cm ← self;
  match conn cm with
  | Some c =>
      err ← libCall (LibClose c) (λ h, libClose lib h c);
      setConn None ;;
      mret err
  | None => mret None
  end.

(** [ConnectionStats]; [ConnectedTime] is never set. *)
Record ConnectionStats := {
  statsIsConnected : bool;
  statsState : State;
  statsTarget : string
}.

(** [GetStats]. *)
Definition GetStats : C ConnectionStats :=
  cm ← self;
  let target := Host (config cm) +:+ ":" +:+ pretty (Port (config cm)) in
  match conn cm with
  | Some c =>
      isConnected ← IsConnected;
      state ← libCall (LibGetState c) (λ h, libGetState lib h c);
      mret {| statsIsConnected := isConnected; statsState := state;
              statsTarget := target |}
  | None =>
      mret {| statsIsConnected := false; statsState := Idle;
              statsTarget := target |}
  end.
End Manager.

(** The states in which the library answered that a connection is: the
    answers to the [GetState] calls of a run, newest last, given the calls
    [before] the run. *)
Fixpoint observed (lib : Lib) (before run : list LibEvent) : list State :=
  match run with
  | [] => []
  | ev :: rest =>
      match ev with
      | LibGetState c => [libGetState lib before c]
      | _ => []
      end ++ observed lib (before ++ [ev]) rest
  end.

(** The connections that the library made in a run: the answers to its
    [DialContext] calls that were not errors. *)
Fixpoint connections (lib : Lib) (before run : list LibEvent)
  : list ClientConn :=
  match run with
  | [] => []
  | ev :: rest =>
      match ev with
      | LibDial ctx target opts =>
          match libDial lib before ctx target opts with
          | Ok c => [c]
          | Err _ => []
          end
      | _ => []
      end ++ connections lib (before ++ [ev]) rest
  end.

(** The connections that a run of calls closed. *)
Definition closed (run : list LibEvent) : list ClientConn :=
  omap (λ ev, match ev with LibClose c => Some c | _ => None end) run.

(** The contexts under which a run of calls dialled. *)
Definition dialled (run : list LibEvent) : list Context :=
  omap (λ ev, match ev with LibDial ctx _ _ => Some ctx | _ => None end) run.

End ConnManager.

(** ** Concrete managers and libraries used by the examples below. *)
Module ManagerFixtures.
Import Grpc ConnManager.

(** The configuration that [NewServiceDiscoverer] gives the manager, for
    "localhost:50051". *)
Definition localhost : ConnectionManagerConfig :=
  {| Host := "localhost"; Port := 50051; ConnectTimeout := 5 * Second;
     KeepAlive := {| Time := 10 * Second; Timeout := 5 * Second;
                     PermitWithoutStream := true |};
     MaxMessageSize := 4 * 1024 * 1024 |}.

(** A library that dials connection 7, which is [Ready] at once. *)
Definition readyLib : Lib :=
  {| libClock := λ _, 0%Z;
     libDial := λ _ _ _ _, Ok 7;
     libClose := λ _ _, None;
     libGetState := λ _ _, Ready;
     libWaitForStateChange := λ _ _ _ _, true |}.

(** A library that cannot dial. *)
Definition deadLib : Lib :=
  {| libClock := λ _, 0%Z;
     libDial := λ _ _ _ _, Err (ErrLibrary "context deadline exceeded");
     libClose := λ _ _, None;
     libGetState := λ _ _, Shutdown;
     libWaitForStateChange := λ _ _ _ _, false |}.

(** A manager that holds connection 3. *)
Definition holding : connectionManager :=
  {| config := localhost; conn := Some 3; calls := [] |}.

End ManagerFixtures.

(** ** Views of the discoverer's catalog used by the statements below. *)
Module CatalogViews.
Import GrpcTypes Grpc.

(** Every [Methods] slice of the catalog lies in an array that the store
    has handed out. *)
Definition allocated (d : serviceDiscoverer) (st : Store) : Prop :=
  ∀ name service a n,
    services d !! name = Some service →
    Methods service = MkSlice a n →
    a < nextArray st.

(** The catalog that storing the services [l] one after the other
    makes of [m]: a later service replaces an earlier one of the same
    name. *)
Definition stored (m : gmap string (list MethodInfo))
    (l : list (string * list MethodInfo)) : gmap string (list MethodInfo) :=
  foldl (λ m s, <[fst s := snd s]> m) m l.

(** A service that the reflection client discovered, by name and
    methods. *)
Definition byName (service : DiscoveredService) : string * list MethodInfo :=
  (dsName service, dsMethods service).

(** A service that the descriptor loader extracted, by name and
    methods. *)
Definition byNameEnhanced (service : EnhancedServiceInfo)
  : string * list MethodInfo :=
  (esName service, toMethodInfo <$> esMethods service).

(** The first method of a list that bears a name, as [GetMethod] returns
    it. *)
Definition firstNamed (methods : list MethodInfo) (methodName : string)
  : MethodInfo * bool :=
  match filter (λ method, Name method = methodName) methods with
  | method :: _ => (method, true)
  | [] => (noMethod, false)
  end.

(** A step that leaves the configuration of the discoverer as it is. *)
Definition configured {A} (m : M A) : Prop :=
  ∀ σ,
    descriptorConfig (fst (snd (m σ))) = descriptorConfig (fst σ)
    ∧ reconnectInterval (fst (snd (m σ))) = reconnectInterval (fst σ)
    ∧ maxReconnectAttempts (fst (snd (m σ))) = maxReconnectAttempts (fst σ).

(** The waits that a loop of [Reconnect] with [remaining] iterations left
    can make: one before every iteration but the one with counter 0. *)
Definition waits (remaining : nat) (i : Z) : Z :=
  if (0 <? i)%Z then Z.of_nat remaining else Z.of_nat (remaining - 1).

End CatalogViews.

(** ** More concrete environments. *)
Module LoaderFixtures.
Import GrpcTypes Grpc.

(** [rpc SayHello] of [hello.HelloService], with the comment of the
    descriptor set. *)
Definition sayHello : EnhancedMethodInfo :=
  {| emName := "SayHello"; emFullName := "hello.HelloService.SayHello";
     emDescription := "Sends a greeting";
     emInputType := "hello.HelloRequest"; emOutputType := "hello.HelloReply";
     emInputDescriptor := Some "hello.HelloRequest";
     emOutputDescriptor := Some "hello.HelloReply";
     emIsClientStreaming := false; emIsServerStreaming := false |}.

(** An environment whose descriptor set loads and holds
    [hello.HelloService]; reflection finds nothing. *)
Definition withDescriptorSet : Env :=
  {| managerConnect := λ _ _, None;
     managerReconnect := λ _ _, None;
     managerGetConnection := λ _, Some 7;
     managerIsConnected := λ _, true;
     managerHealthCheck := λ _ _, None;
     managerClose := λ _, None;
     clientDiscoverServices := λ _ _ _, Ok [];
     clientInvokeMethod := λ _ _ _ _ _, Ok "{}";
     clientHealthCheck := λ _ _ _, None;
     clientClose := λ _ _, None;
     loaderLoadFromFile := λ _ _, Ok 1;
     loaderBuildRegistry := λ _, Ok 2;
     loaderExtractServiceInfo := λ _,
       Ok [ {| esName := "hello.HelloService"; esMethods := [sayHello] |} ] |}.

(** A connected discoverer that is configured with a descriptor set. *)
Definition configuredWithSet : serviceDiscoverer * World :=
  ({| reflectionClient := Some (NewReflectionClient 7);
      services := ∅;
      descriptorConfig := {| Enabled := true; Path := "hello.binpb" |};
      reconnectInterval := 5 * Second;
      maxReconnectAttempts := 5 |},
   Samples.world0).

(** A connected discoverer without a descriptor set. *)
Definition connected : serviceDiscoverer * World :=
  perform (Samples.succeeding [Samples.method "DoThing" false false])
    (OpConnect Background) (NewServiceDiscoverer Samples.noConfig, Samples.world0).

End LoaderFixtures.

(** ** Package [mcp]: the tool record that the builder fills. *)
Module Mcp.

(** [mcp.Tool]; a schema is an [interface{}]: the address of a map, or nil
    ([None]). *)
Record Tool := {
  Name : string;
  Description : string;
  InputSchema : option nat;
  OutputSchema : option nat
}.

End Mcp.

(** ** Package [tools]: building the tools. *)
Module ToolBuilder.
Import GoStrings GoSubstrings Protoreflect GrpcTypes Tools Panics.

Inductive validationError :=
| ErrEmptyName          (* "tool name cannot be empty" *)
| ErrEmptyDescription   (* "tool description cannot be empty" *)
| ErrNilInputSchema     (* "tool input schema cannot be nil" *)
| ErrNoUnderscore.      (* "tool name must contain underscore separator" *)

Inductive error :=
| ErrInputSchema (cause : Tools.error)
    (* "failed to generate input schema: %w" *)
| ErrOutputSchema (cause : Tools.error)
    (* "failed to generate output schema: %w" *)
| ErrValidation (cause : validationError).
    (* "tool validation failed: %w" *)

(** [generateDescription]. *)
Definition generateDescription (serviceName : string) (method : MethodInfo)
  : string :=
  if decide (Description method = "") then
    "Calls the " +:+ Name method +:+ " method of the "
      +:+ serviceName +:+ " service"
  else Description method.

(** [validateTool]. *)
Definition validateTool (tool : Mcp.Tool) : option validationError :=
  if decide (Mcp.Name tool = "") then Some ErrEmptyName
  else if decide (Mcp.Description tool = "") then Some ErrEmptyDescription
  else if decide (Mcp.InputSchema tool = None) then Some ErrNilInputSchema
  else if negb (Contains (Mcp.Name tool) "_") then Some ErrNoUnderscore
  else None.

(** [ClearCache]. *)
Definition ClearCache (b : Builder) : Builder :=
  {| objects := objects b; nextObject := nextObject b; schemaCache := ∅;
     maxRecursionDepth := maxRecursionDepth b;
     includeComments := includeComments b |}.

(** [GetCacheSize]. *)
Definition GetCacheSize (b : Builder) : nat := size (schemaCache b).

(** [SetMaxRecursionDepth]. *)
Definition SetMaxRecursionDepth (b : Builder) (depth : Z) : Builder :=
  {| objects := objects b; nextObject := nextObject b;
     schemaCache := schemaCache b;
     maxRecursionDepth := depth;
     includeComments := includeComments b |}.

(** [SetIncludeComments]. *)
Definition SetIncludeComments (b : Builder) (include : bool) : Builder :=
  {| objects := objects b; nextObject := nextObject b;
     schemaCache := schemaCache b;
     maxRecursionDepth := maxRecursionDepth b;
     includeComments := include |}.

(** [GetStats]: "cache_size", "max_recursion_depth", "include_comments". *)
Definition GetStats (b : Builder) : nat * Z * bool :=
  (GetCacheSize b, maxRecursionDepth b, includeComments b).

Section Build.
Variable reg : gmap string MessageBody.
Variable TrimSpace : string → string.
Variable unicodeToLower : string → string.

(** [BuildTool].  The debug log that precedes each schema evaluates
    [FullName()] of the descriptor, which panics on a nil descriptor;
    [None] when the fuel of the model ran out. *)
Definition BuildTool (serviceName : string) (method : MethodInfo)
    (b : Builder) : option (outcome (result error Mcp.Tool) * Builder) :=
  let toolName :=
    Tools.generateToolName unicodeToLower serviceName (Name method) in
  let description := generateDescription serviceName method in
  match InputDescriptor method with
  | None => Some (Panics, b)
  | Some inputDescriptor =>
      match generateMessageSchema reg TrimSpace (enoughFuel reg)
                                  (Some inputDescriptor) ∅ b with
      | None => None
      | Some (Err err, _, b) => Some (Returns (Err (ErrInputSchema err)), b)
      | Some (Ok inputSchema, _, b) =>
          match OutputDescriptor method with
          | None => Some (Panics, b)
          | Some outputDescriptor =>
              match generateMessageSchema reg TrimSpace (enoughFuel reg)
                                          (Some outputDescriptor) ∅ b with
              | None => None
              | Some (Err err, _, b) =>
                  Some (Returns (Err (ErrOutputSchema err)), b)
              | Some (Ok outputSchema, _, b) =>
                  let tool :=
                    {| Mcp.Name := toolName;
                       Mcp.Description := description;
                       Mcp.InputSchema := Some inputSchema;
                       Mcp.OutputSchema := Some outputSchema |} in
                  match validateTool tool with
                  | Some err => Some (Returns (Err (ErrValidation err)), b)
                  | None => Some (Returns (Ok tool), b)
                  end
              end
          end
      end
  end.

(** The inner loop of [BuildTools], over [service.Methods]: streaming
    methods are skipped, a method whose tool cannot be built is logged and
    skipped. *)
Fixpoint methodsLoop (serviceName : string) (methods : list MethodInfo)
    (tools : list Mcp.Tool) (b : Builder)
  : option (outcome (list Mcp.Tool) * Builder) :=
  match methods with
  | [] => Some (Returns tools, b)
  | method :: rest =>
      if IsClientStreaming method || IsServerStreaming method then
        methodsLoop serviceName rest tools b
      else
        match BuildTool serviceName method b with
        | None => None
        | Some (Panics, b) => Some (Panics, b)
        | Some (Returns (Err _), b) => methodsLoop serviceName rest tools b
        | Some (Returns (Ok tool), b) =>
            methodsLoop serviceName rest (tools ++ [tool]) b
        end
  end.

(** The outer loop, over the entries of [services] in the order the
    [range] visits them. *)
Fixpoint servicesLoop (st : Store) (services : list (string * ServiceInfo))
    (tools : list Mcp.Tool) (b : Builder)
  : option (outcome (list Mcp.Tool) * Builder) :=
  match services with
  | [] => Some (Returns tools, b)
  | (serviceName, service) :: rest =>
      match methodsLoop serviceName (elems st (Methods service)) tools b with
      | None => None
      | Some (Panics, b) => Some (Panics, b)
      | Some (Returns tools, b) => servicesLoop st rest tools b
      end
  end.

(** [BuildTools]: its error is always nil. *)
Definition BuildTools (st : Store) (services : list (string * ServiceInfo))
    (b : Builder) : option (outcome (result error (list Mcp.Tool)) * Builder) :=
  match servicesLoop st services [] b with
  | None => None
  | Some (Panics, b) => Some (Panics, b)
  | Some (Returns tools, b) => Some (Returns (Ok tools), b)
  end.
End Build.

(** *** Observations on the builder *)

(** A method that is not streaming. *)
Definition unary (method : MethodInfo) : Prop :=
  IsClientStreaming method || IsServerStreaming method = false.

#[global] Instance unary_dec method : Decision (unary method).
Proof. unfold unary. apply _. Defined.

(** The tool names of the unary methods of a catalog, in the order of the
    services and of their methods. *)
Definition toolNames (lower : string → string) (st : Store)
    (services : list (string * ServiceInfo)) : list string :=
  services ≫= λ '(serviceName, service),
    (λ method, Tools.generateToolName lower serviceName (Name method))
      <$> filter unary (elems st (Methods service)).

(** The same for the methods of one service. *)
Definition unaryNames (lower : string → string) (serviceName : string)
    (methods : list MethodInfo) : list string :=
  (λ method, Tools.generateToolName lower serviceName (Name method))
    <$> filter unary methods.

(** From the visited map and the builder before a call to those after it:
    the visited map has grown, what the cache held it still holds, and
    what the cache holds in addition was marked during the call. *)
Definition extends (s s' : gset string * Builder) : Prop :=
  fst s ⊆ fst s'
  ∧ (∀ name o, schemaCache (snd s) !! name = Some o →
               schemaCache (snd s') !! name = Some o)
  ∧ (∀ name, schemaCache (snd s) !! name = None →
             is_Some (schemaCache (snd s') !! name) →
             name ∈ fst s' ∧ name ∉ fst s).

(** A generator of message schemas whose calls extend the state. *)
Definition extending
    (generateMessage : option string → gset string → Builder → Outcome nat)
  : Prop :=
  ∀ desc visited b r visited' b',
    generateMessage desc visited b = Some (r, visited', b') →
    extends (visited, b) (visited', b').

(** A field that the builder has a schema for: not of group kind, and
    neither are the key and the value of a map field. *)
Fixpoint supported (field : FieldDescriptor) : bool :=
  negb (bool_decide (fdKind field = GroupKind))
  && match fdMapKV field with
     | Some (k, v) => supported k && supported v
     | None => true
     end.

(** A message all of whose fields, those of its oneofs included, are
    supported. *)
Definition supportedBody (body : MessageBody) : bool :=
  forallb supported (mFields body)
  && forallb (λ oneof, forallb supported (ooFields oneof)) (mOneofs body).

(** A registry without fields of group kind. *)
Definition supportedRegistry (reg : gmap string MessageBody) : Prop :=
  map_Forall (λ _ body, supportedBody body = true) reg.

#[global] Instance supportedRegistry_dec reg : Decision (supportedRegistry reg).
Proof. unfold supportedRegistry. apply _. Defined.

(** What a call of [BuildTool] comes to: a panic on a nil descriptor, an
    error of one of the two schema generations, or a tool with the
    generated name and description and both schemas. *)
Definition built (reg : gmap string MessageBody) (lower : string → string)
    (serviceName : string) (method : MethodInfo)
    (out : outcome (result error Mcp.Tool)) : Prop :=
  match out with
  | Panics => InputDescriptor method = None ∨ OutputDescriptor method = None
  | Returns (Err err) =>
      (∃ cause, err = ErrInputSchema cause ∨ err = ErrOutputSchema cause)
      ∧ ¬ supportedRegistry reg
  | Returns (Ok tool) =>
      Mcp.Name tool = Tools.generateToolName lower serviceName (Name method)
      ∧ Mcp.Description tool = generateDescription serviceName method
      ∧ is_Some (Mcp.InputSchema tool)
      ∧ is_Some (Mcp.OutputSchema tool)
      ∧ is_Some (InputDescriptor method)
      ∧ is_Some (OutputDescriptor method)
  end.

(** A unary method of the catalog one of whose descriptors is nil. *)
Definition incomplete (st : Store) (services : list (string * ServiceInfo))
  : Prop :=
  ∃ serviceName service method,
    (serviceName, service) ∈ services
    ∧ method ∈ elems st (Methods service)
    ∧ unary method
    ∧ (InputDescriptor method = None ∨ OutputDescriptor method = None).

(** A generator of message schemas that does not fail on a descriptor
    that is not nil. *)
Definition succeeding
    (generateMessage : option string → gset string → Builder → Outcome nat)
  : Prop :=
  ∀ desc visited b err visited' b',
    generateMessage (Some desc) visited b ≠ Some (Err err, visited', b').

(** The builder [b] with the two configuration fields set. *)
Definition withConfig (depth : Z) (include : bool) (b : Builder) : Builder :=
  SetIncludeComments (SetMaxRecursionDepth b depth) include.

(** The outcome of a generator, with the configuration of the builder
    set. *)
Definition configuredOutcome {A} (depth : Z) (include : bool)
    (o : Outcome A) : Outcome A :=
  (λ '(r, visited, b), (r, visited, withConfig depth include b)) <$> o.

(** A generator of message schemas that does not read the
    configuration. *)
Definition oblivious (depth : Z) (include : bool)
    (generateMessage : option string → gset string → Builder → Outcome nat)
  : Prop :=
  ∀ desc visited b,
    generateMessage desc visited (withConfig depth include b)
    = configuredOutcome depth include (generateMessage desc visited b).

End ToolBuilder.

(** ** Message types for the methods of [Samples]. *)
Module BuilderFixtures.
Import Protoreflect GrpcTypes.

(** [message Req { string id = 1; }  message Resp { Req echo = 1; }]. *)
Definition widgetTypes : gmap string MessageBody :=
  <["pkg.sub.Req" := Samples.message [scalarField "id" StringKind]]>
  (<["pkg.sub.Resp" := Samples.message [messageField "echo" "pkg.sub.Req"]]> ∅).

(** The methods of the widget service: one unary, one streaming. *)
Definition widgetMethods : list MethodInfo :=
  [Samples.method "DoThing" false false; Samples.method "Watch" false true].

End BuilderFixtures.

(** ** Package [descriptors]: the tool schema of a method. *)
Module EnhancedSchema.
Import GoStrings Protoreflect Json Descriptors Grpc Panics.

Inductive error :=
| ErrInputSchema (cause : Descriptors.error).
    (* "failed to extract input schema: %w" *)

Section Extractor.
Variable reg : gmap string MessageBody.
Variable unicodeToLower : string → string.

(** The description of the tool: that of the method, or a generic one. *)
Definition toolDescription (serviceName : string)
    (method : EnhancedMethodInfo) : string :=
  if decide (emDescription method = "") then
    "Calls " +:+ serviceName +:+ "." +:+ emName method +:+ " gRPC method"
  else emDescription method.

(** [ExtractEnhancedToolSchema].  [ExtractMessageSchema] evaluates
    [FullName()] of the descriptor, which panics on a nil descriptor; a key
    that a Go map does not hold reads as nil ([JNull]). *)
Definition ExtractEnhancedToolSchema (serviceName : string)
    (method : EnhancedMethodInfo) : option (outcome (result error JSON)) :=
  match emInputDescriptor method with
  | None => Some Panics
  | Some inputDescriptor =>
      match ExtractMessageSchema reg inputDescriptor with
      | None => None
      | Some (Err err) => Some (Returns (Err (ErrInputSchema err)))
      | Some (Ok inputSchema) =>
          let input : gmap string JSON :=
            <["properties" := default JNull (member "properties" inputSchema)]>
              (<["type" := JStr "object"]> ∅) in
          let toolSchema : gmap string JSON :=
            <["inputSchema" := JObj input]>
              (<["name" := JStr (Descriptors.generateToolName unicodeToLower
                                   serviceName (emName method))]> ∅) in
          let toolSchema :=
            <["description" := JStr (toolDescription serviceName method)]>
              toolSchema in
          let toolSchema :=
            match member "required" inputSchema with
            | Some required =>
                <["inputSchema" := JObj (<["required" := required]> input)]>
                  toolSchema
            | None => toolSchema
            end in
          Some (Returns (Ok (JObj toolSchema)))
      end
  end.
End Extractor.

End EnhancedSchema.

(** ** Observations on the schemas of the extractor. *)
Module ExtractorViews.
Import Protoreflect Json Descriptors.

(** The schema of a message that was not marked: an object with the
    comment of the message as its description and with properties, among
    them one for each field that is not of group kind and none for a field
    of group kind (field names are unique in a message, and no oneof bears
    the name of a field). *)
Definition compiled (reg : gmap string MessageBody)
    (msgDesc : MessageDescriptor) (schema : JSON) : Prop :=
  member "type" schema = Some (JStr "object")
  ∧ member "description" schema
    = (if decide (Comments reg msgDesc = "") then None
       else Some (JStr (Comments reg msgDesc)))
  ∧ ∃ properties,
      member "properties" schema = Some (JObj properties)
      ∧ (NoDup (fdName <$> Fields reg msgDesc) →
         ∀ field,
           field ∈ Fields reg msgDesc →
           fdName field ∉ ooName <$> Oneofs reg msgDesc →
           is_Some (properties !! fdName field)
           ↔ fdKind (typeField field) ≠ GroupKind).

End ExtractorViews.

(** ** A message with a field of group kind. *)
Module ExtractorFixtures.
Import Protoreflect.

(** [message Legacy { string id = 1; group Data = 2 { ... } }], with a
    comment on the message. *)
Definition legacy : gmap string MessageBody :=
  {[ "test.Legacy" :=
       {| mFields := [scalarField "id" StringKind;
                      scalarField "data" GroupKind];
          mOneofs := [];
          mComments := "A legacy message" |} ]}.

(** A method whose input is [test.Legacy]. *)
Definition putLegacy : Grpc.EnhancedMethodInfo :=
  {| Grpc.emName := "Put"; Grpc.emFullName := "test.Store.Put";
     Grpc.emDescription := "";
     Grpc.emInputType := "test.Legacy"; Grpc.emOutputType := "test.Legacy";
     Grpc.emInputDescriptor := Some "test.Legacy";
     Grpc.emOutputDescriptor := Some "test.Legacy";
     Grpc.emIsClientStreaming := false; Grpc.emIsServerStreaming := false |}.

End ExtractorFixtures.

(* ===================================================================== *)
(** * Part II: lemmas and theorems                                        *)
(* ===================================================================== *)

(** ** Tool names *)
Module ToolNameFacts.
Import GoStrings GrpcTypes Grpc Server.

Section Facts.
Variable lower : string → string.

Lemma matchMethod_Some servicePart toolName methods methodName :
  matchMethod lower servicePart toolName methods = Some methodName →
  ∃ method, method ∈ methods ∧ Name method = methodName
            ∧ Sprintf_s_s servicePart (ToLower lower methodName) = toolName.
Proof.
  induction methods as [|method rest IH]; simpl; [done|].
  destruct (decide _) as [Heq|Hne].
  - intros [= <-]. exists method. split; [apply list_elem_of_here | done].
  - intros H. destruct (IH H) as (m & Hin & Hn & Hs).
    exists m. split; [by apply list_elem_of_further | done].
Qed.

Lemma matchMethod_None servicePart toolName methods :
  matchMethod lower servicePart toolName methods = None →
  ∀ method, method ∈ methods →
    Sprintf_s_s servicePart (ToLower lower (Name method)) ≠ toolName.
Proof.
  induction methods as [|m rest IH]; simpl.
  - intros _ method Hin. by apply elem_of_nil in Hin.
  - destruct (decide _) as [Heq|Hne]; [done|].
    intros H method Hin. apply elem_of_cons in Hin as [->|Hin]; auto.
Qed.

(** What [parseToolName] returns is a pair of the catalog whose generated
    tool name is the one asked for. *)
Lemma parseToolName_sound st services toolName serviceName methodName :
  parseToolName lower st services toolName = Ok (serviceName, methodName) →
  ∃ service method,
    (serviceName, service) ∈ services
    ∧ method ∈ elems st (Methods service)
    ∧ Name method = methodName
    ∧ Tools.generateToolName lower serviceName methodName = toolName.
Proof.
  induction services as [|[sn service] rest IH]; simpl; [done|].
  destruct (matchMethod _ _ _ _) as [mn|] eqn:Hm.
  - intros [= <- <-].
    apply matchMethod_Some in Hm as (method & Hin & Hn & Hs).
    exists service, method. split; [apply list_elem_of_here | done].
  - intros H. destruct (IH H) as (service' & method & Hin & Hrest).
    exists service', method. split; [by apply list_elem_of_further | done].
Qed.

(** A pair of the catalog whose generated tool name is asked for is
    always matched by some pair. *)
Lemma parseToolName_complete st services serviceName service method :
  (serviceName, service) ∈ services →
  method ∈ elems st (Methods service) →
  ∃ found,
    parseToolName lower st services
      (Tools.generateToolName lower serviceName (Name method)) = Ok found.
Proof.
  intros Hs Hm. induction services as [|[sn sv] rest IH].
  - by apply elem_of_nil in Hs.
  - simpl. destruct (matchMethod _ _ _ _) as [mn|] eqn:Hmatch; [eauto|].
    apply elem_of_cons in Hs as [[= <- <-]|Hs]; [|auto].
    exfalso. eapply matchMethod_None in Hmatch; [|exact Hm].
    by apply Hmatch.
Qed.
End Facts.

(** C9. The three derivations of a tool name agree on every service name
    and method: [generateToolName] of package descriptors and
    [Builder.generateToolName] return the same string, and the expected
    name that [parseToolName] builds for a method of a service and compares
    with the requested name is that string too. *)
Theorem tool_name_derivations_agree
    (lower : string → string) (serviceName toolName : string)
    (method : MethodInfo) (rest : list MethodInfo) :
  Descriptors.generateToolName lower serviceName (Name method)
    = Tools.generateToolName lower serviceName (Name method)
  ∧ matchMethod lower (ToLower lower (ReplaceAll serviceName "." "_"))
                toolName (method :: rest)
    = if decide (Tools.generateToolName lower serviceName (Name method)
                 = toolName)
      then Some (Name method)
      else matchMethod lower (ToLower lower (ReplaceAll serviceName "." "_"))
                       toolName rest.
Proof. split; reflexivity. Qed.



End ToolNameFacts.

(** ** The service discoverer *)
Module DiscovererFacts.
Import GrpcTypes Grpc.

(** Unfolds the monad of the discoverer. *)
Ltac run :=
  unfold mbind, M_bind, bind, mret, M_ret, ret, call, this, world,
    setReflectionClient, setServices, makeSlice in *; simpl in *.

Lemma GetServices_copy (d : serviceDiscoverer) : GetServices d = services d.
Proof.
  unfold GetServices.
  apply (map_fold_weak_ind (λ copy m, copy = m)); [done|].
  by intros name service m copy _ ->.
Qed.

Lemma GetMethodCount_empty (d : serviceDiscoverer) :
  services d = ∅ → GetMethodCount d = 0.
Proof. intros H. unfold GetMethodCount. rewrite H. apply map_fold_empty. Qed.

Section Facts.
Variable env : Env.

(** C10. [Close] always returns nil, whatever the two close calls
    return, and leaves the catalog empty: [GetServiceCount] and
    [GetMethodCount] are 0 and [GetServices] is the empty map. *)
Theorem Close_returns_nil_and_empties (σ : serviceDiscoverer * World) :
  fst (Close env σ) = None
  ∧ GetServiceCount (fst (snd (Close env σ))) = 0
  ∧ GetMethodCount (fst (snd (Close env σ))) = 0
  ∧ GetServices (fst (snd (Close env σ))) = ∅.
Proof.
  destruct σ as [d w]. unfold Close. run.
  destruct (reflectionClient d) as [client|] eqn:Hc; simpl;
    rewrite ?GetServices_copy; unfold GetServiceCount, GetMethodCount;
    simpl; rewrite ?map_fold_empty, ?map_size_empty; done.
Qed.

Lemma Close_state (σ : serviceDiscoverer * World) :
  reflectionClient (fst (snd (Close env σ))) = None
  ∧ services (fst (snd (Close env σ))) = ∅.
Proof.
  destruct σ as [d w]. unfold Close. run.
  destruct (reflectionClient d) eqn:Hc; simpl; done.
Qed.

(** *** Steps that leave the client, the clock and the count of
    reconnection attempts alone. *)

Lemma attempts_app tr1 tr2 : attempts (tr1 ++ tr2) = attempts tr1 + attempts tr2.
Proof. unfold attempts. by rewrite filter_app, length_app. Qed.

Lemma quiet_ret {A} (a : A) : quiet (mret a).
Proof. by intros [d w]. Qed.

Lemma quiet_bind {A B} (m : M A) (k : A → M B) :
  quiet m → (∀ a, quiet (k a)) → quiet (m ≫= k).
Proof.
  intros Hm Hk σ. run. specialize (Hm σ).
  destruct (m σ) as [a σ1]. specialize (Hk a σ1).
  simpl in *. destruct Hm as (H1 & H2 & H3).
  rewrite <- H1, <- H2, <- H3. exact Hk.
Qed.

Lemma quiet_call {A} ev (answer : list Event → A) :
  isAttempt ev = false → quiet (call ev answer).
Proof.
  intros Hev [d w]. run. repeat split.
  rewrite attempts_app. unfold attempts at 2. simpl.
  rewrite filter_cons_False, filter_nil; [simpl; lia|].
  by rewrite Hev.
Qed.

Lemma quiet_this : quiet this.
Proof. by intros [d w]. Qed.

Lemma quiet_setServices m : quiet (setServices m).
Proof. by intros [d w]. Qed.

Lemma quiet_makeSlice ms : quiet (makeSlice ms).
Proof. by intros [d w]. Qed.

Lemma quiet_storeEnhanced l : quiet (storeEnhanced l).
Proof.
  induction l as [|e l IH]; simpl; [apply quiet_ret|].
  apply quiet_bind; [apply quiet_makeSlice|]. intros sl.
  apply quiet_bind; [apply quiet_this|]. intros d.
  apply quiet_bind; [apply quiet_setServices|]. intros _. exact IH.
Qed.

Lemma quiet_storeDiscovered l : quiet (storeDiscovered l).
Proof.
  induction l as [|e l IH]; simpl; [apply quiet_ret|].
  apply quiet_bind; [apply quiet_makeSlice|]. intros sl.
  apply quiet_bind; [apply quiet_this|]. intros d.
  apply quiet_bind; [apply quiet_setServices|]. intros _. exact IH.
Qed.

Lemma quiet_discoverFromFileDescriptor : quiet (discoverFromFileDescriptor env).
Proof.
  unfold discoverFromFileDescriptor.
  apply quiet_bind; [apply quiet_this|]. intros d.
  apply quiet_bind; [by apply quiet_call|]. intros [fdSet|err];
    [|apply quiet_ret].
  destruct (loaderBuildRegistry env fdSet) as [files|err]; [|apply quiet_ret].
  apply quiet_bind; [apply quiet_setServices|]. intros _.
  destruct (loaderExtractServiceInfo env files) as [l|err]; [|apply quiet_ret].
  apply quiet_bind; [apply quiet_storeEnhanced|]. intros _. apply quiet_ret.
Qed.

Lemma quiet_discoverFromReflection client ctx :
  quiet (discoverFromReflection env client ctx).
Proof.
  unfold discoverFromReflection.
  apply quiet_bind; [by apply quiet_call|]. intros [l|err]; [|apply quiet_ret].
  apply quiet_bind; [apply quiet_setServices|]. intros _.
  apply quiet_bind; [apply quiet_storeDiscovered|]. intros _. apply quiet_ret.
Qed.

Lemma quiet_DiscoverServices ctx : quiet (DiscoverServices env ctx).
Proof.
  unfold DiscoverServices.
  apply quiet_bind; [apply quiet_this|]. intros d.
  destruct (reflectionClient d) as [client|]; [|apply quiet_ret].
  destruct (_ && _).
  - apply quiet_bind; [apply quiet_discoverFromFileDescriptor|].
    intros [err|]; [apply quiet_discoverFromReflection | apply quiet_ret].
  - apply quiet_discoverFromReflection.
Qed.

(** Without a reflection client [DiscoverServices] changes nothing. *)
Lemma DiscoverServices_not_connected ctx σ :
  reflectionClient (fst σ) = None →
  DiscoverServices env ctx σ = (Some ErrNotConnected, σ).
Proof. destruct σ as [d w]. simpl. intros H. unfold DiscoverServices. run. by rewrite H. Qed.

(** *** The discoverer after a read-only call. *)

Lemma InvokeMethod_discoverer ctx s m j σ :
  fst (snd (InvokeMethod env ctx s m j σ)) = fst σ.
Proof.
  destruct σ as [d w]. unfold InvokeMethod. run.
  destruct (reflectionClient d); [|done].
  destruct (GetMethod _ _ _ _) as [method [|]]; simpl; [|done].
  destruct (_ || _); [done|]. by destruct (clientInvokeMethod _ _ _ _ _ _).
Qed.

Lemma InvokeMethodWithHeaders_discoverer ctx h s m j σ :
  fst (snd (InvokeMethodWithHeaders env ctx h s m j σ)) = fst σ.
Proof.
  destruct σ as [d w]. unfold InvokeMethodWithHeaders. run.
  destruct (reflectionClient d) eqn:Hc; [|done].
  apply (InvokeMethod_discoverer _ s m j (d, w)).
Qed.

Lemma IsConnected_discoverer σ : fst (snd (IsConnected env σ)) = fst σ.
Proof. by destruct σ as [d w]. Qed.

Lemma HealthCheck_discoverer ctx σ : fst (snd (HealthCheck env ctx σ)) = fst σ.
Proof.
  destruct σ as [d w]. unfold HealthCheck. run.
  destruct (managerHealthCheck _ _ _); [done|]. simpl.
  by destruct (reflectionClient d).
Qed.

(** *** The invariant of the reachable states. *)

Lemma Connect_consistent ctx σ : consistent σ → consistent (snd (Connect env ctx σ)).
Proof.
  destruct σ as [d w]. unfold consistent, Connect. run.
  destruct (managerConnect _ _ _); [done|].
  destruct (managerGetConnection _ _); [|done].
  by destruct (clientHealthCheck _ _ _ _).
Qed.

Lemma DiscoverServices_consistent ctx σ :
  consistent σ → consistent (snd (DiscoverServices env ctx σ)).
Proof.
  intros Hinv. destruct (reflectionClient (fst σ)) as [client|] eqn:Hc.
  - intros Hnone. destruct (quiet_DiscoverServices ctx σ) as (H & _).
    congruence.
  - by rewrite DiscoverServices_not_connected.
Qed.

Lemma reconnectLoop_consistent remaining i lastErr ctx σ :
  consistent σ → consistent (snd (reconnectLoop env remaining i lastErr ctx σ)).
Proof.
  revert i lastErr σ.
  induction remaining as [|remaining IH]; intros i lastErr [d w] Hinv.
  { done. }
  simpl. run.
  destruct (if (0 <? i)%Z then _ else _) as [done_ [d1 w1]] eqn:Hwait.
  assert (d1 = d) as ->.
  { destruct (0 <? i)%Z; [|by injection Hwait as _ -> _].
    unfold awaitInterval in Hwait. destruct (ctxErr _ _); [by injection Hwait as _ -> _|].
    destruct (deadline ctx); [destruct (_ <=? _)%Z|]; by injection Hwait as _ -> _. }
  destruct done_; [done|]. simpl.
  destruct (managerReconnect _ _ _); [by apply IH|].
  destruct (managerGetConnection _ _) as [conn|]; [|by apply IH].
  match goal with
  | |- context [DiscoverServices env ctx ?s] =>
      pose proof (quiet_DiscoverServices ctx s) as (Hq & _);
      destruct (DiscoverServices env ctx s) as [[err|] σ2] eqn:Hd
  end; simpl in *.
  - apply IH. intros Hn. congruence.
  - intros Hn. congruence.
Qed.

Lemma Reconnect_consistent ctx σ : consistent σ → consistent (snd (Reconnect env ctx σ)).
Proof.
  destruct σ as [d w]. intros H. unfold Reconnect. run.
  by apply reconnectLoop_consistent.
Qed.

Lemma reachable_consistent σ : reachable env σ → consistent σ.
Proof.
  induction 1 as [cfg w|op σ Hr IH]; [done|].
  destruct op; simpl.
  - exact IH.
  - by apply Connect_consistent.
  - by apply DiscoverServices_consistent.
  - unfold consistent. by rewrite InvokeMethod_discoverer.
  - unfold consistent. by rewrite InvokeMethodWithHeaders_discoverer.
  - by apply Reconnect_consistent.
  - unfold consistent. by rewrite IsConnected_discoverer.
  - unfold consistent. by rewrite HealthCheck_discoverer.
  - intros _. apply Close_state.
Qed.
(** *** Invocation *)

Lemma GetMethod_found_service d st serviceName methodName method :
  GetMethod d st serviceName methodName = (method, true) →
  is_Some (services d !! serviceName).
Proof.
  unfold GetMethod, GetService. destruct (services d !! serviceName); [eauto|].
  intros [=].
Qed.

Lemma findMethod_found methods methodName method :
  findMethod methods methodName = (method, true) →
  method ∈ methods ∧ Name method = methodName.
Proof.
  induction methods as [|m rest IH]; simpl; [intros [=]|].
  destruct (decide _) as [Heq|Hne].
  - intros [= <-]. split; [apply list_elem_of_here | done].
  - intros H. destruct (IH H). split; [by apply list_elem_of_further | done].
Qed.

(** With unique method names a method of the catalog is the one its
    name designates. *)
Lemma findMethod_unique methods method :
  NoDup (Name <$> methods) → method ∈ methods →
  findMethod methods (Name method) = (method, true).
Proof.
  induction methods as [|m rest IH]; simpl.
  - intros _ H. by apply elem_of_nil in H.
  - rewrite NoDup_cons. intros [Hnotin Hnodup] Hin.
    destruct (decide _) as [Heq|Hne].
    + apply elem_of_cons in Hin as [->|Hin]; [done|].
      exfalso. apply Hnotin. rewrite Heq. by apply list_elem_of_fmap_2.
    + apply elem_of_cons in Hin as [->|Hin]; [done | auto].
Qed.

Lemma InvokeMethod_streaming ctx serviceName methodName inputJSON σ client method :
  reflectionClient (fst σ) = Some client →
  GetMethod (fst σ) (store (snd σ)) serviceName methodName = (method, true) →
  IsClientStreaming method || IsServerStreaming method = true →
  InvokeMethod env ctx serviceName methodName inputJSON σ
    = (Err ErrStreamingNotSupported, σ).
Proof.
  destruct σ as [d w]. simpl. intros Hc Hm Hs.
  unfold InvokeMethod. run. rewrite Hc. simpl. rewrite Hm. simpl.
  by rewrite Hs.
Qed.

(** C1. In every state a discoverer can reach, invoking a method that
    the catalog holds with a streaming flag set fails with "streaming
    methods are not supported", for every context, every input JSON and
    every set of headers, and leaves the state as it was: no call on the
    reflection client is recorded. *)
Theorem streaming_methods_are_rejected
    (σ : serviceDiscoverer * World) (serviceName methodName : string)
    (method : MethodInfo) (ctx : Context)
    (headers : list (string * string)) (inputJSON : string) :
  reachable env σ →
  GetMethod (fst σ) (store (snd σ)) serviceName methodName = (method, true) →
  IsClientStreaming method || IsServerStreaming method = true →
  InvokeMethod env ctx serviceName methodName inputJSON σ
    = (Err ErrStreamingNotSupported, σ)
  ∧ InvokeMethodWithHeaders env ctx headers serviceName methodName inputJSON σ
    = (Err ErrStreamingNotSupported, σ).
Proof.
  intros Hreach Hm Hs.
  assert (∃ client, reflectionClient (fst σ) = Some client) as [client Hc].
  { destruct (reflectionClient (fst σ)) as [client|] eqn:Hc; [eauto|].
    apply reachable_consistent in Hreach. specialize (Hreach Hc).
    apply GetMethod_found_service in Hm as [service Hsvc].
    rewrite Hreach, lookup_empty in Hsvc. done. }
  split.
  - by eapply InvokeMethod_streaming.
  - destruct σ as [d w]. unfold InvokeMethodWithHeaders. run.
    simpl in Hc. rewrite Hc.
    by apply (InvokeMethod_streaming _ _ _ _ (d, w) client method).
Qed.

Lemma wireContexts_app tr1 tr2 :
  wireContexts (tr1 ++ tr2) = wireContexts tr1 ++ wireContexts tr2.
Proof. unfold wireContexts. apply omap_app. Qed.

Lemma InvokeMethod_wire ctx serviceName methodName inputJSON σ :
  wireContexts (trace (snd (snd (InvokeMethod env ctx serviceName methodName
                                              inputJSON σ))))
  = wireContexts (trace (snd σ))
    ++ (if invocable σ serviceName methodName then [ctx] else []).
Proof.
  destruct σ as [d w]. unfold InvokeMethod, invocable. run.
  destruct (reflectionClient d) as [client|] eqn:Hc; simpl;
    [|by rewrite app_nil_r].
  destruct (GetMethod _ _ _ _) as [method [|]]; simpl;
    [|by rewrite app_nil_r].
  destruct (_ || _); simpl; [by rewrite app_nil_r|].
  destruct (clientInvokeMethod _ _ _ _ _ _); simpl;
    by rewrite wireContexts_app.
Qed.

Lemma appendHeaders_deadline ctx headers :
  deadline (appendHeaders ctx headers) = deadline ctx
  ∧ cancelled (appendHeaders ctx headers) = cancelled ctx
  ∧ outgoing (appendHeaders ctx headers) = outgoing ctx ++ headers.
Proof.
  unfold appendHeaders. revert ctx.
  induction headers as [|[k v] headers IH]; intros ctx; simpl.
  - by rewrite app_nil_r.
  - destruct (IH (AppendToOutgoingContext ctx k v)) as (-> & -> & ->).
    simpl. by rewrite <- app_assoc.
Qed.

Lemma InvokeMethodWithHeaders_wire ctx headers serviceName methodName inputJSON σ :
  wireContexts (trace (snd (snd (InvokeMethodWithHeaders env ctx headers
                                   serviceName methodName inputJSON σ))))
  = wireContexts (trace (snd σ))
    ++ (if invocable σ serviceName methodName
        then [appendHeaders ctx headers] else []).
Proof.
  destruct σ as [d w]. unfold InvokeMethodWithHeaders. run.
  destruct (reflectionClient d) as [client|] eqn:Hc.
  - apply (InvokeMethod_wire _ _ _ _ (d, w)).
  - unfold invocable. simpl. rewrite Hc. simpl. by rewrite app_nil_r.
Qed.

(** C2, as the code has it. The wire call of [InvokeMethod] is made
    under the context of the caller, unchanged; the wire call of
    [InvokeMethodWithHeaders] under that context with the headers
    appended to its outgoing metadata.  Either way the call carries the
    deadline the caller attached, and none when the caller attached
    none: the discoverer sets no deadline. *)
Theorem invoke_runs_under_caller_context
    (σ : serviceDiscoverer * World) (ctx : Context)
    (headers : list (string * string))
    (serviceName methodName inputJSON : string) :
  wireContexts (trace (snd (snd (InvokeMethod env ctx serviceName methodName
                                              inputJSON σ))))
  = wireContexts (trace (snd σ))
    ++ (if invocable σ serviceName methodName then [ctx] else [])
  ∧ wireContexts (trace (snd (snd (InvokeMethodWithHeaders env ctx headers
                                     serviceName methodName inputJSON σ))))
    = wireContexts (trace (snd σ))
      ++ (if invocable σ serviceName methodName
          then [appendHeaders ctx headers] else [])
  ∧ deadline (appendHeaders ctx headers) = deadline ctx
  ∧ outgoing (appendHeaders ctx headers) = outgoing ctx ++ headers.
Proof.
  split; [apply InvokeMethod_wire|].
  split; [apply InvokeMethodWithHeaders_wire|].
  split; apply appendHeaders_deadline.
Qed.

(** *** Reconnection *)

Lemma awaitInterval_done ctx interval σ e :
  ctxErr (now (snd σ)) ctx = Some e →
  awaitInterval ctx interval σ = (Some e, σ).
Proof. destruct σ as [d w]. simpl. intros H. unfold awaitInterval. by rewrite H. Qed.

(** A later iteration of the loop under a context that is done: it
    returns the error of the context at once. *)
Lemma reconnectLoop_done remaining i lastErr ctx σ e :
  (0 < i)%Z →
  ctxErr (now (snd σ)) ctx = Some e →
  reconnectLoop env (S remaining) i lastErr ctx σ = (Some (ErrContext e), σ).
Proof.
  intros Hi He. destruct σ as [d w]. simpl. run.
  apply Z.ltb_lt in Hi. rewrite Hi.
  rewrite (awaitInterval_done _ _ (d, w) e He). done.
Qed.

Lemma Reconnect_loop ctx d w :
  Reconnect env ctx (d, w)
  = reconnectLoop env (Z.to_nat (maxReconnectAttempts d)) 0 None ctx (d, w).
Proof. reflexivity. Qed.

(** The first iteration of the loop: the attempt is made without a look
    at the context. *)
Lemma reconnectLoop_first remaining lastErr ctx d w :
  reconnectLoop env (S remaining) 0 lastErr ctx (d, w)
  = let w1 := {| now := now w; trace := trace w ++ [EvManagerReconnect ctx];
                 store := store w |} in
    match managerReconnect env (trace w) ctx with
    | Some err => reconnectLoop env remaining 1 (Some err) ctx (d, w1)
    | None =>
        let w2 := {| now := now w;
                     trace := trace w1 ++ [EvManagerGetConnection];
                     store := store w |} in
        match managerGetConnection env (trace w1) with
        | None =>
            reconnectLoop env remaining 1
              (Some ErrNilConnectionAfterReconnect) ctx (d, w2)
        | Some conn =>
            let d2 := {| reflectionClient := Some (NewReflectionClient conn);
                         services := services d;
                         descriptorConfig := descriptorConfig d;
                         reconnectInterval := reconnectInterval d;
                         maxReconnectAttempts := maxReconnectAttempts d |} in
            match DiscoverServices env ctx (d2, w2) with
            | (Some err, σ2) =>
                reconnectLoop env remaining 1 (Some err) ctx σ2
            | (None, σ2) => (None, σ2)
            end
        end
    end.
Proof.
  simpl. run.
  destruct (managerReconnect env (trace w) ctx); [done|].
  destruct (managerGetConnection env _); [|done].
  by destruct (DiscoverServices env ctx _) as [[err|] σ2].
Qed.

(** C6, as the code has it. [Reconnect] called with a context that is
    already done (its deadline has passed), on a discoverer that allows
    at least two attempts, makes exactly one [connManager.Reconnect]
    call: the first attempt is not preceded by a look at the context.
    When that attempt fails, [Reconnect] returns the error of the context
    without waiting for the reconnect interval; it returns nil
    only when the attempt and the rediscovery succeeded. *)
Theorem Reconnect_with_done_context
    (σ : serviceDiscoverer * World) (ctx : Context) (e : ctxError) :
  ctxErr (now (snd σ)) ctx = Some e →
  (2 ≤ maxReconnectAttempts (fst σ))%Z →
  attempts (trace (snd (snd (Reconnect env ctx σ))))
    = attempts (trace (snd σ)) + 1
  ∧ now (snd (snd (Reconnect env ctx σ))) = now (snd σ)
  ∧ (fst (Reconnect env ctx σ) = Some (ErrContext e)
     ∨ fst (Reconnect env ctx σ) = None
       ∧ managerReconnect env (trace (snd σ)) ctx = None).
Proof.
  destruct σ as [d w]. cbn [fst snd]. intros He Hmax.
  rewrite Reconnect_loop.
  destruct (Z.to_nat (maxReconnectAttempts d)) as [|[|n]] eqn:Hn; [lia|lia|].
  assert (attempts (trace w ++ [EvManagerReconnect ctx]) = attempts (trace w) + 1)
    as Hone by (by rewrite attempts_app).
  rewrite reconnectLoop_first. cbn zeta.
  destruct (managerReconnect env (trace w) ctx) as [err|] eqn:Hr.
  { rewrite reconnectLoop_done with (e := e); [|lia|done]. by auto. }
  destruct (managerGetConnection env _) as [conn|].
  2: { rewrite reconnectLoop_done with (e := e); [|lia|done].
       cbn [fst snd trace now].
       rewrite attempts_app, Hone. unfold attempts at 2. simpl.
       repeat split; [lia | by left]. }
  match goal with
  | |- context [DiscoverServices env ctx ?s] =>
      pose proof (quiet_DiscoverServices ctx s) as (_ & Hnow & Hatt);
      destruct (DiscoverServices env ctx s) as [[err|] [d2 w2]] eqn:Hd
  end; cbn [fst snd trace now] in *.
  - rewrite reconnectLoop_done with (e := e); [|lia|simpl; by rewrite Hnow].
    cbn [fst snd].
    rewrite Hatt, attempts_app, Hone. unfold attempts at 2. simpl.
    repeat split; [lia | done | by left].
  - rewrite Hatt, attempts_app, Hone. unfold attempts at 2. simpl.
    repeat split; [lia | done | by right].
Qed.
End Facts.

(** *** Closed instances *)

Lemma streaming_methods_are_rejected_witness :
  InvokeMethod (Samples.succeeding [Samples.method "Watch" false true])
    Background "pkg.sub.Widget" "Watch" "{}"
    (Samples.discovered [Samples.method "Watch" false true])
  = (Err ErrStreamingNotSupported,
     Samples.discovered [Samples.method "Watch" false true])
  ∧ InvokeMethodWithHeaders (Samples.succeeding [Samples.method "Watch" false true])
      Background [("authorization", "Bearer t")] "pkg.sub.Widget" "Watch" "{}"
      (Samples.discovered [Samples.method "Watch" false true])
    = (Err ErrStreamingNotSupported,
       Samples.discovered [Samples.method "Watch" false true]).
Proof.
  apply (streaming_methods_are_rejected
           (Samples.succeeding [Samples.method "Watch" false true])
           (Samples.discovered [Samples.method "Watch" false true])
           "pkg.sub.Widget" "Watch" (Samples.method "Watch" false true)).
  - unfold Samples.discovered. do 2 apply reachable_step. apply reachable_new.
  - vm_compute. reflexivity.
  - reflexivity.
Defined.

(** C2, as stated, fails. A unary method of the catalog is invoked at
    time 0 with a context that has no deadline: the wire call is made under
    that very context, without a deadline.  Invoked with a context whose
    deadline is one minute away, the wire call keeps the one-minute
    deadline; it is not replaced by one of 30 seconds. *)
Lemma invoke_sets_no_deadline :
  wireContexts
    (trace (snd (snd (InvokeMethod
                        (Samples.succeeding [Samples.method "DoThing" false false])
                        Background "pkg.sub.Widget" "DoThing" "{}"
                        (Samples.discovered [Samples.method "DoThing" false false])))))
    = [Background]
  ∧ deadline Background = None
  ∧ wireContexts
      (trace (snd (snd (InvokeMethodWithHeaders
                          (Samples.succeeding [Samples.method "DoThing" false false])
                          Samples.oneMinute [] "pkg.sub.Widget" "DoThing" "{}"
                          (Samples.discovered [Samples.method "DoThing" false false])))))
    = [Samples.oneMinute]
  ∧ now (snd (Samples.discovered [Samples.method "DoThing" false false])) = 0%Z
  ∧ deadline Samples.oneMinute ≠ Some (0 + 30 * Second)%Z.
Proof. vm_compute. repeat split; congruence. Qed.

(** C6, as stated, fails. [Reconnect] is called at time 100 with a
    context whose deadline passed at time 10, and the connection manager
    cannot reconnect: one [connManager.Reconnect] call is made before the
    context's error is returned. *)
Lemma Reconnect_attempts_once :
  ctxErr (now (snd Samples.fresh)) Samples.expired = Some DeadlineExceeded
  ∧ Reconnect Samples.failing Samples.expired Samples.fresh
    = (Some (ErrContext DeadlineExceeded),
       (fst Samples.fresh,
        {| now := 100; trace := [EvManagerReconnect Samples.expired];
           store := store (snd Samples.fresh) |}))
  ∧ attempts (trace (snd (snd (Reconnect Samples.failing Samples.expired
                                 Samples.fresh)))) = 1.
Proof. vm_compute. repeat split. Qed.

Lemma Reconnect_with_done_context_witness :
  attempts (trace (snd (snd (Reconnect Samples.failing Samples.expired
                               Samples.fresh))))
    = attempts (trace (snd Samples.fresh)) + 1
  ∧ now (snd (snd (Reconnect Samples.failing Samples.expired Samples.fresh)))
    = now (snd Samples.fresh)
  ∧ (fst (Reconnect Samples.failing Samples.expired Samples.fresh)
       = Some (ErrContext DeadlineExceeded)
     ∨ fst (Reconnect Samples.failing Samples.expired Samples.fresh) = None
       ∧ managerReconnect Samples.failing (trace (snd Samples.fresh))
           Samples.expired = None).
Proof.
  apply (Reconnect_with_done_context Samples.failing Samples.fresh
           Samples.expired DeadlineExceeded).
  - reflexivity.
  - simpl. lia.
Defined.

(** *** Copies and aliases *)

(** What [GetMethod] returns is a struct value: nothing a caller does to
    it reaches the store or the discoverer.  Of the map that [GetServices]
    returns, setting and deleting entries changes the caller's map only. *)
Lemma map_mutations_keep_catalog (d : serviceDiscoverer) (st : Store)
    (m : gmap string ServiceInfo) (name : string) (service : ServiceInfo) :
  catalog d (snd (mutate (SetEntry name service) m st)) = catalog d st
  ∧ catalog d (snd (mutate (DeleteEntry name) m st)) = catalog d st.
Proof. done. Qed.

(** A write through [Methods] that is out of range (a panic in Go)
    changes nothing. *)
Lemma setElem_out_of_range st a n i method :
  n ≤ i → setElem st (MkSlice a n) i method = st.
Proof. intros H. unfold setElem. destruct (decide _); [lia | done]. Qed.

(** A write through the [Methods] slice of an entry of the returned map,
    within its length, is a write to the catalog of the discoverer. *)
Lemma SetMethod_reaches_catalog (d : serviceDiscoverer) (st : Store)
    (name : string) (service : ServiceInfo) (a n i : nat) (method : MethodInfo) :
  services d !! name = Some service →
  Methods service = MkSlice a n →
  i < n →
  catalog d (snd (mutate (SetMethod name i method) (GetServices d) st)) !! name
  = Some (<[i := method]> (elems st (Methods service))).
Proof.
  intros Hsvc Hsl Hi. rewrite GetServices_copy. unfold mutate.
  rewrite Hsvc. simpl. unfold catalog. rewrite lookup_fmap, Hsvc. simpl.
  rewrite Hsl. unfold setElem, elems. destruct (decide (i < n)); [|lia].
  simpl. rewrite lookup_alter_eq.
  destruct (arrays st !! a) as [array|]; simpl.
  - by rewrite take_insert_lt.
  - by rewrite take_nil.
Qed.

(** C8, at a failing input. The discoverer has discovered the service
    "pkg.sub.Widget" with the method "DoThing".  A caller takes the map
    that [GetServices] returns and assigns to element 0 of the [Methods]
    slice of its entry.  The map is a copy, the slice inside it is not: the
    catalog of the discoverer now holds the caller's method, and
    [GetMethod] no longer finds "DoThing". *)
Theorem GetServices_shares_method_arrays :
  GetMethod (fst (Samples.discovered [Samples.method "DoThing" false false]))
    (store (snd (Samples.discovered [Samples.method "DoThing" false false])))
    "pkg.sub.Widget" "DoThing"
  = (Samples.method "DoThing" false false, true)
  ∧ GetMethod (fst (Samples.discovered [Samples.method "DoThing" false false]))
      (snd (mutate (SetMethod "pkg.sub.Widget" 0 (Samples.method "Hijacked" true true))
              (GetServices (fst (Samples.discovered
                                   [Samples.method "DoThing" false false])))
              (store (snd (Samples.discovered
                             [Samples.method "DoThing" false false])))))
      "pkg.sub.Widget" "DoThing"
    = (noMethod, false)
  ∧ catalog (fst (Samples.discovered [Samples.method "DoThing" false false]))
      (snd (mutate (SetMethod "pkg.sub.Widget" 0 (Samples.method "Hijacked" true true))
              (GetServices (fst (Samples.discovered
                                   [Samples.method "DoThing" false false])))
              (store (snd (Samples.discovered
                             [Samples.method "DoThing" false false])))))
    = {[ "pkg.sub.Widget" := [Samples.method "Hijacked" true true] ]}.
Proof. vm_compute. repeat split. Qed.

End DiscovererFacts.

(** ** The handler's tool call *)
Module HandlerFacts.
Import GrpcTypes Grpc Server DiscovererFacts.

(** The 30-second timeout of a tool call is the handler's: [handleToolsCall]
    derives its context with [context.WithTimeout] before it calls the
    discoverer, so the wire call runs under the earlier of the caller's
    deadline and 30 seconds from now. *)
Lemma handleToolsCall_deadline (lower : string → string) (env : Env)
    (ctx : Context) (toolName argumentsJSON : string)
    (services : list (string * ServiceInfo))
    (filteredHeaders : list (string * string))
    (σ : serviceDiscoverer * World) :
  ∃ made : bool,
    wireContexts (trace (snd (snd (handleToolsCall lower env ctx toolName
                                     argumentsJSON services filteredHeaders σ))))
    = wireContexts (trace (snd σ))
      ++ (if made
          then [appendHeaders (WithTimeout (now (snd σ)) ctx (30 * Second))
                              filteredHeaders]
          else [])
    ∧ deadline (appendHeaders (WithTimeout (now (snd σ)) ctx (30 * Second))
                              filteredHeaders)
      = Some (match deadline ctx with
              | Some d => Z.min d (now (snd σ) + 30 * Second)
              | None => (now (snd σ) + 30 * Second)%Z
              end).
Proof.
  destruct σ as [d w]. unfold handleToolsCall. run.
  destruct (parseToolName lower (store w) services toolName)
    as [[serviceName methodName]|err].
  - exists (invocable (d, w) serviceName methodName). split.
    + destruct (decide (0 < length filteredHeaders)) as [Hlen|Hlen].
      * pose proof (InvokeMethodWithHeaders_wire env
                      (WithTimeout (now w) ctx (30 * Second)) filteredHeaders
                      serviceName methodName argumentsJSON (d, w)) as H.
        destruct (InvokeMethodWithHeaders _ _ _ _ _ _ _) as [res σ']. exact H.
      * destruct filteredHeaders as [|h hs]; [|simpl in Hlen; lia].
        pose proof (InvokeMethod_wire env
                      (WithTimeout (now w) ctx (30 * Second))
                      serviceName methodName argumentsJSON (d, w)) as H.
        destruct (InvokeMethod _ _ _ _ _ _) as [res σ']. exact H.
    + by destruct (appendHeaders_deadline
                     (WithTimeout (now w) ctx (30 * Second)) filteredHeaders)
        as (-> & _).
  - exists false. split; [by rewrite app_nil_r|].
    by destruct (appendHeaders_deadline
                   (WithTimeout (now w) ctx (30 * Second)) filteredHeaders)
      as (-> & _).
Qed.

End HandlerFacts.

(** ** The schema extractor of package [descriptors] *)
Module ExtractorFacts.
Import Protoreflect Json Descriptors.

Section Facts.
Variable reg : gmap string MessageBody.

(** *** Every call returns, with the visited map as it was. *)

Section Level.
Variable extractMessage : MessageDescriptor → gset string → Outcome.
Variable bound : nat.
Hypothesis Hrec : restores reg extractMessage bound.

Lemma fieldType_restores field visited :
  size (dom reg ∖ visited) < bound →
  ∃ r, extractFieldTypeSchemaInternal_ extractMessage field visited
       = Some (r, visited).
Proof.
  intros Hsize. unfold extractFieldTypeSchemaInternal_.
  destruct (fdKind field); eauto.
  destruct (wellKnownSchema _); [eauto|].
  destruct (Hrec (fdMessage field) visited Hsize) as [schema ->]. eauto.
Qed.

Lemma field_restores field visited :
  size (dom reg ∖ visited) < bound →
  ∃ r, extractFieldSchemaInternal_ extractMessage field visited
       = Some (r, visited).
Proof.
  intros Hsize. unfold extractFieldSchemaInternal_.
  destruct (IsList field).
  - destruct (fieldType_restores field visited Hsize) as [[s|e] ->]; eauto.
  - destruct (fdMapKV field) as [[k v]|].
    + destruct (fieldType_restores v visited Hsize) as [[s|e] ->]; eauto.
    + apply fieldType_restores, Hsize.
Qed.

Lemma fieldsLoop_restores fields properties required visited :
  size (dom reg ∖ visited) < bound →
  ∃ properties' required',
    fieldsLoop extractMessage fields properties required visited
    = Some (properties', required', visited).
Proof.
  intros Hsize. revert properties required.
  induction fields as [|field rest IH]; intros properties required; simpl.
  - eauto.
  - destruct (field_restores field visited Hsize) as [[s|e] ->]; apply IH.
Qed.

Lemma oneofFieldsLoop_restores fields oneOf visited :
  size (dom reg ∖ visited) < bound →
  ∃ oneOf',
    oneofFieldsLoop extractMessage fields oneOf visited
    = Some (oneOf', visited).
Proof.
  intros Hsize. revert oneOf.
  induction fields as [|field rest IH]; intros oneOf; simpl.
  - eauto.
  - destruct (field_restores field visited Hsize) as [[s|e] ->]; apply IH.
Qed.

Lemma oneofsLoop_restores oneofs properties visited :
  size (dom reg ∖ visited) < bound →
  ∃ properties',
    oneofsLoop extractMessage oneofs properties visited
    = Some (properties', visited).
Proof.
  intros Hsize. revert properties.
  induction oneofs as [|oneof rest IH]; intros properties; simpl.
  - eauto.
  - destruct (oneofFieldsLoop_restores (ooFields oneof) [] visited Hsize)
      as [oneOf ->].
    apply IH.
Qed.
End Level.


(** Marking a message of the registry that was unvisited leaves fewer
    unvisited messages. *)
Lemma unvisited_decreases (msgDesc : string) (visited : gset string) :
  is_Some (reg !! msgDesc) → msgDesc ∉ visited →
  size (dom reg ∖ (visited ∪ {[msgDesc]})) < size (dom reg ∖ visited).
Proof.
  intros Hin Hnot. apply subset_size. apply elem_of_dom in Hin.
  set_solver.
Qed.

Lemma unmark (msgDesc : string) (visited : gset string) :
  msgDesc ∉ visited → (visited ∪ {[msgDesc]}) ∖ {[msgDesc]} = visited.
Proof. set_solver. Qed.

Section Properties.
Variable extractMessage : string → gset string → Outcome.
Variable bound : nat.
Hypothesis Hrec : restores reg extractMessage bound.

Lemma fieldsLoop_keeps name fields properties required visited p r v :
  name ∉ fdName <$> fields →
  fieldsLoop extractMessage fields properties required visited = Some (p, r, v) →
  p !! name = properties !! name.
Proof.
  revert properties required visited.
  induction fields as [|field rest IH]; intros properties required visited;
    simpl.
  - by intros _ [= <- _ _].
  - rewrite not_elem_of_cons. intros [Hne Hrest].
    destruct (extractFieldSchemaInternal_ _ _ _) as [[[s|e] v']|]; [| |done].
    + intros H. rewrite (IH _ _ _ Hrest H). by apply lookup_insert_ne.
    + by apply IH.
Qed.

Lemma fieldsLoop_sets field schema fields properties required visited p r :
  size (dom reg ∖ visited) < bound →
  NoDup (fdName <$> fields) →
  field ∈ fields →
  extractFieldSchemaInternal_ extractMessage field visited
    = Some (Ok schema, visited) →
  fieldsLoop extractMessage fields properties required visited
    = Some (p, r, visited) →
  p !! fdName field = Some schema.
Proof.
  intros Hsize. revert properties required.
  induction fields as [|head rest IH]; intros properties required Hnodup Hin Hf;
    simpl.
  - by apply elem_of_nil in Hin.
  - rewrite fmap_cons, NoDup_cons in Hnodup. destruct Hnodup as [Hnotin Hnodup].
    apply elem_of_cons in Hin as [<-|Hin].
    + rewrite Hf. intros H.
      rewrite (fieldsLoop_keeps _ _ _ _ _ _ _ _ Hnotin H).
      apply lookup_insert_eq.
    + destruct (field_restores extractMessage bound Hrec head visited Hsize)
        as [[s|e] ->]; by apply IH.
Qed.

Lemma oneofsLoop_keeps name oneofs properties visited p v :
  name ∉ ooName <$> oneofs →
  oneofsLoop extractMessage oneofs properties visited = Some (p, v) →
  p !! name = properties !! name.
Proof.
  revert properties visited.
  induction oneofs as [|oneof rest IH]; intros properties visited; simpl.
  - by intros _ [= <- _].
  - rewrite not_elem_of_cons. intros [Hne Hrest].
    destruct (oneofFieldsLoop _ _ _ _) as [[oneOf v']|]; [|done].
    intros H. rewrite (IH _ _ Hrest H). by apply lookup_insert_ne.
Qed.

(** The schema of a field holds the type schema of the field. *)
Lemma field_schema_holds_type field visited schema visited' :
  extractFieldSchemaInternal_ extractMessage field visited
    = Some (Ok schema, visited') →
  ∃ typeSchema,
    extractFieldTypeSchemaInternal_ extractMessage (typeField field) visited
      = Some (Ok typeSchema, visited')
    ∧ typeSchemaIn field schema = Some typeSchema.
Proof.
  unfold extractFieldSchemaInternal_, typeSchemaIn, typeField.
  destruct (IsList field) eqn:Hlist.
  - assert (fdMapKV field = None) as ->.
    { unfold IsList, IsMap in Hlist. destruct (fdMapKV field); [|done].
      by rewrite andb_false_r in Hlist. }
    destruct (extractFieldTypeSchemaInternal_ _ _ _) as [[[s|e] v]|]; [|done..].
    intros [= <- <-]. exists s. split; [done|]. simpl. apply lookup_insert_eq.
  - destruct (fdMapKV field) as [[k v]|]; [|eauto].
    destruct (extractFieldTypeSchemaInternal_ _ _ _) as [[[s|e] v0]|]; [|done..].
    intros [= <- <-]. exists s. split; [done|]. simpl. apply lookup_insert_eq.
Qed.

(** The type schema of a message field is what the recursive call
    returns. *)
Lemma message_type_schema field visited :
  fdKind field = MessageKind →
  wellKnownSchema (fdMessage field) = None →
  extractFieldTypeSchemaInternal_ extractMessage field visited
  = match extractMessage (fdMessage field) visited with
    | None => None
    | Some (Err err, visited') =>
        Some (Err (ErrMessageSchema (fdMessage field) err), visited')
    | Some (Ok messageSchema, visited') => Some (Ok messageSchema, visited')
    end.
Proof.
  intros Hk Hw. unfold extractFieldTypeSchemaInternal_. by rewrite Hk, Hw.
Qed.

(** Compiling a message under a visited map that does not hold it: the
    result holds, for a message field, the schema that compiling the type
    of the field returns while the message is marked. *)
Lemma extractMessageBody_property msgDesc body visited field target :
  size (dom reg ∖ visited) < S bound →
  reg !! msgDesc = Some body →
  msgDesc ∉ visited →
  messageFieldTo body field target →
  ∃ schema typeSchema,
    extractMessageBody reg extractMessage msgDesc visited
      = Some (Ok schema, visited)
    ∧ extractMessage target (visited ∪ {[msgDesc]})
      = Some (Ok typeSchema, visited ∪ {[msgDesc]})
    ∧ propertyType field schema = Some typeSchema.
Proof.
  intros Hsize Hbody Hnot (Hin & Hkind & Htarget & Hwk & Hnodup & Hoo).
  assert (size (dom reg ∖ (visited ∪ {[msgDesc]})) < bound) as Hless.
  { assert (is_Some (reg !! msgDesc)) as Hsome by (by exists body).
    pose proof (unvisited_decreases msgDesc visited Hsome Hnot). lia. }
  destruct (Hrec target _ Hless) as [typeSchema Htype].
  destruct (field_restores extractMessage bound Hrec field _ Hless)
    as [[fieldSchema|e] Hfield].
  2: { (* a message field cannot fail *)
       exfalso. revert Hfield. unfold extractFieldSchemaInternal_.
       pose proof (message_type_schema (typeField field) (visited ∪ {[msgDesc]})
                     Hkind) as Hm.
       rewrite Htarget in Hm. specialize (Hm Hwk). rewrite Htype in Hm.
       unfold typeField in Hm.
       destruct (IsList field) eqn:Hlist.
       - assert (fdMapKV field = None) as Hnone.
         { unfold IsList, IsMap in Hlist. destruct (fdMapKV field); [|done].
           by rewrite andb_false_r in Hlist. }
         rewrite Hnone in Hm. by rewrite Hm.
       - destruct (fdMapKV field) as [[k v]|]; by rewrite Hm. }
  destruct (field_schema_holds_type _ _ _ _ Hfield) as (ts & Hts & Hin_schema).
  rewrite message_type_schema in Hts by (by rewrite ?Htarget).
  rewrite Htarget, Htype in Hts. injection Hts as <-.
  unfold extractMessageBody.
  destruct (decide (msgDesc ∈ visited)) as [|_]; [done|].
  unfold Fields, Oneofs. rewrite Hbody.
  destruct (fieldsLoop_restores extractMessage bound Hrec
              (mFields body) ∅ [] _ Hless) as (props & req & Hloop).
  rewrite Hloop.
  destruct (oneofsLoop_restores extractMessage bound Hrec
              (mOneofs body) props _ Hless) as (props' & Hoos).
  rewrite Hoos. rewrite unmark by done.
  eexists _, typeSchema. split; [reflexivity|]. split; [done|].
  assert (props' !! fdName field = Some fieldSchema) as Hprop.
  { rewrite (oneofsLoop_keeps _ _ _ _ _ _ Hoo Hoos).
    by eapply fieldsLoop_sets. }
  unfold propertyType, member. simpl.
  destruct req; rewrite ?(lookup_insert_ne _ "required" "properties") by done;
    rewrite lookup_insert_eq; simpl; by rewrite Hprop.
Qed.
End Properties.

Lemma extractMessageBody_restores extractMessage bound :
  restores reg extractMessage bound →
  restores reg (extractMessageBody reg extractMessage) (S bound).
Proof.
  intros Hrec msgDesc visited Hsize. unfold extractMessageBody.
  destruct (decide (msgDesc ∈ visited)) as [Hin|Hnot]; [eauto|].
  destruct (reg !! msgDesc) as [body|] eqn:Hbody.
  - assert (size (dom reg ∖ (visited ∪ {[msgDesc]})) < bound) as Hless.
    { assert (is_Some (reg !! msgDesc)) as Hsome by (by exists body).
      pose proof (unvisited_decreases msgDesc visited Hsome Hnot). lia. }
    destruct (fieldsLoop_restores extractMessage bound Hrec
                (Fields reg msgDesc) ∅ [] _ Hless) as (props & req & ->).
    destruct (oneofsLoop_restores extractMessage bound Hrec
                (Oneofs reg msgDesc) props _ Hless) as (props' & ->).
    rewrite unmark by done. eauto.
  - unfold Fields, Oneofs. rewrite Hbody. simpl.
    rewrite unmark by done. eauto.
Qed.

(** The extractor always returns a schema, never an error, and the
    visited map is on return what it was on entry. *)
Lemma extractMessageSchemaInternal_restores fuel :
  restores reg (extractMessageSchemaInternal reg fuel) fuel.
Proof.
  induction fuel as [|fuel IH].
  - intros msgDesc visited H. lia.
  - simpl. by apply extractMessageBody_restores.
Qed.

Lemma ExtractMessageSchema_total msgDesc :
  ∃ schema, ExtractMessageSchema reg msgDesc = Some (Ok schema).
Proof.
  unfold ExtractMessageSchema.
  destruct (extractMessageSchemaInternal_restores (enoughFuel reg) msgDesc ∅)
    as [schema ->].
  - unfold enoughFuel. rewrite difference_empty_L. lia.
  - eauto.
Qed.
End Facts.

End ExtractorFacts.

(** ** The extractor on a cycle of two message types *)
Module ExtractorCycle.
Import Protoreflect Json Descriptors ExtractorFacts.

Lemma revisit reg fuel msgDesc visited r :
  msgDesc ∈ visited →
  extractMessageSchemaInternal reg fuel msgDesc visited = Some r →
  r = (Ok (refTo msgDesc), visited).
Proof.
  destruct fuel as [|fuel]; simpl; [done|]. unfold extractMessageBody.
  intros Hin. destruct (decide _); [|done]. by intros [= <-].
Qed.


(** A message with a field of its own type: the field holds the
    reference. *)
Lemma extractor_self_reference (reg : gmap string MessageBody)
    (A : string) (bodyA : MessageBody) (fieldAA : FieldDescriptor) :
  reg !! A = Some bodyA →
  messageFieldTo bodyA fieldAA A →
  ∃ schemaA,
    ExtractMessageSchema reg A = Some (Ok schemaA)
    ∧ propertyType fieldAA schemaA = Some (refTo A).
Proof.
  intros HA HAA.
  unfold ExtractMessageSchema, enoughFuel.
  assert (size (dom reg ∖ (∅ : gset string)) < S (size (dom reg))) as H0.
  { rewrite difference_empty_L. lia. }
  destruct (extractMessageBody_property reg _ (size (dom reg))
              (extractMessageSchemaInternal_restores reg (size (dom reg)))
              A bodyA ∅ fieldAA A H0 HA (not_elem_of_empty A) HAA)
    as (schemaA & schemaA' & HcompA & HcompA' & HpropA).
  simpl. rewrite HcompA. simpl. exists schemaA. split; [done|].
  apply revisit in HcompA'; [|set_solver]. by injection HcompA' as ->.
Qed.

End ExtractorCycle.

(** ** The tool builder of package [tools] *)
Module BuilderFacts.
Import Protoreflect Json Tools.

(** Closes a goal [∃ r visited' b', Some _ = Some (r, visited', b') ∧ _ ⊆ _]. *)
Ltac returned :=
  eexists _, _, _; split; [reflexivity | set_solver].

Section Facts.
Variable reg : gmap string MessageBody.
Variable trim : string → string.

Lemma unvisited_mono (visited visited' : gset string) :
  visited ⊆ visited' →
  size (dom reg ∖ visited') ≤ size (dom reg ∖ visited).
Proof. intros H. apply subseteq_size. set_solver. Qed.

Section Level.
Variable generateMessage : option string → gset string → Builder → Outcome nat.
Variable bound : nat.
Hypothesis Hrec : grows reg generateMessage bound.

Lemma generateFieldSchema_grows n :
  ∀ field, fieldDepth field ≤ n →
  ∀ visited b,
    size (dom reg ∖ visited) < bound →
    ∃ r visited' b',
      generateFieldSchema_ trim generateMessage field visited b
        = Some (r, visited', b')
      ∧ visited ⊆ visited'.
Proof.
  induction n as [|n IH]; intros field Hdepth visited b Hsize;
    destruct field as [name kind card opt pres msg enum mapKV c l t];
    simpl in Hdepth.
  all: simpl.
  all: match goal with
       | |- ∃ _ _ _, match ?base with _ => _ end = _ ∧ _ =>
           assert (∃ r v1 b1, base = Some (r, v1, b1) ∧ visited ⊆ v1)
             as (r & v1 & b1 & -> & Hsub)
       end.
  1,3: destruct kind; simpl; try returned; apply Hrec, Hsize.
  all: destruct r as [baseSchema|err]; [|returned].
  all: destruct mapKV as [[k v]|]; [|destruct (IsList _); returned].
  - lia.
  - unfold IsList, IsMap. simpl. rewrite andb_false_r.
    assert (size (dom reg ∖ v1) < bound) as Hsize1.
    { pose proof (unvisited_mono _ _ Hsub). lia. }
    destruct (IH k ltac:(lia) v1 b1 Hsize1) as (rk & v2 & b2 & -> & Hsub2).
    destruct rk as [keySchema|err]; [|returned].
    assert (size (dom reg ∖ v2) < bound) as Hsize2.
    { pose proof (unvisited_mono _ _ Hsub2). lia. }
    destruct (IH v ltac:(lia) v2 b2 Hsize2) as (rv & v3 & b3 & -> & Hsub3).
    destruct rv as [valueSchema|err]; returned.
Qed.

Lemma oneofOptionsLoop_grows fields :
  ∀ oneOfOptions visited b,
    size (dom reg ∖ visited) < bound →
    ∃ r visited' b',
      oneofOptionsLoop trim generateMessage fields oneOfOptions visited b
        = Some (r, visited', b')
      ∧ visited ⊆ visited'.
Proof.
  induction fields as [|field rest IH]; intros oneOfOptions visited b Hsize;
    simpl; [returned|].
  destruct (generateFieldSchema_grows _ field (le_n _) visited b Hsize)
    as (r & v1 & b1 & -> & Hsub).
  destruct r as [fieldSchema|err]; [|returned]. simpl.
  assert (size (dom reg ∖ v1) < bound) as Hsize1.
  { pose proof (unvisited_mono _ _ Hsub). lia. }
  match goal with
  | |- context [oneofOptionsLoop _ _ rest ?o v1 ?b2] =>
      destruct (IH o v1 b2 Hsize1) as (r & v2 & b3 & -> & Hsub2)
  end.
  returned.
Qed.

Lemma generateOneofSchema_grows oneof visited b :
  size (dom reg ∖ visited) < bound →
  ∃ r visited' b',
    generateOneofSchema_ trim generateMessage oneof visited b
      = Some (r, visited', b')
    ∧ visited ⊆ visited'.
Proof.
  intros Hsize. unfold generateOneofSchema_.
  destruct (ooFields oneof) as [|field rest] eqn:Hfields; [returned|].
  destruct (oneofOptionsLoop_grows (field :: rest) [] visited b Hsize)
    as (r & v1 & b1 & -> & Hsub).
  destruct r; returned.
Qed.

Lemma fieldsLoop_grows fields :
  ∀ properties required visited b,
    size (dom reg ∖ visited) < bound →
    ∃ r visited' b',
      fieldsLoop trim generateMessage fields properties required visited b
        = Some (r, visited', b')
      ∧ visited ⊆ visited'.
Proof.
  induction fields as [|field rest IH]; intros properties required visited b Hsize;
    simpl; [returned|].
  destruct (generateFieldSchema_grows _ field (le_n _) visited b Hsize)
    as (r & v1 & b1 & -> & Hsub).
  destruct r as [fieldSchema|err]; [|returned].
  assert (size (dom reg ∖ v1) < bound) as Hsize1.
  { pose proof (unvisited_mono _ _ Hsub). lia. }
  match goal with
  | |- context [fieldsLoop _ _ rest properties ?req v1 ?b2] =>
      destruct (IH properties req v1 b2 Hsize1) as (r & v2 & b3 & -> & Hsub2)
  end.
  returned.
Qed.

Lemma oneofsLoop_grows oneofs :
  ∀ properties visited b,
    size (dom reg ∖ visited) < bound →
    ∃ r visited' b',
      oneofsLoop trim generateMessage oneofs properties visited b
        = Some (r, visited', b')
      ∧ visited ⊆ visited'.
Proof.
  induction oneofs as [|oneof rest IH]; intros properties visited b Hsize;
    simpl; [returned|].
  destruct (generateOneofSchema_grows oneof visited b Hsize)
    as (r & v1 & b1 & -> & Hsub).
  destruct r as [oneofSchema|err]; [|returned].
  assert (size (dom reg ∖ v1) < bound) as Hsize1.
  { pose proof (unvisited_mono _ _ Hsub). lia. }
  match goal with
  | |- context [oneofsLoop _ _ rest properties v1 ?b2] =>
      destruct (IH properties v1 b2 Hsize1) as (r & v2 & b3 & -> & Hsub2)
  end.
  returned.
Qed.
End Level.

Lemma generateMessageBody_grows generateMessage bound :
  grows reg generateMessage bound →
  grows reg (generateMessageBody reg trim generateMessage) (S bound).
Proof.
  intros Hrec desc visited b Hsize. unfold generateMessageBody.
  destruct desc as [desc|]; [|returned].
  destruct (decide (desc ∈ visited)) as [Hin|Hnot]; [returned|].
  destruct (schemaCache b !! desc) as [cached|]; [returned|].
  simpl.
  destruct (reg !! desc) as [body|] eqn:Hbody.
  - assert (size (dom reg ∖ (visited ∪ {[desc]})) < bound) as Hless.
    { assert (is_Some (reg !! desc)) as Hsome by (by exists body).
      pose proof (ExtractorFacts.unvisited_decreases reg desc visited Hsome Hnot).
      lia. }
    match goal with
    | |- context [fieldsLoop _ _ ?fs ?props ?req ?v ?b0] =>
        destruct (fieldsLoop_grows generateMessage bound Hrec fs props req v b0
                    Hless) as (r & v1 & b1 & -> & Hsub)
    end.
    destruct r as [required|err]; [|returned].
    assert (size (dom reg ∖ v1) < bound) as Hsize1.
    { pose proof (unvisited_mono _ _ Hsub). lia. }
    match goal with
    | |- context [oneofsLoop _ _ ?os ?props v1 ?b0] =>
        destruct (oneofsLoop_grows generateMessage bound Hrec os props v1 b0
                    Hsize1) as (r & v2 & b2 & -> & Hsub2)
    end.
    destruct r; returned.
  - unfold Fields, Oneofs. rewrite Hbody. simpl. returned.
Qed.

(** The builder's generator always returns. *)
Lemma generateMessageSchema_grows fuel :
  grows reg (generateMessageSchema reg trim fuel) fuel.
Proof.
  induction fuel as [|fuel IH].
  - intros desc visited b H. lia.
  - simpl. by apply generateMessageBody_grows.
Qed.

Lemma generateMessageSchema_total desc b :
  ∃ r visited' b',
    generateMessageSchema reg trim (enoughFuel reg) (Some desc) ∅ b
    = Some (r, visited', b').
Proof.
  destruct (generateMessageSchema_grows (enoughFuel reg) (Some desc) ∅ b)
    as (r & v & b' & H & _); [|eauto].
  unfold enoughFuel. rewrite difference_empty_L. lia.
Qed.


(** The scalar kinds: a new object with the literal of the kind, and the
    description of the field when it is not empty. *)
Lemma generateFieldSchema_scalar fuel field visited b literal :
  scalarLiteral (fdKind field) = Some literal →
  IsList field = false →
  fdMapKV field = None →
  ∃ b',
    generateFieldSchema reg trim fuel field visited b
      = Some (Ok (nextObject b), visited, b')
    ∧ objects b' !! nextObject b
      = Some (if decide (GetFieldDescription trim field = "") then literal
              else <["description" := VStr (GetFieldDescription trim field)]>
                     literal).
Proof.
  unfold generateFieldSchema.
  destruct field as [name kind card opt pres msg enum mapKV c l t]. simpl.
  intros Hlit Hlist ->.
  destruct kind; simpl in Hlit; try done; injection Hlit as <-;
    simpl; rewrite Hlist;
    (destruct (decide (GetFieldDescription trim _ = "")) as [Hd|Hd];
     eexists; (split; [reflexivity|]); simpl;
     [by rewrite lookup_insert_eq
     | by rewrite lookup_alter_eq, lookup_insert_eq]).
Qed.
End Facts.

End BuilderFacts.

(** ** The two schema compilers, compared *)
Module SchemaFacts.
Import Protoreflect Json.




(** The two compilers on the cycle of [Samples.cyclic]. *)
Lemma cycle_sample :
  Descriptors.ExtractMessageSchema Samples.cyclic "test.A"
    = Some (Ok Samples.cycleExtracted)
  ∧ Tools.messageSchemaJSON Samples.cyclic "test.A"
    = Some (Ok Samples.cycleGenerated).
Proof. split; vm_compute; reflexivity. Qed.

(** C7, at a failing input. [test.Root] has two fields, [x] and [y], of the
    same message type [test.Leaf]; neither is an ancestor of the other.  The
    builder never unmarks a name: after the call both names are still in
    the visited map, and the leaf under [y] is a {"$ref": ...} although no
    cycle is there.  The extractor, which unmarks on return, expands the
    leaf under both fields. *)
Theorem builder_never_unmarks :
  Tools.messageSchemaJSON Samples.diamond "test.Root"
    = Some (Ok Samples.rootGenerated)
  ∧ (match Tools.generateMessageSchema Samples.diamond GoStrings.trimSpaceASCII
             (Tools.enoughFuel Samples.diamond) (Some "test.Root") ∅
             Tools.NewBuilder with
     | Some (_, visited, _) => Some visited
     | None => None
     end) = Some ({[ "test.Root"; "test.Leaf" ]} : gset string)
  ∧ Descriptors.ExtractMessageSchema Samples.diamond "test.Root"
    = Some (Ok Samples.rootExtracted)
  ∧ Descriptors.extractMessageSchemaInternal Samples.diamond
      (Descriptors.enoughFuel Samples.diamond) "test.Root" ∅
    = Some (Ok Samples.rootExtracted, ∅).
Proof. repeat split; vm_compute; reflexivity. Qed.

(** The schema cache holds the objects themselves. A builder that has
    generated [test.A] of [Samples.cyclic] answers a later call for
    [test.B], made with a fresh visited map, from its cache: the field [a] is
    the reference to [test.A] that was made while [test.A] was marked,
    although [test.A] is no ancestor in this call, and the object carries
    the description that was written into it as the field [b] of
    [test.A]. *)
Lemma builder_cache_keeps_refs :
  (match Tools.schemaJSONFrom Samples.cyclic Tools.NewBuilder "test.A" with
   | Some (first, b) =>
       Some (first, fst <$> Tools.schemaJSONFrom Samples.cyclic b "test.B")
   | None => None
   end)
  = Some (Ok Samples.cycleGenerated, Some (Ok Samples.cachedB)).
Proof. vm_compute. reflexivity. Qed.

(** C4, as stated, fails for the builder. For a singular [uint32] field a
    new builder generates {"type": "integer", "minimum": 0, "description":
    "Field n"}: there is no "format", and there is a description. *)
Lemma builder_uint32_has_no_format :
  Tools.fieldSchemaJSON ∅ (scalarField "n" Uint32Kind)
    = Some (Ok Samples.uint32Generated)
  ∧ member "format" Samples.uint32Generated = None
  ∧ Some Samples.uint32Generated ≠ SpecTable.scalarSchema Uint32Kind.
Proof.
  split; [vm_compute; reflexivity|]. split; [vm_compute; reflexivity|].
  intros H. apply (f_equal (λ o, o ≫= member "format")) in H.
  vm_compute in H. discriminate.
Qed.

(** C4, as the code has it. For a singular field of a scalar kind the
    extractor emits exactly the schema of the fixed table (for an unsigned or
    fixed 32-bit kind: {"type": "integer", "format": "uint32", "minimum":
    0}).  The builder makes a new object that holds the literal of its own,
    coarser table (no "format" but for bytes; "minimum": 0 for the unsigned
    kinds) and, when the description of the field is not empty, a
    "description". *)
Theorem scalar_kinds_follow_the_tables
    (reg : gmap string MessageBody) (trim : string → string) (fuel : nat)
    (field : FieldDescriptor) (visited : gset string) (b : Tools.Builder)
    (schema : JSON) (literal : gmap string Tools.Val) :
  SpecTable.scalarSchema (fdKind field) = Some schema →
  Tools.scalarLiteral (fdKind field) = Some literal →
  IsList field = false →
  fdMapKV field = None →
  Descriptors.extractFieldTypeSchemaInternal reg fuel field visited
    = Some (Ok schema, visited)
  ∧ Descriptors.extractFieldSchemaInternal reg fuel field visited
    = Some (Ok schema, visited)
  ∧ ∃ b',
      Tools.generateFieldSchema reg trim fuel field visited b
        = Some (Ok (Tools.nextObject b), visited, b')
      ∧ Tools.objects b' !! Tools.nextObject b
        = Some (if decide (Tools.GetFieldDescription trim field = "") then literal
                else <["description" :=
                         Tools.VStr (Tools.GetFieldDescription trim field)]> literal).
Proof.
  intros Hschema Hliteral Hlist Hmap.
  assert (Descriptors.extractFieldTypeSchemaInternal reg fuel field visited
          = Some (Ok schema, visited)) as Htype.
  { unfold Descriptors.extractFieldTypeSchemaInternal,
      Descriptors.extractFieldTypeSchemaInternal_.
    destruct (fdKind field); simpl in Hschema; try done;
      by injection Hschema as <-. }
  split; [exact Htype|]. split.
  - unfold Descriptors.extractFieldSchemaInternal,
      Descriptors.extractFieldSchemaInternal_.
    rewrite Hlist, Hmap. exact Htype.
  - by apply BuilderFacts.generateFieldSchema_scalar.
Qed.

Lemma scalar_kinds_follow_the_tables_witness :
  Descriptors.extractFieldTypeSchemaInternal ∅ 0 (scalarField "n" Uint32Kind) ∅
    = Some (Ok (JObj (<["minimum" := JInt 0]>
                      (SpecTable.formatted "integer" "uint32"))), ∅)
  ∧ Descriptors.extractFieldSchemaInternal ∅ 0 (scalarField "n" Uint32Kind) ∅
    = Some (Ok (JObj (<["minimum" := JInt 0]>
                      (SpecTable.formatted "integer" "uint32"))), ∅)
  ∧ ∃ b',
      Tools.generateFieldSchema ∅ GoStrings.trimSpaceASCII 0
        (scalarField "n" Uint32Kind) ∅ Tools.NewBuilder
        = Some (Ok (Tools.nextObject Tools.NewBuilder), ∅, b')
      ∧ Tools.objects b' !! Tools.nextObject Tools.NewBuilder
        = Some (if decide (Tools.GetFieldDescription GoStrings.trimSpaceASCII
                             (scalarField "n" Uint32Kind) = "")
                then <["minimum" := Tools.VInt 0]>
                       (<["type" := Tools.VStr "integer"]> ∅)
                else <["description" :=
                         Tools.VStr (Tools.GetFieldDescription
                                       GoStrings.trimSpaceASCII
                                       (scalarField "n" Uint32Kind))]>
                       (<["minimum" := Tools.VInt 0]>
                        (<["type" := Tools.VStr "integer"]> ∅))).
Proof.
  apply (scalar_kinds_follow_the_tables ∅ GoStrings.trimSpaceASCII 0
           (scalarField "n" Uint32Kind) ∅ Tools.NewBuilder).
  - reflexivity.
  - reflexivity.
  - reflexivity.
  - reflexivity.
Defined.

End SchemaFacts.

(** ** Substrings *)
Module SubstringFacts.
Import GoStrings GoSubstrings.

Lemma prefix_dot (c : ascii) (rest : string) :
  String.prefix "." (String c rest) = bool_decide (c = "."%char).
Proof.
  change (String.prefix "." (String c rest))
    with (if ascii_dec "." c then String.prefix "" rest else false).
  destruct (ascii_dec "." c) as [<-|Hne].
  - by destruct rest.
  - rewrite bool_decide_eq_false_2; [done|]. congruence.
Qed.

Lemma Contains_dot_cons (c : ascii) (rest : string) :
  Contains (String c rest) "." = bool_decide (c = "."%char) || Contains rest ".".
Proof. cbn [Contains]. by rewrite prefix_dot. Qed.

Lemma length_append (a b : string) :
  String.length (a +:+ b) = String.length a + String.length b.
Proof. induction a as [|c a IH]; simpl; [done|]. by rewrite IH. Qed.

Lemma takeBytes_append (a b : string) : takeBytes (String.length a) (a +:+ b) = a.
Proof.
  induction a as [|c a IH]; simpl.
  - by destruct b.
  - by rewrite IH.
Qed.

Lemma slicePrefix_append (a b : string) :
  slicePrefix (a +:+ b) (Z.of_nat (String.length a)) = Some a.
Proof.
  unfold slicePrefix. rewrite length_append.
  destruct (decide _) as [_|Hno]; [|lia].
  by rewrite Nat2Z.id, takeBytes_append.
Qed.

Lemma splitFrom_no_dot (s : string) :
  Contains s "." = false → splitFrom "." s 0 = (s, []).
Proof.
  induction s as [|c s IH]; [done|].
  rewrite Contains_dot_cons. intros [Hc Hs]%orb_false_elim.
  cbn [splitFrom]. rewrite prefix_dot, Hc. by rewrite IH.
Qed.

Lemma splitFrom_dot_between (a b : string) :
  splitFrom "." (a +:+ "." +:+ b) 0
  = (fst (splitFrom "." a 0),
     snd (splitFrom "." a 0)
     ++ fst (splitFrom "." b 0) :: snd (splitFrom "." b 0)).
Proof.
  induction a as [|c a IH].
  - change ("" +:+ "." +:+ b) with (String "." b).
    cbn [splitFrom]. rewrite prefix_dot, bool_decide_eq_true_2 by done.
    cbn [String.length Nat.sub]. by destruct (splitFrom "." b 0).
  - change (String c a +:+ "." +:+ b) with (String c (a +:+ "." +:+ b)).
    cbn [splitFrom]. rewrite !prefix_dot. cbn [String.length Nat.sub].
    rewrite IH. destruct (bool_decide _); by destruct (splitFrom "." a 0).
Qed.

Lemma lastIndexFrom_no_dot (s : string) (i found : Z) :
  Contains s "." = false → lastIndexFrom "." s i found = found.
Proof.
  revert i found. induction s as [|c s IH]; intros i found; [done|].
  rewrite Contains_dot_cons. intros [Hc Hs]%orb_false_elim.
  cbn [lastIndexFrom]. rewrite prefix_dot, Hc. by apply IH.
Qed.

Lemma lastIndexFrom_dot_between (a b : string) (i found : Z) :
  Contains b "." = false →
  lastIndexFrom "." (a +:+ "." +:+ b) i found
  = (i + Z.of_nat (String.length a))%Z.
Proof.
  intros Hb. revert i found. induction a as [|c a IH]; intros i found.
  - change ("" +:+ "." +:+ b) with (String "." b).
    cbn [lastIndexFrom]. rewrite prefix_dot, bool_decide_eq_true_2 by done.
    rewrite lastIndexFrom_no_dot by done. simpl. lia.
  - change (String c a +:+ "." +:+ b) with (String c (a +:+ "." +:+ b)).
    cbn [lastIndexFrom]. rewrite IH. cbn [String.length]. lia.
Qed.

(** The last dot of [a.b], for [b] without a dot, is the one between the
    two. *)
Lemma LastIndex_dot_between (a b : string) :
  Contains b "." = false →
  LastIndex (a +:+ "." +:+ b) "." = Z.of_nat (String.length a).
Proof. intros Hb. unfold LastIndex. by rewrite lastIndexFrom_dot_between. Qed.

End SubstringFacts.

(** ** The reflection client *)
Module ReflectionFacts.
Import GoStrings GoSubstrings Protoreflect GrpcTypes Grpc Panics Reflection
  SubstringFacts.

(** Unfolds the monad of the client. *)
Ltac step :=
  unfold mbind, R_bind, mret, R_ret, netCall, cacheFile, newFile in *;
  simpl in *.

(** *** Filtering *)

Lemma filterLoop_filter (services filtered : list string) :
  filterLoop services filtered
  = filtered ++ filter (λ s, isInternalLoop s internalPrefixes = false) services.
Proof.
  revert filtered. induction services as [|s rest IH]; intros filtered.
  - by rewrite app_nil_r.
  - cbn [filterLoop]. rewrite IH.
    destruct (isInternalLoop s internalPrefixes) eqn:Hs; cbn [negb].
    + by rewrite filter_cons_False by (by rewrite Hs).
    + rewrite filter_cons_True by done. by rewrite <- app_assoc.
Qed.

Lemma isInternalLoop_false (s : string) (prefixes : list string) :
  isInternalLoop s prefixes = false
  ↔ Forall (λ prefix, HasPrefix s prefix = false) prefixes.
Proof.
  induction prefixes as [|p rest IH]; simpl.
  - split; [by constructor | done].
  - rewrite Forall_cons. destruct (HasPrefix s p); [|tauto].
    split; [done | by intros [? _]].
Qed.

Lemma filterInternalServices_filter (services : list string) :
  filterInternalServices services
  = filter (λ s, HasPrefix s "grpc.reflection." = false
                 ∧ HasPrefix s "grpc.health." = false
                 ∧ HasPrefix s "grpc.channelz." = false
                 ∧ HasPrefix s "grpc.testing." = false) services.
Proof.
  unfold filterInternalServices. rewrite filterLoop_filter. cbn [app].
  apply list_filter_iff. intros s. rewrite isInternalLoop_false.
  unfold internalPrefixes. rewrite !Forall_cons, Forall_nil. tauto.
Qed.

(** X1. [filterInternalServices] keeps, in their order, exactly the names
    that start with none of "grpc.reflection.", "grpc.health.",
    "grpc.channelz." and "grpc.testing."; filtering a filtered list
    changes nothing. *)
Theorem filterInternalServices_keeps_the_others (services : list string) :
  filterInternalServices services
  = filter (λ s, HasPrefix s "grpc.reflection." = false
                 ∧ HasPrefix s "grpc.health." = false
                 ∧ HasPrefix s "grpc.channelz." = false
                 ∧ HasPrefix s "grpc.testing." = false) services
  ∧ filterInternalServices (filterInternalServices services)
    = filterInternalServices services.
Proof.
  split; [apply filterInternalServices_filter|].
  rewrite !filterInternalServices_filter. apply list_filter_filter_l. tauto.
Qed.

(** *** Simple names *)

(** X2. The full name that [extractServicesFromFileDescriptor] builds for
    a service, [package.Name], is taken apart again by
    [getSimpleServiceName]: for a service name without a dot it returns
    that name, with and without a package in front. *)
Theorem simple_name_of_full_name (packageName name : string) :
  Contains name "." = false →
  getSimpleServiceName (packageName +:+ "." +:+ name) = name
  ∧ getSimpleServiceName name = name.
Proof.
  intros Hname. unfold getSimpleServiceName, Split.
  rewrite splitFrom_dot_between, !(splitFrom_no_dot name) by done.
  cbn [fst snd].
  split.
  - destruct (splitFrom "." packageName 0) as [piece pieces]. cbn [fst snd].
    destruct (decide _) as [_|Hlen]; [|simpl in Hlen; lia].
    change (piece :: pieces ++ [name]) with ((piece :: pieces) ++ [name]).
    by rewrite last_snoc.
  - by destruct (decide _).
Qed.

Lemma simple_name_of_full_name_witness :
  Contains "Greeter" "." = false
  ∧ getSimpleServiceName ("com.example" +:+ "." +:+ "Greeter") = "Greeter"
  ∧ getSimpleServiceName "Greeter" = "Greeter".
Proof.
  split; [reflexivity|].
  apply (simple_name_of_full_name "com.example" "Greeter"). reflexivity.
Defined.

(** *** Services of a file *)

Section Files.
Variable pd : Protodesc.

Lemma methodsLoop_full_names fullServiceName methods fileDescriptor acc :
  Forall (λ m, FullName m = fullServiceName +:+ "." +:+ Name m) acc →
  Forall (λ m, FullName m = fullServiceName +:+ "." +:+ Name m)
         (methodsLoop pd fullServiceName methods fileDescriptor acc).
Proof.
  revert acc. induction methods as [|method rest IH]; intros acc Hacc; [done|].
  cbn [methodsLoop].
  destruct (createMethodInfo pd fullServiceName method fileDescriptor)
    as [methodInfo|err] eqn:Hc; [|by apply IH].
  apply IH, Forall_app. split; [done|]. apply Forall_singleton.
  unfold createMethodInfo in Hc.
  destruct (resolveMessageDescriptor _ _ _); [|done].
  destruct (resolveMessageDescriptor _ _ _); [|done].
  by injection Hc as <-.
Qed.

Lemma servicesLoop_names fileDescriptor targetServices fileServices acc :
  dsName <$> servicesLoop pd fileDescriptor (list_to_set targetServices)
                          fileServices acc
  = (dsName <$> acc)
    ++ filter (λ name, name ∈ targetServices)
              (serviceFullName (snd fileDescriptor) <$> fileServices).
Proof.
  revert acc. induction fileServices as [|service rest IH]; intros acc.
  - by rewrite app_nil_r.
  - cbn [servicesLoop fmap list_fmap].
    change (if decide (fdpPackage (snd fileDescriptor) = "")
            then sdpName service
            else fdpPackage (snd fileDescriptor) +:+ "." +:+ sdpName service)
      with (serviceFullName (snd fileDescriptor) service).
    destruct (decide (serviceFullName (snd fileDescriptor) service
                      ∈ (list_to_set targetServices : gset string)))
      as [Hin|Hnot]; rewrite elem_of_list_to_set in *.
    + rewrite IH, filter_cons_True by done.
      rewrite fmap_app. cbn [fmap list_fmap dsName]. by rewrite <- app_assoc.
    + by rewrite IH, filter_cons_False by done.
Qed.

Lemma servicesLoop_services fileDescriptor targets fileServices acc
    (P : DiscoveredService → Prop) :
  (∀ service,
     P {| dsName := serviceFullName (snd fileDescriptor) service;
          dsMethods := methodsLoop pd (serviceFullName (snd fileDescriptor) service)
                                   (sdpMethod service) fileDescriptor [];
          dsFileDescriptor := Some (fst fileDescriptor) |}) →
  Forall P acc →
  Forall P (servicesLoop pd fileDescriptor targets fileServices acc).
Proof.
  intros HP. revert acc.
  induction fileServices as [|service rest IH]; intros acc Hacc; [done|].
  cbn [servicesLoop].
  change (if decide (fdpPackage (snd fileDescriptor) = "")
          then sdpName service
          else fdpPackage (snd fileDescriptor) +:+ "." +:+ sdpName service)
    with (serviceFullName (snd fileDescriptor) service).
  destruct (decide _); [|by apply IH].
  apply IH, Forall_app. split; [done|]. by apply Forall_singleton.
Qed.

(** X3. The services that [extractServicesFromFileDescriptor] returns are
    the services of the file whose full name ([package.Name], or [Name] for
    a file without a package) is in the target list, in the order of the
    file, whether or not the descriptors of their methods resolve.  Each
    carries the pointer to the file, and the full name of each of its
    methods is [service.Method]. *)
Theorem extracted_services_are_the_targets
    (fileDescriptor : FilePtr) (targetServices : list string) :
  dsName <$> extractServicesFromFileDescriptor pd fileDescriptor targetServices
  = filter (λ name, name ∈ targetServices)
           (serviceFullName (snd fileDescriptor)
              <$> fdpService (snd fileDescriptor))
  ∧ Forall (λ s, dsFileDescriptor s = Some (fst fileDescriptor)
                 ∧ Forall (λ m, FullName m = dsName s +:+ "." +:+ Name m)
                          (dsMethods s))
           (extractServicesFromFileDescriptor pd fileDescriptor targetServices).
Proof.
  unfold extractServicesFromFileDescriptor. split.
  - by rewrite servicesLoop_names.
  - apply servicesLoop_services; [|done].
    intros service. split; [done|]. cbn [dsMethods dsName].
    by apply methodsLoop_full_names.
Qed.

(** *** Discovery *)

Section Discovery.
Variable env : Net.
Variable rangeOver : gmap string FilePtr → list (string * FilePtr).

Lemma collectLoop_collected targets fileServices services processed :
  Forall (λ s, dsName s ∈ targets) fileServices →
  collected targets services processed →
  collected targets (fst (collectLoop fileServices services processed))
                    (snd (collectLoop fileServices services processed)).
Proof.
  revert services processed.
  induction fileServices as [|s rest IH]; intros services processed Hall Hinv;
    [done|].
  apply Forall_cons in Hall as [Hs Hrest]. cbn [collectLoop].
  destruct (decide (dsName s ∈ processed)) as [Hin|Hnot]; [by apply IH|].
  apply IH; [done|]. destruct Hinv as (Hnodup & Hsame & Htargets).
  split; [|split].
  - rewrite fmap_app. apply NoDup_app. split; [done|]. split.
    + intros name Hname. cbn. rewrite list_elem_of_singleton. intros ->.
      by apply Hnot, Hsame.
    + apply NoDup_singleton.
  - intros name. rewrite fmap_app, elem_of_app, elem_of_union, Hsame. cbn.
    by rewrite list_elem_of_singleton, elem_of_singleton.
  - apply Forall_app. split; [done|]. by apply Forall_singleton.
Qed.

Lemma processLoop_collected targets files services processed :
  collected targets services processed →
  ∃ processed',
    collected targets (processLoop pd files targets services processed)
              processed'.
Proof.
  revert services processed.
  induction files as [|[fileName fileDescriptor] rest IH];
    intros services processed Hinv; [by exists processed|].
  cbn [processLoop].
  pose proof (collectLoop_collected targets
                (extractServicesFromFileDescriptor pd fileDescriptor targets)
                services processed) as Hstep.
  destruct (collectLoop _ services processed) as [services' processed'].
  apply IH, Hstep; [|done].
  apply Forall_forall. intros s Hs.
  assert (dsName s ∈ dsName <$> extractServicesFromFileDescriptor
                                   pd fileDescriptor targets) as Hname
    by (by apply list_elem_of_fmap_2).
  unfold extractServicesFromFileDescriptor in Hname.
  rewrite servicesLoop_names in Hname.
  by apply list_elem_of_filter in Hname as [? _].
Qed.

(** X4. When [DiscoverServices] of the reflection client succeeds, no
    service name occurs twice in its result, and every service it returns
    was listed by the server and bears none of the internal prefixes:
    whatever the server answers, and whatever order the map of file
    descriptors is ranged over. *)
Theorem discovery_returns_each_listed_service_once
    (ctx : Context) (r r' : reflectionClient)
    (services : list DiscoveredService) :
  DiscoverServices env pd rangeOver ctx r = (Ok services, r') →
  ∃ serviceNames,
    fst (listServices env ctx r) = Ok serviceNames
    ∧ NoDup (dsName <$> services)
    ∧ Forall (λ s, dsName s ∈ serviceNames
                   ∧ HasPrefix (dsName s) "grpc.reflection." = false
                   ∧ HasPrefix (dsName s) "grpc.health." = false
                   ∧ HasPrefix (dsName s) "grpc.channelz." = false
                   ∧ HasPrefix (dsName s) "grpc.testing." = false) services.
Proof.
  unfold DiscoverServices.
  unfold mbind at 1, R_bind.
  destruct (listServices env ctx r) as [[serviceNames|err] r1]; [|done].
  unfold mbind, R_bind.
  destruct (filesLoop env ctx _ ∅ r1) as [fileDescriptorMap r2].
  unfold mret, R_ret. intros [= <- <-].
  exists serviceNames. split; [done|].
  destruct (processLoop_collected (filterInternalServices serviceNames)
              (rangeOver fileDescriptorMap) [] ∅) as (processed & Hnodup & _ & Hall).
  { split; [constructor|]. split; [|constructor].
    intros name. cbn. rewrite elem_of_nil. set_solver. }
  split; [done|].
  eapply Forall_impl; [exact Hall|].
  intros s Hs. cbn in Hs. rewrite filterInternalServices_filter in Hs.
  apply list_elem_of_filter in Hs. tauto.
Qed.

(** X5. A file descriptor that [getFileDescriptorBySymbol] has returned
    for a symbol is cached: every later lookup of the symbol returns the
    same pointer and leaves the client as it is, without a call on the
    network.  A lookup that fails caches nothing. *)
Theorem file_descriptors_are_cached
    (ctx ctx' : Context) (symbol : string) (r : reflectionClient) :
  match getFileDescriptorBySymbol env ctx symbol r with
  | (Ok fd, r1) => getFileDescriptorBySymbol env ctx' symbol r1 = (Ok fd, r1)
  | (Err _, r1) => fdCache r1 = fdCache r
  end.
Proof.
  unfold getFileDescriptorBySymbol.
  destruct (fdCache r !! symbol) as [fd|] eqn:Hcache.
  { by rewrite Hcache. }
  step. destruct (netOpen env (net r) ctx); [done|].
  destruct (netSend env _ _); [done|].
  destruct (netRecv env _) as [[names|protos|]|err]; [done| |done|done].
  destruct protos as [|bytes protos]; [done|].
  destruct (unmarshalFile env bytes) as [fileDescriptor|err]; [|done].
  destruct (decide (fdpName fileDescriptor = "")) as [Hname|Hname]; simpl.
  - by rewrite lookup_insert_eq.
  - destruct (decide (fdpName fileDescriptor = symbol)) as [->|Hne].
    + by rewrite lookup_insert_eq.
    + by rewrite lookup_insert_ne, lookup_insert_eq.
Qed.

(** *** Invocation *)

(** X6. A method made by [createMethodInfo] for a service, with a method
    name that holds no dot, is invoked on the wire under the path
    [/service/Method]: [InvokeMethod] does not panic, every call it makes
    on the connection is the one [conn.Invoke] under that path and the
    context of the caller, and an input of "" or "{}" is not parsed: the
    call is made with the empty message. *)
Theorem methods_are_invoked_by_path
    (serviceName : string) (mdp : MethodDescriptorProto)
    (fileDescriptor : FilePtr) (method : MethodInfo)
    (ctx : Context) (inputJSON : string) (r : reflectionClient) :
  createMethodInfo pd serviceName mdp fileDescriptor = Ok method →
  Contains (mdpName mdp) "." = false →
  fst (InvokeMethod env ctx method inputJSON r) ≠ Panics
  ∧ (∃ made : list string,
       net (snd (InvokeMethod env ctx method inputJSON r))
       = net r ++ (NetInvoke ctx ("/" +:+ serviceName +:+ "/" +:+ mdpName mdp)
                     <$> made)
       ∧ length made ≤ 1
       ∧ (inputJSON = "" ∨ inputJSON = "{}" → made = ["{}"])).
Proof.
  intros Hmethod Hname. unfold createMethodInfo in Hmethod.
  destruct (resolveMessageDescriptor _ _ _) as [inputDescriptor|]; [|done].
  destruct (resolveMessageDescriptor _ _ _) as [outputDescriptor|]; [|done].
  injection Hmethod as <-. unfold InvokeMethod. cbn [InputDescriptor
    OutputDescriptor FullName Name].
  rewrite LastIndex_dot_between, slicePrefix_append by done.
  set (parsed := if bool_decide (inputJSON ≠ "") && bool_decide (inputJSON ≠ "{}")
                 then unmarshalJSON env inputDescriptor inputJSON
                 else Ok "{}").
  assert (inputJSON = "" ∨ inputJSON = "{}" → parsed = Ok "{}") as Hskip.
  { intros [->| ->]; done. }
  destruct parsed as [inputMsg|err].
  - step. split.
    + destruct (netInvoke env _ _ _ _) as [outputMsg|err]; [|done].
      by destruct (marshalJSON env _ _).
    + exists [inputMsg]. split; [|split; [simpl; lia|]].
      * destruct (netInvoke env _ _ _ _) as [outputMsg|err]; [|done].
        by destruct (marshalJSON env _ _).
      * intros H. specialize (Hskip H). by injection Hskip as ->.
  - step. split; [done|]. exists []. split; [by rewrite app_nil_r|].
    split; [simpl; lia|]. intros H. by specialize (Hskip H).
Qed.
End Discovery.
End Files.

Lemma discovery_returns_each_listed_service_once_witness :
  ∃ services r',
    DiscoverServices Fixtures.helloNet Fixtures.helloRuntime map_to_list
                     Background (NewReflectionClient 7)
      = (Ok services, r')
    ∧ dsName <$> services = ["hello.HelloService"]
    ∧ ∃ serviceNames,
        fst (listServices Fixtures.helloNet Background (NewReflectionClient 7))
          = Ok serviceNames
        ∧ NoDup (dsName <$> services)
        ∧ Forall (λ s, dsName s ∈ serviceNames
                       ∧ HasPrefix (dsName s) "grpc.reflection." = false
                       ∧ HasPrefix (dsName s) "grpc.health." = false
                       ∧ HasPrefix (dsName s) "grpc.channelz." = false
                       ∧ HasPrefix (dsName s) "grpc.testing." = false)
                 services.
Proof.
  eexists _, _. split; [vm_compute; reflexivity|].
  split; [reflexivity|].
  eapply (discovery_returns_each_listed_service_once
            Fixtures.helloRuntime Fixtures.helloNet map_to_list
            Background (NewReflectionClient 7)).
  vm_compute. reflexivity.
Defined.

Lemma methods_are_invoked_by_path_witness :
  fst (InvokeMethod Fixtures.quietNet Background Fixtures.sayHello "{}"
         (NewReflectionClient 7)) ≠ Panics
  ∧ (∃ made : list string,
       net (snd (InvokeMethod Fixtures.quietNet Background Fixtures.sayHello "{}"
                   (NewReflectionClient 7)))
       = net (NewReflectionClient 7)
         ++ (NetInvoke Background
               ("/" +:+ "hello.HelloService" +:+ "/" +:+ "SayHello") <$> made)
       ∧ length made ≤ 1
       ∧ ("{}" = "" ∨ "{}" = "{}" → made = ["{}"])).
Proof.
  apply (methods_are_invoked_by_path Fixtures.helloRuntime Fixtures.quietNet
           "hello.HelloService" Fixtures.sayHelloProto (0, Fixtures.helloFile)
           Fixtures.sayHello Background "{}" (NewReflectionClient 7)).
  - reflexivity.
  - reflexivity.
Defined.

End ReflectionFacts.

(** ** The connection manager *)
Module ConnManagerFacts.
Import Grpc ConnManager.

(** Unfolds the monad of the manager. *)
Ltac exec :=
  unfold mbind, C_bind, mret, C_ret, self, setConn, libCall, clock in *;
  simpl in *.

Section Facts.
Variable lib : Lib.

(** X7. [Close] closes the connection the manager holds, if it holds
    one, and returns what that call returned; afterwards the manager holds
    no connection, and a second [Close] returns nil without a call on the
    library. *)
Theorem Close_drops_the_connection (cm : connectionManager) :
  conn (snd (Close lib cm)) = None
  ∧ calls (snd (Close lib cm))
    = calls cm ++ match conn cm with Some c => [LibClose c] | None => [] end
  ∧ fst (Close lib cm)
    = match conn cm with
      | Some c => libClose lib (calls cm) c
      | None => None
      end
  ∧ Close lib (snd (Close lib cm)) = (None, snd (Close lib cm)).
Proof.
  unfold Close. exec. destruct cm as [cfg [c|] tr]; simpl.
  - done.
  - by rewrite app_nil_r.
Qed.

Lemma healthCheckLocked_conn ctx cm :
  conn (snd (healthCheckLocked lib ctx cm)) = conn cm.
Proof.
  unfold healthCheckLocked. exec. destruct (conn cm) as [c|] eqn:Hc; [|done].
  destruct (bool_decide (_ ∨ _)); [done|].
  destruct (bool_decide (_ ≠ Ready)); [|done]. simpl.
  destruct (libWaitForStateChange _ _ _ _ _); simpl; [|done].
  match goal with
  | |- context [bool_decide (?s ≠ Ready)] => by destruct (bool_decide (s ≠ Ready))
  end.
Qed.

(** A health check that passes ends on a [GetState] call answered
    [Ready]. *)
Lemma healthCheckLocked_ready ctx cm :
  fst (healthCheckLocked lib ctx cm) = None →
  ∃ c run,
    conn cm = Some c
    ∧ calls (snd (healthCheckLocked lib ctx cm)) = calls cm ++ run
    ∧ last (observed lib (calls cm) run) = Some Ready
    ∧ closed run = []
    ∧ dialled run = [].
Proof.
  unfold healthCheckLocked. exec. destruct (conn cm) as [c|] eqn:Hc; [|done].
  destruct (bool_decide (_ ∨ _)) eqn:Hbad; [done|].
  destruct (bool_decide (_ ≠ Ready)) eqn:Hnot; simpl.
  - destruct (libWaitForStateChange _ _ _ _ _); simpl; [|done].
    match goal with
    | |- context [bool_decide (?s ≠ Ready)] =>
        destruct (bool_decide (s ≠ Ready)) eqn:Hnot2
    end; simpl; [done|].
    intros _. apply bool_decide_eq_false in Hnot2.
    apply dec_stable in Hnot2.
    eexists c, [LibGetState c; LibWaitForStateChange c _ _; LibGetState c].
    split; [done|]. split; [by rewrite <- !app_assoc|].
    split; [|done]. simpl. by rewrite Hnot2.
  - intros _. apply bool_decide_eq_false in Hnot. apply dec_stable in Hnot.
    exists c, [LibGetState c]. split; [done|]. split; [done|].
    split; [|done]. simpl. by rewrite Hnot.
Qed.

(** X8. [HealthCheck] of the manager returns nil only when it holds a
    connection and the last state the library reported for it is [Ready];
    the check closes nothing and dials nothing, and the manager holds the
    same connection afterwards. *)
Theorem HealthCheck_passes_only_when_ready
    (ctx : Context) (cm : connectionManager) :
  fst (HealthCheck lib ctx cm) = None →
  ∃ c run,
    conn cm = Some c
    ∧ conn (snd (HealthCheck lib ctx cm)) = Some c
    ∧ calls (snd (HealthCheck lib ctx cm)) = calls cm ++ run
    ∧ last (observed lib (calls cm) run) = Some Ready
    ∧ closed run = []
    ∧ dialled run = [].
Proof.
  intros Hok. unfold HealthCheck in *.
  destruct (healthCheckLocked_ready ctx cm Hok)
    as (c & run & Hc & Hrun & Hlast & Hclosed & Hdialled).
  exists c, run. rewrite healthCheckLocked_conn. done.
Qed.

Lemma observed_app before run1 run2 :
  observed lib before (run1 ++ run2)
  = observed lib before run1 ++ observed lib (before ++ run1) run2.
Proof.
  revert before. induction run1 as [|ev run1 IH]; intros before; simpl.
  - by rewrite app_nil_r.
  - rewrite IH, <- !app_assoc. done.
Qed.

Lemma connections_app before run1 run2 :
  connections lib before (run1 ++ run2)
  = connections lib before run1 ++ connections lib (before ++ run1) run2.
Proof.
  revert before. induction run1 as [|ev run1 IH]; intros before; simpl.
  - by rewrite app_nil_r.
  - rewrite IH, <- !app_assoc. done.
Qed.

Lemma connections_none before run :
  dialled run = [] → connections lib before run = [].
Proof.
  revert before. induction run as [|ev run IH]; intros before; [done|].
  destruct ev; simpl; try done; by apply IH.
Qed.

Lemma closed_app run1 run2 : closed (run1 ++ run2) = closed run1 ++ closed run2.
Proof. apply omap_app. Qed.

Lemma dialled_app run1 run2 :
  dialled (run1 ++ run2) = dialled run1 ++ dialled run2.
Proof. apply omap_app. Qed.

(** The first steps of [Connect]: the connection held is closed, then the
    library dials. *)
Lemma Connect_dials ctx cm :
  let before := calls cm
                ++ match conn cm with Some old => [LibClose old] | None => [] end in
  let connectCtx :=
    WithTimeout (libClock lib before) ctx (ConnectTimeout (config cm)) in
  let target := Host (config cm) +:+ ":" +:+ pretty (Port (config cm)) in
  let opts :=
    {| keepaliveParams := KeepAlive (config cm);
       maxCallRecvMsgSize := MaxMessageSize (config cm);
       maxCallSendMsgSize := MaxMessageSize (config cm) |} in
  let dial := LibDial connectCtx target opts in
  Connect lib ctx cm
  = match libDial lib before connectCtx target opts with
    | Err err =>
        (Some (ErrConnect err),
         {| config := config cm; conn := conn cm; calls := before ++ [dial] |})
    | Ok c =>
        let cm1 := {| config := config cm; conn := Some c;
                      calls := before ++ [dial] |} in
        match healthCheckLocked lib ctx cm1 with
        | (Some err, cm2) =>
            (Some (ErrHealthCheck err),
             {| config := config cm2; conn := None;
                calls := calls cm2 ++ [LibClose c] |})
        | (None, cm2) => (None, cm2)
        end
    end.
Proof.
  unfold Connect. exec. destruct cm as [cfg [old|] tr]; simpl.
  - destruct (libDial _ _ _ _ _) as [c|err]; [|done].
    by destruct (healthCheckLocked _ _ _) as [[err|] cm2].
  - rewrite app_nil_r.
    destruct (libDial _ _ _ _ _) as [c|err]; [|done].
    by destruct (healthCheckLocked _ _ _) as [[err|] cm2].
Qed.

(** X9. A [Connect] that returns nil leaves the manager with the
    connection that the library dialled in this call, after the library
    reported it [Ready]; the connection held before was closed first, and
    the new one was not closed. *)
Theorem Connect_succeeds_only_when_ready
    (ctx : Context) (cm : connectionManager) :
  fst (Connect lib ctx cm) = None →
  ∃ c run,
    conn (snd (Connect lib ctx cm)) = Some c
    ∧ calls (snd (Connect lib ctx cm)) = calls cm ++ run
    ∧ last (observed lib (calls cm) run) = Some Ready
    ∧ closed run = match conn cm with Some old => [old] | None => [] end
    ∧ connections lib (calls cm) run = [c].
Proof.
  rewrite Connect_dials. cbn zeta.
  set (before := calls cm ++ match conn cm with
                             | Some old => [LibClose old] | None => [] end).
  destruct (libDial lib before _ _ _) as [c|err] eqn:Hdial; [|done].
  match goal with
  | |- context [healthCheckLocked lib ctx ?cm1] =>
      pose proof (healthCheckLocked_ready ctx cm1) as Hready;
      pose proof (healthCheckLocked_conn ctx cm1) as Hconn;
      destruct (healthCheckLocked lib ctx cm1) as [[err|] cm2]
  end; [done|].
  intros _. cbn [fst snd conn calls] in *.
  destruct (Hready eq_refl) as (c' & run & [= <-] & Hcalls & Hlast & Hclosed & Hdialled).
  match goal with
  | H : calls cm2 = (before ++ [?dial]) ++ run |- _ =>
      exists c, (match conn cm with Some old => [LibClose old] | None => [] end
                 ++ [dial] ++ run)
  end.
  split; [done|]. split.
  { rewrite Hcalls. unfold before. by rewrite <- !app_assoc. }
  split.
  { rewrite !observed_app, !last_app. fold before. by rewrite Hlast. }
  split.
  - rewrite !closed_app, Hclosed. by destruct (conn cm).
  - rewrite !connections_app. fold before.
    rewrite (connections_none _ run Hdialled). cbn [connections].
    rewrite Hdial. by destruct (conn cm).
Qed.

(** What a health check adds to the calls: no dial. *)
Lemma healthCheckLocked_calls ctx cm :
  ∃ run,
    calls (snd (healthCheckLocked lib ctx cm)) = calls cm ++ run
    ∧ dialled run = [].
Proof.
  unfold healthCheckLocked. exec.
  destruct (conn cm) as [c|]; [|exists []; by rewrite app_nil_r].
  destruct (bool_decide (_ ∨ _)); [by eexists [_]|].
  destruct (bool_decide (_ ≠ Ready)); simpl; [|by eexists [_]].
  destruct (libWaitForStateChange _ _ _ _ _); simpl.
  - match goal with
    | |- context [bool_decide (?s ≠ Ready)] =>
        destruct (bool_decide (s ≠ Ready))
    end; eexists [_; _; _]; by rewrite <- !app_assoc.
  - eexists [_; _]. by rewrite <- !app_assoc.
Qed.

(** X10. A [Connect] that fails: when the library cannot dial, no
    connection is made and the manager keeps the handle it held, although
    that connection was closed at the start of the call; when the new
    connection does not pass the health check, closing it is the last
    thing the call does, and the manager holds no connection. *)
Theorem Connect_failure_leaves_no_live_connection
    (ctx : Context) (cm : connectionManager) (err : error) :
  fst (Connect lib ctx cm) = Some err →
  ∃ run,
    calls (snd (Connect lib ctx cm)) = calls cm ++ run
    ∧ ((∃ cause, err = ErrConnect cause)
       ∧ connections lib (calls cm) run = []
       ∧ conn (snd (Connect lib ctx cm)) = conn cm
       ∧ closed run = match conn cm with Some old => [old] | None => [] end
       ∨ (∃ cause c, err = ErrHealthCheck cause
                     ∧ connections lib (calls cm) run = [c]
                     ∧ last run = Some (LibClose c))
         ∧ conn (snd (Connect lib ctx cm)) = None).
Proof.
  rewrite Connect_dials. cbn zeta.
  set (before := calls cm ++ match conn cm with
                             | Some old => [LibClose old] | None => [] end).
  destruct (libDial lib before _ _ _) as [c|cause] eqn:Hdial.
  - match goal with
    | |- context [healthCheckLocked lib ctx ?cm1] =>
        destruct (healthCheckLocked_calls ctx cm1) as (run & Hrun & Hdialled);
        destruct (healthCheckLocked lib ctx cm1) as [[cause|] cm2]
    end; [|done].
    intros [= <-]. cbn [fst snd conn calls] in *.
    eexists (match conn cm with Some old => [LibClose old] | None => [] end
             ++ [_] ++ run ++ [LibClose c]).
    split.
    { rewrite Hrun. unfold before. by rewrite <- !app_assoc. }
    right. split; [|done]. exists cause, c. split; [done|].
    split.
    + rewrite !connections_app. fold before.
      rewrite (connections_none _ run Hdialled). cbn [connections].
      rewrite Hdial. by destruct (conn cm).
    + by rewrite !app_assoc, last_snoc.
  - intros [= <-]. cbn [fst snd conn calls].
    eexists (match conn cm with Some old => [LibClose old] | None => [] end
             ++ [_]).
    split; [unfold before; by rewrite <- !app_assoc|].
    left. split; [by exists cause|]. split; [|split; [done|]].
    + rewrite connections_app. fold before. cbn [connections].
      rewrite Hdial. by destruct (conn cm).
    + rewrite closed_app. simpl. rewrite app_nil_r. by destruct (conn cm).
Qed.
End Facts.

Lemma HealthCheck_passes_only_when_ready_witness :
  ∃ c run,
    conn ManagerFixtures.holding = Some c
    ∧ conn (snd (HealthCheck ManagerFixtures.readyLib Background
                   ManagerFixtures.holding)) = Some c
    ∧ calls (snd (HealthCheck ManagerFixtures.readyLib Background
                    ManagerFixtures.holding))
      = calls ManagerFixtures.holding ++ run
    ∧ last (observed ManagerFixtures.readyLib
              (calls ManagerFixtures.holding) run) = Some Ready
    ∧ closed run = []
    ∧ dialled run = [].
Proof.
  apply (HealthCheck_passes_only_when_ready ManagerFixtures.readyLib
           Background ManagerFixtures.holding).
  reflexivity.
Defined.

Lemma Connect_succeeds_only_when_ready_witness :
  ∃ c run,
    conn (snd (Connect ManagerFixtures.readyLib Background
                 ManagerFixtures.holding)) = Some c
    ∧ calls (snd (Connect ManagerFixtures.readyLib Background
                    ManagerFixtures.holding))
      = calls ManagerFixtures.holding ++ run
    ∧ last (observed ManagerFixtures.readyLib
              (calls ManagerFixtures.holding) run) = Some Ready
    ∧ closed run = match conn ManagerFixtures.holding with
                   | Some old => [old]
                   | None => []
                   end
    ∧ connections ManagerFixtures.readyLib (calls ManagerFixtures.holding) run
      = [c].
Proof.
  apply (Connect_succeeds_only_when_ready ManagerFixtures.readyLib
           Background ManagerFixtures.holding).
  reflexivity.
Defined.

Lemma Connect_failure_leaves_no_live_connection_witness :
  ∃ run,
    calls (snd (Connect ManagerFixtures.deadLib Background
                  ManagerFixtures.holding))
    = calls ManagerFixtures.holding ++ run
    ∧ ((∃ cause,
          ErrConnect (ErrLibrary "context deadline exceeded") = ErrConnect cause)
       ∧ connections ManagerFixtures.deadLib (calls ManagerFixtures.holding) run
         = []
       ∧ conn (snd (Connect ManagerFixtures.deadLib Background
                      ManagerFixtures.holding))
         = conn ManagerFixtures.holding
       ∧ closed run = match conn ManagerFixtures.holding with
                      | Some old => [old]
                      | None => []
                      end
       ∨ (∃ cause c,
            ErrConnect (ErrLibrary "context deadline exceeded")
            = ErrHealthCheck cause
            ∧ connections ManagerFixtures.deadLib
                (calls ManagerFixtures.holding) run = [c]
            ∧ last run = Some (LibClose c))
         ∧ conn (snd (Connect ManagerFixtures.deadLib Background
                        ManagerFixtures.holding)) = None).
Proof.
  apply (Connect_failure_leaves_no_live_connection ManagerFixtures.deadLib
           Background ManagerFixtures.holding
           (ErrConnect (ErrLibrary "context deadline exceeded"))).
  reflexivity.
Defined.

End ConnManagerFacts.

(** ** More on the service discoverer *)
Module CatalogFacts.
Import GrpcTypes Grpc DiscovererFacts CatalogViews.

Lemma findMethod_firstNamed methods methodName :
  findMethod methods methodName = firstNamed methods methodName.
Proof.
  unfold firstNamed. induction methods as [|method rest IH]; [done|].
  cbn [findMethod]. destruct (decide (Name method = methodName)) as [Heq|Hne].
  - by rewrite filter_cons_True.
  - by rewrite filter_cons_False.
Qed.

(** X11. [GetMethod] returns the first method of the service that bears
    the name, in the order of the service's [Methods], and the zero
    [MethodInfo] with [false] when the catalog has no such service or the
    service no such method. *)
Theorem GetMethod_returns_the_first_match
    (d : serviceDiscoverer) (st : Store) (serviceName methodName : string) :
  GetMethod d st serviceName methodName
  = match catalog d st !! serviceName with
    | Some methods => firstNamed methods methodName
    | None => (noMethod, false)
    end.
Proof.
  unfold GetMethod, GetService, catalog. rewrite lookup_fmap.
  destruct (services d !! serviceName) as [service|]; [|done].
  apply findMethod_firstNamed.
Qed.

(** *** What discovery stores *)

Lemma catalog_newSlice d st ms :
  allocated d st → catalog d (snd (newSlice st ms)) = catalog d st.
Proof.
  intros Hal. unfold catalog. apply map_fmap_ext. intros name service Hs.
  destruct (Methods service) as [|a n] eqn:Hm; [done|].
  simpl. rewrite lookup_insert_ne; [done|].
  specialize (Hal name service a n Hs Hm). lia.
Qed.

Lemma elems_newSlice st ms : elems (snd (newSlice st ms)) (fst (newSlice st ms)) = ms.
Proof. simpl. rewrite lookup_insert_eq. simpl. by rewrite take_ge. Qed.

(** Storing one service under [name], over a fresh slice that holds
    [ms]. *)
Lemma store_one d st name fileDescriptor ms :
  allocated d st →
  let d' := {| reflectionClient := reflectionClient d;
               services := <[name := {| svcName := name;
                                         Methods := fst (newSlice st ms);
                                         FileDescriptor := fileDescriptor |}]>
                           (services d);
               descriptorConfig := descriptorConfig d;
               reconnectInterval := reconnectInterval d;
               maxReconnectAttempts := maxReconnectAttempts d |} in
  catalog d' (snd (newSlice st ms)) = <[name := ms]> (catalog d st)
  ∧ allocated d' (snd (newSlice st ms)).
Proof.
  intros Hal. split.
  - unfold catalog at 1. cbn [services]. rewrite fmap_insert. cbn [Methods].
    rewrite elems_newSlice. f_equal. by apply catalog_newSlice.
  - intros name' service a n. cbn [services]. intros Hs Hm.
    destruct (decide (name = name')) as [<-|Hne].
    + rewrite lookup_insert_eq in Hs. injection Hs as <-.
      simpl in Hm. injection Hm as <- _. simpl. lia.
    + rewrite lookup_insert_ne in Hs by done.
      specialize (Hal name' service a n Hs Hm). simpl. lia.
Qed.

Lemma storeDiscovered_stored l d w :
  allocated d (store w) →
  catalog (fst (snd (storeDiscovered l (d, w))))
          (store (snd (snd (storeDiscovered l (d, w)))))
  = stored (catalog d (store w)) (byName <$> l)
  ∧ trace (snd (snd (storeDiscovered l (d, w)))) = trace w.
Proof.
  revert d w. induction l as [|s rest IH]; intros d w Hal; [done|].
  cbn [storeDiscovered]. run.
  destruct (store_one d (store w) (dsName s) (dsFileDescriptor s) (dsMethods s)
              Hal) as [Hcat Hal'].
  match goal with
  | |- context [storeDiscovered rest (?d1, ?w1)] =>
      destruct (IH d1 w1 Hal') as [IHcat IHtrace]
  end.
  split; [|exact IHtrace]. etrans; [exact IHcat|].
  change (stored (catalog d (store w)) (byName <$> s :: rest))
    with (stored (<[dsName s := dsMethods s]> (catalog d (store w)))
                 (byName <$> rest)).
  f_equal. exact Hcat.
Qed.

Lemma storeEnhanced_stored l d w :
  allocated d (store w) →
  catalog (fst (snd (storeEnhanced l (d, w))))
          (store (snd (snd (storeEnhanced l (d, w)))))
  = stored (catalog d (store w)) (byNameEnhanced <$> l)
  ∧ trace (snd (snd (storeEnhanced l (d, w)))) = trace w.
Proof.
  revert d w. induction l as [|s rest IH]; intros d w Hal; [done|].
  cbn [storeEnhanced]. run.
  destruct (store_one d (store w) (esName s) None
              (toMethodInfo <$> esMethods s) Hal) as [Hcat Hal'].
  match goal with
  | |- context [storeEnhanced rest (?d1, ?w1)] =>
      destruct (IH d1 w1 Hal') as [IHcat IHtrace]
  end.
  split; [|exact IHtrace]. etrans; [exact IHcat|].
  change (stored (catalog d (store w)) (byNameEnhanced <$> s :: rest))
    with (stored (<[esName s := toMethodInfo <$> esMethods s]>
                    (catalog d (store w)))
                 (byNameEnhanced <$> rest)).
  f_equal. exact Hcat.
Qed.

Lemma allocated_empty d st : services d = ∅ → allocated d st.
Proof. intros Hempty name service a n. by rewrite Hempty, lookup_empty. Qed.

Lemma stored_size (m : gmap string (list MethodInfo)) l :
  NoDup (fst <$> l) →
  (∀ name, name ∈ fst <$> l → m !! name = None) →
  size (stored m l) = size m + length l.
Proof.
  revert m. induction l as [|[name ms] rest IH]; intros m Hnodup Hfresh.
  - simpl. lia.
  - cbn [fmap list_fmap fst] in Hnodup. apply NoDup_cons in Hnodup as [Hnot Hnodup].
    unfold stored. cbn [foldl fst snd]. fold (stored (<[name := ms]> m) rest).
    rewrite IH; [|done|].
    + rewrite map_size_insert_None; [simpl; lia|].
      apply Hfresh. apply list_elem_of_here.
    + intros name' Hin. rewrite lookup_insert_ne.
      * apply Hfresh. by apply list_elem_of_further.
      * intros <-. done.
Qed.

Section Facts.
Variable env : Env.

(** X12. Discovery through reflection (no descriptor set configured).
    When the reflection client fails, [DiscoverServices] returns "failed
    to discover services via reflection" around its error and the catalog
    is as it was.  When it succeeds, the catalog is replaced: it holds the
    discovered services by name, a later service of the list in place of an
    earlier one of the same name, and nothing of what it held; with
    distinct names [GetServiceCount] is the number of services
    discovered. *)
Theorem reflection_discovery_replaces_the_catalog
    (σ : serviceDiscoverer * World) (ctx : Context)
    (client : ReflectionClient) :
  reflectionClient (fst σ) = Some client →
  Enabled (descriptorConfig (fst σ)) = false →
  match clientDiscoverServices env (trace (snd σ)) client ctx with
  | Err err =>
      fst (DiscoverServices env ctx σ) = Some (ErrReflectionDiscovery err)
      ∧ fst (snd (DiscoverServices env ctx σ)) = fst σ
      ∧ store (snd (snd (DiscoverServices env ctx σ))) = store (snd σ)
  | Ok discovered =>
      fst (DiscoverServices env ctx σ) = None
      ∧ catalog (fst (snd (DiscoverServices env ctx σ)))
                (store (snd (snd (DiscoverServices env ctx σ))))
        = stored ∅ (byName <$> discovered)
      ∧ (NoDup (dsName <$> discovered) →
         GetServiceCount (fst (snd (DiscoverServices env ctx σ)))
         = length discovered)
  end.
Proof.
  destruct σ as [d w]. cbn [fst snd]. intros Hclient Hoff.
  unfold DiscoverServices. run. rewrite Hclient, Hoff. simpl.
  unfold discoverFromReflection. run.
  destruct (clientDiscoverServices env (trace w) client ctx)
    as [discovered|err]; [|done].
  match goal with
  | |- context [storeDiscovered discovered (?d1, ?w1)] =>
      destruct (storeDiscovered_stored discovered d1 w1) as [Hcat _];
        [by apply allocated_empty|];
      destruct (storeDiscovered discovered (d1, w1)) as [[] [d2 w2]] eqn:Hstore
  end.
  cbn [fst snd] in *. split; [done|].
  assert (catalog d2 (store w2) = stored ∅ (byName <$> discovered)) as Hcat'.
  { rewrite Hcat. unfold catalog. simpl. by rewrite fmap_empty. }
  split; [done|]. intros Hnodup.
  unfold GetServiceCount.
  assert (size (services d2) = size (catalog d2 (store w2))) as ->.
  { unfold catalog. by rewrite map_size_fmap. }
  rewrite Hcat', stored_size, map_size_empty, length_fmap; [done| |done].
  by rewrite <- list_fmap_compose.
Qed.

(** X13. A configured descriptor set takes precedence over reflection:
    when the set loads and its services can be extracted,
    [DiscoverServices] returns nil without a call on the reflection
    client, and the catalog holds the services of the set by name, with the
    descriptions of their methods. *)
Theorem descriptor_set_takes_precedence
    (σ : serviceDiscoverer * World) (ctx : Context)
    (client : ReflectionClient) (fdSet files : nat)
    (enhancedServices : list EnhancedServiceInfo) :
  reflectionClient (fst σ) = Some client →
  Enabled (descriptorConfig (fst σ)) = true →
  Path (descriptorConfig (fst σ)) ≠ "" →
  loaderLoadFromFile env (trace (snd σ)) (Path (descriptorConfig (fst σ)))
    = Ok fdSet →
  loaderBuildRegistry env fdSet = Ok files →
  loaderExtractServiceInfo env files = Ok enhancedServices →
  fst (DiscoverServices env ctx σ) = None
  ∧ trace (snd (snd (DiscoverServices env ctx σ)))
    = trace (snd σ) ++ [EvLoadFromFile (Path (descriptorConfig (fst σ)))]
  ∧ catalog (fst (snd (DiscoverServices env ctx σ)))
            (store (snd (snd (DiscoverServices env ctx σ))))
    = stored ∅ (byNameEnhanced <$> enhancedServices).
Proof.
  destruct σ as [d w]. cbn [fst snd].
  intros Hclient Hon Hpath Hload Hregistry Hextract.
  unfold DiscoverServices. run. rewrite Hclient, Hon. simpl.
  rewrite bool_decide_eq_false_2 by done. simpl.
  unfold discoverFromFileDescriptor. run.
  rewrite Hload. simpl. rewrite Hregistry. simpl. rewrite Hextract. simpl.
  match goal with
  | |- context [storeEnhanced enhancedServices (?d1, ?w1)] =>
      destruct (storeEnhanced_stored enhancedServices d1 w1) as [Hcat Htrace];
        [by apply allocated_empty|];
      destruct (storeEnhanced enhancedServices (d1, w1)) as [[] [d2 w2]]
  end.
  cbn [fst snd trace] in *. split; [done|]. split; [done|].
  rewrite Hcat. unfold catalog. simpl. by rewrite fmap_empty.
Qed.

(** X14. A discovery that fails leaves the catalog as it was, or empty:
    empty when the descriptor set was loaded and its registry built, for
    the catalog is reset before the services of the set are extracted, and
    the fallback to reflection failed as well. *)
Theorem failed_discovery_keeps_or_empties_the_catalog
    (σ : serviceDiscoverer * World) (ctx : Context) (err : error) :
  fst (DiscoverServices env ctx σ) = Some err →
  services (fst (snd (DiscoverServices env ctx σ))) = services (fst σ)
  ∧ store (snd (snd (DiscoverServices env ctx σ))) = store (snd σ)
  ∨ services (fst (snd (DiscoverServices env ctx σ))) = ∅
    ∧ ∃ fdSet files,
        loaderLoadFromFile env (trace (snd σ)) (Path (descriptorConfig (fst σ)))
          = Ok fdSet
        ∧ loaderBuildRegistry env fdSet = Ok files
        ∧ ∃ cause, loaderExtractServiceInfo env files = Err cause.
Proof.
  destruct σ as [d w]. cbn [fst snd].
  unfold DiscoverServices. run.
  destruct (reflectionClient d) as [client|]; [|by left].
  assert (∀ d1 w1,
            fst (discoverFromReflection env client ctx (d1, w1)) = Some err →
            services (fst (snd (discoverFromReflection env client ctx (d1, w1))))
              = services d1
            ∧ store (snd (snd (discoverFromReflection env client ctx (d1, w1))))
              = store w1) as Hreflection.
  { intros d1 w1. unfold discoverFromReflection. run.
    destruct (clientDiscoverServices env _ _ _) as [l|e]; [|done].
    by destruct (storeDiscovered l _) as [[] ?]. }
  destruct (_ && _); [|intros H; left; by apply Hreflection].
  unfold discoverFromFileDescriptor. run.
  destruct (loaderLoadFromFile env _ _) as [fdSet|e1] eqn:Hload; simpl.
  2: { intros H. left. destruct (Hreflection _ _ H) as [H1 H2].
       split; [exact H1 | exact H2]. }
  destruct (loaderBuildRegistry env fdSet) as [files|e2] eqn:Hregistry; simpl.
  2: { intros H. left. destruct (Hreflection _ _ H) as [H1 H2].
       split; [exact H1 | exact H2]. }
  destruct (loaderExtractServiceInfo env files) as [l|e3] eqn:Hextract; simpl.
  { by destruct (storeEnhanced l _) as [[] ?]. }
  intros H. right.
  match goal with
  | H : fst (discoverFromReflection env client ctx (?d1, ?w1)) = _ |- _ =>
      destruct (Hreflection d1 w1 H) as [Hservices _]
  end.
  split; [by rewrite Hservices|]. eauto 6.
Qed.
End Facts.

Section Facts.
Variable env : Env.

(** X15. Without a reflection client (a new discoverer, or one that was
    closed) [DiscoverServices], [InvokeMethod] and
    [InvokeMethodWithHeaders] fail with "not connected to gRPC server" and
    change nothing: no collaborator is called. *)
Theorem without_client_nothing_is_called
    (σ : serviceDiscoverer * World) (ctx : Context)
    (headers : list (string * string))
    (serviceName methodName inputJSON : string) :
  reflectionClient (fst σ) = None →
  DiscoverServices env ctx σ = (Some ErrNotConnected, σ)
  ∧ InvokeMethod env ctx serviceName methodName inputJSON σ
    = (Err ErrNotConnected, σ)
  ∧ InvokeMethodWithHeaders env ctx headers serviceName methodName inputJSON σ
    = (Err ErrNotConnected, σ).
Proof.
  destruct σ as [d w]. cbn [fst]. intros Hnone.
  unfold DiscoverServices, InvokeMethodWithHeaders, InvokeMethod. run.
  by rewrite Hnone.
Qed.

(** X16. Invoking a method that the catalog does not hold (no such
    service, or no method of that name in the service) fails with "method
    ... not found", with or without headers, and changes nothing: the
    reflection client is not called. *)
Theorem unknown_methods_are_not_invoked
    (σ : serviceDiscoverer * World) (ctx : Context)
    (headers : list (string * string))
    (serviceName methodName inputJSON : string) (client : ReflectionClient) :
  reflectionClient (fst σ) = Some client →
  (∀ methods method,
     catalog (fst σ) (store (snd σ)) !! serviceName = Some methods →
     method ∈ methods → Name method ≠ methodName) →
  InvokeMethod env ctx serviceName methodName inputJSON σ
    = (Err (ErrMethodNotFound serviceName methodName), σ)
  ∧ InvokeMethodWithHeaders env ctx headers serviceName methodName inputJSON σ
    = (Err (ErrMethodNotFound serviceName methodName), σ).
Proof.
  destruct σ as [d w]. cbn [fst snd]. intros Hclient Hnone.
  assert (GetMethod d (store w) serviceName methodName = (noMethod, false))
    as Hget.
  { unfold GetMethod, GetService. unfold catalog in Hnone.
    rewrite lookup_fmap in Hnone.
    destruct (services d !! serviceName) as [service|]; [|done].
    rewrite findMethod_firstNamed. unfold firstNamed.
    destruct (filter _ _) as [|method rest] eqn:Hfilter; [done|].
    assert (method ∈ filter (λ x, Name x = methodName)
                            (elems (store w) (Methods service))) as Hin
      by (rewrite Hfilter; apply list_elem_of_here).
    apply list_elem_of_filter in Hin as [Hname Hin].
    by destruct (Hnone _ method eq_refl Hin). }
  unfold InvokeMethodWithHeaders, InvokeMethod. run.
  repeat (first [rewrite Hclient | rewrite Hget]; simpl). done.
Qed.

(** X17. [Connect] stores the new reflection client before it checks
    its health: after a [Connect] that returned nil or failed in the
    health check, the discoverer holds the client of the connection that
    the manager gave; after a [Connect] that failed earlier it holds the
    client it held before.  The catalog is the same in every case. *)
Theorem Connect_installs_the_client_before_the_health_check
    (σ : serviceDiscoverer * World) (ctx : Context) :
  services (fst (snd (Connect env ctx σ))) = services (fst σ)
  ∧ match fst (Connect env ctx σ) with
    | None | Some (ErrHealthCheckFailed _) =>
        ∃ conn,
          managerGetConnection env (trace (snd σ) ++ [EvManagerConnect ctx])
            = Some conn
          ∧ reflectionClient (fst (snd (Connect env ctx σ)))
            = Some (NewReflectionClient conn)
    | Some _ =>
        reflectionClient (fst (snd (Connect env ctx σ)))
        = reflectionClient (fst σ)
    end.
Proof.
  destruct σ as [d w]. unfold Connect. run.
  destruct (managerConnect env (trace w) ctx); [done|]. simpl.
  destruct (managerGetConnection env _) as [conn|] eqn:Hconn; [|done]. simpl.
  destruct (clientHealthCheck env _ _ _); simpl; eauto.
Qed.

(** *** Reconnection: how often and how long *)

Lemma configured_ret {A} (a : A) : configured (mret a).
Proof. by intros [d w]. Qed.

Lemma configured_bind {A B} (m : M A) (k : A → M B) :
  configured m → (∀ a, configured (k a)) → configured (m ≫= k).
Proof.
  intros Hm Hk σ. run. specialize (Hm σ).
  destruct (m σ) as [a σ1]. specialize (Hk a σ1).
  simpl in *. destruct Hm as (H1 & H2 & H3).
  rewrite <- H1, <- H2, <- H3. exact Hk.
Qed.

Lemma configured_call {A} ev (answer : list Event → A) :
  configured (call ev answer).
Proof. by intros [d w]. Qed.

Lemma configured_this : configured this.
Proof. by intros [d w]. Qed.

Lemma configured_setServices m : configured (setServices m).
Proof. by intros [d w]. Qed.

Lemma configured_setReflectionClient c : configured (setReflectionClient c).
Proof. by intros [d w]. Qed.

Lemma configured_makeSlice ms : configured (makeSlice ms).
Proof. by intros [d w]. Qed.

Lemma configured_storeEnhanced l : configured (storeEnhanced l).
Proof.
  induction l as [|e l IH]; simpl; [apply configured_ret|].
  apply configured_bind; [apply configured_makeSlice|]. intros sl.
  apply configured_bind; [apply configured_this|]. intros d.
  apply configured_bind; [apply configured_setServices|]. intros _. exact IH.
Qed.

Lemma configured_storeDiscovered l : configured (storeDiscovered l).
Proof.
  induction l as [|e l IH]; simpl; [apply configured_ret|].
  apply configured_bind; [apply configured_makeSlice|]. intros sl.
  apply configured_bind; [apply configured_this|]. intros d.
  apply configured_bind; [apply configured_setServices|]. intros _. exact IH.
Qed.

Lemma configured_DiscoverServices ctx : configured (DiscoverServices env ctx).
Proof.
  assert (∀ client, configured (discoverFromReflection env client ctx))
    as Hreflection.
  { intros client. unfold discoverFromReflection.
    apply configured_bind; [apply configured_call|].
    intros [l|err]; [|apply configured_ret].
    apply configured_bind; [apply configured_setServices|]. intros _.
    apply configured_bind; [apply configured_storeDiscovered|]. intros _.
    apply configured_ret. }
  assert (configured (discoverFromFileDescriptor env)) as Hfile.
  { unfold discoverFromFileDescriptor.
    apply configured_bind; [apply configured_this|]. intros d.
    apply configured_bind; [apply configured_call|].
    intros [fdSet|err]; [|apply configured_ret].
    destruct (loaderBuildRegistry env fdSet) as [files|err];
      [|apply configured_ret].
    apply configured_bind; [apply configured_setServices|]. intros _.
    destruct (loaderExtractServiceInfo env files) as [l|err];
      [|apply configured_ret].
    apply configured_bind; [apply configured_storeEnhanced|]. intros _.
    apply configured_ret. }
  unfold DiscoverServices.
  apply configured_bind; [apply configured_this|]. intros d.
  destruct (reflectionClient d) as [client|]; [|apply configured_ret].
  destruct (_ && _); [|apply Hreflection].
  apply configured_bind; [apply Hfile|].
  intros [err|]; [apply Hreflection | apply configured_ret].
Qed.

(** The wait between two attempts passes at most the interval. *)
Lemma awaitInterval_passes ctx interval σ :
  (0 ≤ interval)%Z →
  fst (snd (awaitInterval ctx interval σ)) = fst σ
  ∧ trace (snd (snd (awaitInterval ctx interval σ))) = trace (snd σ)
  ∧ (now (snd σ) ≤ now (snd (snd (awaitInterval ctx interval σ)))
     ≤ now (snd σ) + interval)%Z.
Proof.
  destruct σ as [d w]. intros Hpos. unfold awaitInterval, ctxErr. simpl.
  destruct (cancelled ctx); simpl; [repeat split; lia|].
  destruct (deadline ctx) as [dl|]; simpl; [|repeat split; lia].
  destruct (dl <=? now w)%Z eqn:Hpast; simpl; [repeat split; lia|].
  apply Z.leb_gt in Hpast.
  destruct (dl <=? now w + interval)%Z eqn:Hsoon; simpl; [|repeat split; lia].
  apply Z.leb_le in Hsoon. repeat split; lia.
Qed.

Lemma attempts_snoc_attempt tr ctx :
  attempts (tr ++ [EvManagerReconnect ctx]) = attempts tr + 1.
Proof. by rewrite attempts_app. Qed.

Lemma attempts_snoc_other tr ev :
  isAttempt ev = false → attempts (tr ++ [ev]) = attempts tr.
Proof.
  intros Hev. rewrite attempts_app. unfold attempts at 2. simpl.
  rewrite filter_cons_False, filter_nil; [simpl; lia|]. by rewrite Hev.
Qed.

Lemma waits_next remaining i :
  (0 ≤ i)%Z →
  ((if (0 <? i)%Z then 1 else 0) + waits remaining (i + 1)
   = waits (S remaining) i)%Z.
Proof.
  intros Hi. unfold waits.
  assert ((0 <? i + 1)%Z = true) as -> by (apply Z.ltb_lt; lia).
  destruct (0 <? i)%Z; simpl; lia.
Qed.

Lemma reconnectLoop_bounds remaining i lastErr ctx σ :
  (0 ≤ i)%Z →
  (0 ≤ reconnectInterval (fst σ))%Z →
  attempts (trace (snd (snd (reconnectLoop env remaining i lastErr ctx σ))))
    ≤ attempts (trace (snd σ)) + remaining
  ∧ (now (snd σ)
     ≤ now (snd (snd (reconnectLoop env remaining i lastErr ctx σ)))
     ≤ now (snd σ) + waits remaining i * reconnectInterval (fst σ))%Z.
Proof.
  revert i lastErr σ.
  induction remaining as [|remaining IH]; intros i lastErr [d w] Hi Hpos.
  { simpl. unfold waits. destruct (0 <? i)%Z; simpl; lia. }
  cbn [fst snd] in *.
  pose proof (waits_next remaining i Hi) as Hwaits.
  assert (0 ≤ waits remaining (i + 1))%Z as Hw.
  { unfold waits. destruct (0 <? i + 1)%Z; lia. }
  cbn [reconnectLoop]. run.
  match goal with
  | |- context [(if (0 <? i)%Z then ?wait else ?skip) ?s] =>
      destruct ((if (0 <? i)%Z then wait else skip) s)
        as [done_ [d1 w1]] eqn:Hwait
  end.
  assert (d1 = d ∧ trace w1 = trace w
          ∧ (now w ≤ now w1
             ≤ now w + (if (0 <? i)%Z then 1 else 0) * reconnectInterval d)%Z)
    as (-> & Htrace & Hnow).
  { destruct (0 <? i)%Z.
    - pose proof (awaitInterval_passes ctx (reconnectInterval d) (d, w) Hpos)
        as Hpass.
      rewrite Hwait in Hpass. simpl in Hpass.
      destruct Hpass as (-> & -> & Hn). split; [done|]. split; [done|]. lia.
    - injection Hwait as _ -> ->. repeat split; lia. }
  destruct done_ as [e|]; simpl.
  { rewrite Htrace. split; [lia|]. nia. }
  assert (∀ lastErr' σ',
            fst σ' = d → now (snd σ') = now w1 →
            attempts (trace (snd σ')) = attempts (trace w) + 1 →
            attempts (trace (snd (snd (reconnectLoop env remaining (i + 1)
                                         lastErr' ctx σ'))))
              ≤ attempts (trace w) + S remaining
            ∧ (now w
               ≤ now (snd (snd (reconnectLoop env remaining (i + 1)
                                  lastErr' ctx σ')))
               ≤ now w + waits (S remaining) i * reconnectInterval d)%Z)
    as Hnext.
  { intros lastErr' [d' w'] Hd Hn Ha. cbn [fst snd] in *. subst d'.
    destruct (IH (i + 1)%Z lastErr' (d, w')) as [H1 H2]; [lia|done|].
    cbn [fst snd] in *. split; [lia|]. nia. }
  destruct (managerReconnect env (trace w1) ctx) as [err|].
  { apply Hnext; simpl; [done|done|]. by rewrite Htrace, attempts_snoc_attempt. }
  destruct (managerGetConnection env _) as [conn|].
  2: { apply Hnext; simpl; [done|done|].
       by rewrite attempts_snoc_other, Htrace, attempts_snoc_attempt. }
  match goal with
  | |- context [DiscoverServices env ctx ?s] =>
      pose proof (quiet_DiscoverServices env ctx s) as (_ & Hqnow & Hqatt);
      pose proof (configured_DiscoverServices ctx s) as (_ & Hqint & _);
      destruct (DiscoverServices env ctx s) as [[err|] [d2 w2]] eqn:Hd
  end; cbn [fst snd trace now reconnectInterval] in *.
  - destruct (IH (i + 1)%Z (Some err) (d2, w2)) as [H1 H2]; [lia| |].
    { cbn [fst]. by rewrite Hqint. }
    cbn [fst snd] in *. rewrite Hqint, Hqnow in H2.
    rewrite Hqatt, attempts_snoc_other, Htrace, attempts_snoc_attempt in H1
      by done.
    split; [lia|]. nia.
  - rewrite Hqatt, attempts_snoc_other, Htrace, attempts_snoc_attempt by done.
    rewrite Hqnow. split; [lia|]. nia.
Qed.

(** X18. [Reconnect] makes at most [maxReconnectAttempts] calls of
    [connManager.Reconnect], and spends at most one reconnect interval
    before each attempt but the first: with the five attempts and the five
    seconds that the constructors set, at most five attempts and twenty
    seconds of waiting, whatever the collaborators answer. *)
Theorem Reconnect_attempts_are_bounded
    (σ : serviceDiscoverer * World) (ctx : Context) :
  (0 ≤ reconnectInterval (fst σ))%Z →
  attempts (trace (snd (snd (Reconnect env ctx σ))))
    ≤ attempts (trace (snd σ)) + Z.to_nat (maxReconnectAttempts (fst σ))
  ∧ (now (snd σ) ≤ now (snd (snd (Reconnect env ctx σ)))
     ≤ now (snd σ)
       + Z.of_nat (Z.to_nat (maxReconnectAttempts (fst σ)) - 1)
         * reconnectInterval (fst σ))%Z.
Proof.
  destruct σ as [d w]. cbn [fst snd]. intros Hpos. rewrite Reconnect_loop.
  by apply (reconnectLoop_bounds _ 0 None ctx (d, w)).
Qed.


End Facts.

Lemma without_client_nothing_is_called_witness :
  DiscoverServices Samples.failing Background Samples.fresh
    = (Some ErrNotConnected, Samples.fresh)
  ∧ InvokeMethod Samples.failing Background "test.Service" "TestMethod"
      "{}" Samples.fresh
    = (Err ErrNotConnected, Samples.fresh)
  ∧ InvokeMethodWithHeaders Samples.failing Background
      [("authorization", "Bearer token123")] "test.Service" "TestMethod"
      "{}" Samples.fresh
    = (Err ErrNotConnected, Samples.fresh).
Proof.
  apply (without_client_nothing_is_called Samples.failing Samples.fresh
           Background [("authorization", "Bearer token123")]
           "test.Service" "TestMethod" "{}").
  reflexivity.
Defined.

Lemma unknown_methods_are_not_invoked_witness :
  InvokeMethod (Samples.succeeding [Samples.method "DoThing" false false])
    Background "nonexistent.Service" "TestMethod" "{}"
    (Samples.discovered [Samples.method "DoThing" false false])
  = (Err (ErrMethodNotFound "nonexistent.Service" "TestMethod"),
     Samples.discovered [Samples.method "DoThing" false false])
  ∧ InvokeMethodWithHeaders
      (Samples.succeeding [Samples.method "DoThing" false false])
      Background [("authorization", "Bearer token123")]
      "nonexistent.Service" "TestMethod" "{}"
      (Samples.discovered [Samples.method "DoThing" false false])
    = (Err (ErrMethodNotFound "nonexistent.Service" "TestMethod"),
       Samples.discovered [Samples.method "DoThing" false false]).
Proof.
  apply (unknown_methods_are_not_invoked
           (Samples.succeeding [Samples.method "DoThing" false false])
           (Samples.discovered [Samples.method "DoThing" false false])
           Background [("authorization", "Bearer token123")]
           "nonexistent.Service" "TestMethod" "{}" (NewReflectionClient 7)).
  - reflexivity.
  - intros methods method Hlookup. vm_compute in Hlookup. discriminate.
Defined.

Lemma Reconnect_attempts_are_bounded_witness :
  attempts (trace (snd (snd (Reconnect Samples.failing Background
                               Samples.fresh))))
    ≤ attempts (trace (snd Samples.fresh))
      + Z.to_nat (maxReconnectAttempts (fst Samples.fresh))
  ∧ (now (snd Samples.fresh)
     ≤ now (snd (snd (Reconnect Samples.failing Background Samples.fresh)))
     ≤ now (snd Samples.fresh)
       + Z.of_nat (Z.to_nat (maxReconnectAttempts (fst Samples.fresh)) - 1)
         * reconnectInterval (fst Samples.fresh))%Z.
Proof.
  apply (Reconnect_attempts_are_bounded Samples.failing Samples.fresh
           Background).
  vm_compute. discriminate.
Defined.


Lemma reflection_discovery_replaces_the_catalog_witness :
  match clientDiscoverServices
          (Samples.succeeding [Samples.method "DoThing" false false])
          (trace (snd LoaderFixtures.connected)) (NewReflectionClient 7)
          Background with
  | Err err =>
      fst (DiscoverServices
             (Samples.succeeding [Samples.method "DoThing" false false])
             Background LoaderFixtures.connected)
        = Some (ErrReflectionDiscovery err)
      ∧ fst (snd (DiscoverServices
                    (Samples.succeeding [Samples.method "DoThing" false false])
                    Background LoaderFixtures.connected))
        = fst LoaderFixtures.connected
      ∧ store (snd (snd (DiscoverServices
                           (Samples.succeeding
                              [Samples.method "DoThing" false false])
                           Background LoaderFixtures.connected)))
        = store (snd LoaderFixtures.connected)
  | Ok discovered =>
      fst (DiscoverServices
             (Samples.succeeding [Samples.method "DoThing" false false])
             Background LoaderFixtures.connected) = None
      ∧ catalog
          (fst (snd (DiscoverServices
                       (Samples.succeeding
                          [Samples.method "DoThing" false false])
                       Background LoaderFixtures.connected)))
          (store (snd (snd (DiscoverServices
                              (Samples.succeeding
                                 [Samples.method "DoThing" false false])
                              Background LoaderFixtures.connected))))
        = stored ∅ (byName <$> discovered)
      ∧ (NoDup (dsName <$> discovered) →
         GetServiceCount
           (fst (snd (DiscoverServices
                        (Samples.succeeding
                           [Samples.method "DoThing" false false])
                        Background LoaderFixtures.connected)))
         = length discovered)
  end.
Proof.
  apply (reflection_discovery_replaces_the_catalog
           (Samples.succeeding [Samples.method "DoThing" false false])
           LoaderFixtures.connected Background (NewReflectionClient 7)).
  - reflexivity.
  - reflexivity.
Defined.

Lemma descriptor_set_takes_precedence_witness :
  fst (DiscoverServices LoaderFixtures.withDescriptorSet Background
         LoaderFixtures.configuredWithSet) = None
  ∧ trace (snd (snd (DiscoverServices LoaderFixtures.withDescriptorSet
                       Background LoaderFixtures.configuredWithSet)))
    = trace (snd LoaderFixtures.configuredWithSet)
      ++ [EvLoadFromFile
            (Path (descriptorConfig (fst LoaderFixtures.configuredWithSet)))]
  ∧ catalog
      (fst (snd (DiscoverServices LoaderFixtures.withDescriptorSet Background
                   LoaderFixtures.configuredWithSet)))
      (store (snd (snd (DiscoverServices LoaderFixtures.withDescriptorSet
                          Background LoaderFixtures.configuredWithSet))))
    = stored ∅
        (byNameEnhanced
           <$> [ {| esName := "hello.HelloService";
                    esMethods := [LoaderFixtures.sayHello] |} ]).
Proof.
  apply (descriptor_set_takes_precedence LoaderFixtures.withDescriptorSet
           LoaderFixtures.configuredWithSet Background (NewReflectionClient 7)
           1 2).
  - reflexivity.
  - reflexivity.
  - discriminate.
  - reflexivity.
  - reflexivity.
  - reflexivity.
Defined.

Lemma failed_discovery_keeps_or_empties_the_catalog_witness :
  services (fst (snd (DiscoverServices Samples.failing Background
                        LoaderFixtures.connected)))
    = services (fst LoaderFixtures.connected)
  ∧ store (snd (snd (DiscoverServices Samples.failing Background
                       LoaderFixtures.connected)))
    = store (snd LoaderFixtures.connected)
  ∨ services (fst (snd (DiscoverServices Samples.failing Background
                          LoaderFixtures.connected))) = ∅
    ∧ ∃ fdSet files,
        loaderLoadFromFile Samples.failing (trace (snd LoaderFixtures.connected))
          (Path (descriptorConfig (fst LoaderFixtures.connected))) = Ok fdSet
        ∧ loaderBuildRegistry Samples.failing fdSet = Ok files
        ∧ ∃ cause, loaderExtractServiceInfo Samples.failing files = Err cause.
Proof.
  apply (failed_discovery_keeps_or_empties_the_catalog Samples.failing
           LoaderFixtures.connected Background
           (ErrReflectionDiscovery (ErrExternal "discover"))).
  reflexivity.
Defined.

End CatalogFacts.

(** ** More on tool names and the handler *)
Module ToolCallFacts.
Import GoStrings GoSubstrings GrpcTypes Grpc Server ToolNameFacts
  DiscovererFacts SubstringFacts.

(** *** The strings that name a tool *)

Lemma replace_dot_cons (c : ascii) (rest : string) :
  replaceFrom "." "_" (String c rest) 0
  = if bool_decide (c = "."%char)
    then String "_" (replaceFrom "." "_" rest 0)
    else String c (replaceFrom "." "_" rest 0).
Proof. cbn [replaceFrom]. rewrite prefix_dot. by destruct (bool_decide _). Qed.

Lemma replace_dot_no_dot (s : string) :
  Contains (replaceFrom "." "_" s 0) "." = false.
Proof.
  induction s as [|c s IH]; [done|]. rewrite replace_dot_cons.
  destruct (bool_decide (c = "."%char)) eqn:Hc;
    rewrite Contains_dot_cons, IH, ?Hc; done.
Qed.

Lemma replace_dot_without_dot (s : string) :
  Contains s "." = false → replaceFrom "." "_" s 0 = s.
Proof.
  induction s as [|c s IH]; [done|].
  rewrite Contains_dot_cons. intros [Hc Hs]%orb_false_elim.
  by rewrite replace_dot_cons, Hc, IH.
Qed.

Lemma ReplaceAll_dot_twice (s : string) :
  ReplaceAll (ReplaceAll s "." "_") "." "_" = ReplaceAll s "." "_".
Proof.
  unfold ReplaceAll. apply replace_dot_without_dot, replace_dot_no_dot.
Qed.

Lemma lowerByte_not_upper (c : ascii) : isUpper (lowerByte c) = false.
Proof. destruct c as [[] [] [] [] [] [] [] []]; reflexivity. Qed.

Lemma lowerByte_ascii (c : ascii) :
  (N_of_ascii (lowerByte c) <? 128)%N = (N_of_ascii c <? 128)%N.
Proof. destruct c as [[] [] [] [] [] [] [] []]; reflexivity. Qed.

Lemma lowered_has_no_upper (s : string) :
  hasUpper (mapBytes lowerByte s) = false.
Proof.
  induction s as [|c s IH]; [done|]. simpl.
  by rewrite lowerByte_not_upper, IH.
Qed.

Lemma lowered_is_ascii (s : string) :
  isASCII (mapBytes lowerByte s) = isASCII s.
Proof.
  induction s as [|c s IH]; [done|]. cbn [mapBytes isASCII].
  by rewrite lowerByte_ascii, IH.
Qed.

Lemma ToLower_twice (lower : string → string) (s : string) :
  isASCII s = true → ToLower lower (ToLower lower s) = ToLower lower s.
Proof.
  intros Hascii. unfold ToLower. rewrite Hascii.
  destruct (hasUpper s) eqn:Hupper.
  - by rewrite lowered_is_ascii, Hascii, lowered_has_no_upper.
  - by rewrite Hascii, Hupper.
Qed.

(** X20. Tool names do not tell a dot from an underscore in the service
    name, nor upper case from lower case in an ASCII method name: the
    services [a.b] and [a_b], and the methods [GetUser] and [getuser], get
    the same tool name. *)
Theorem tool_names_forget_dots_and_case
    (lower : string → string) (serviceName methodName : string) :
  isASCII methodName = true →
  Tools.generateToolName lower (ReplaceAll serviceName "." "_") methodName
    = Tools.generateToolName lower serviceName methodName
  ∧ Tools.generateToolName lower serviceName (ToLower lower methodName)
    = Tools.generateToolName lower serviceName methodName.
Proof.
  intros Hascii. unfold Tools.generateToolName.
  by rewrite ReplaceAll_dot_twice, ToLower_twice.
Qed.

Lemma tool_names_forget_dots_and_case_witness :
  Tools.generateToolName id (ReplaceAll "a.b" "." "_") "GetUser"
    = Tools.generateToolName id "a.b" "GetUser"
  ∧ Tools.generateToolName id "a.b" (ToLower id "GetUser")
    = Tools.generateToolName id "a.b" "GetUser".
Proof.
  apply (tool_names_forget_dots_and_case id "a.b" "GetUser"). reflexivity.
Defined.

(** *** Parsing *)

Section Facts.
Variable lower : string → string.

Lemma parseToolName_error st services toolName err :
  parseToolName lower st services toolName = Err err →
  err = ErrNoMatch toolName
  ∧ ∀ serviceName service method,
      (serviceName, service) ∈ services →
      method ∈ elems st (Methods service) →
      Tools.generateToolName lower serviceName (Name method) ≠ toolName.
Proof.
  induction services as [|[sn sv] rest IH]; simpl.
  - intros [= <-]. split; [done|]. intros ? ? ? Hin. by apply elem_of_nil in Hin.
  - destruct (matchMethod _ _ _ _) as [mn|] eqn:Hmatch; [done|].
    intros H. destruct (IH H) as [-> Hrest]. split; [done|].
    intros serviceName service method Hin Hm.
    apply elem_of_cons in Hin as [[= -> ->]|Hin]; [|by eapply Hrest].
    by eapply matchMethod_None in Hmatch.
Qed.

(** X21. When no two methods of the catalog generate the same tool name,
    what [parseToolName] returns does not depend on the order in which the
    map of services is ranged over. *)
Theorem parseToolName_ignores_the_range_order
    (st : Store) (services1 services2 : list (string * ServiceInfo))
    (toolName : string) :
  services1 ≡ₚ services2 →
  (∀ s1 sv1 m1 s2 sv2 m2,
     (s1, sv1) ∈ services1 → m1 ∈ elems st (Methods sv1) →
     (s2, sv2) ∈ services1 → m2 ∈ elems st (Methods sv2) →
     Tools.generateToolName lower s1 (Name m1)
       = Tools.generateToolName lower s2 (Name m2) →
     s1 = s2 ∧ Name m1 = Name m2) →
  parseToolName lower st services1 toolName
  = parseToolName lower st services2 toolName.
Proof.
  intros Hperm Hunique.
  destruct (parseToolName lower st services1 toolName)
    as [[s1 m1]|err1] eqn:H1;
    destruct (parseToolName lower st services2 toolName)
      as [[s2 m2]|err2] eqn:H2.
  - apply parseToolName_sound in H1 as (sv1 & x1 & Hin1 & Hx1 & <- & Hn1).
    apply parseToolName_sound in H2 as (sv2 & x2 & Hin2 & Hx2 & <- & Hn2).
    rewrite <- Hperm in Hin2.
    destruct (Hunique s1 sv1 x1 s2 sv2 x2) as [-> ->]; [done..| |done].
    by rewrite Hn1, Hn2.
  - apply parseToolName_sound in H1 as (sv1 & x1 & Hin1 & Hx1 & <- & Hn1).
    apply parseToolName_error in H2 as [_ Hnone].
    rewrite Hperm in Hin1. by destruct (Hnone s1 sv1 x1).
  - apply parseToolName_sound in H2 as (sv2 & x2 & Hin2 & Hx2 & <- & Hn2).
    apply parseToolName_error in H1 as [_ Hnone].
    rewrite <- Hperm in Hin2. by destruct (Hnone s2 sv2 x2).
  - apply parseToolName_error in H1 as [-> _].
    by apply parseToolName_error in H2 as [-> _].
Qed.

Variable env : Env.

(** X22. A tool call for a name that no method of the catalog generates
    fails with "invalid tool name" before anything is invoked: no
    collaborator is called and the state is as it was. *)
Theorem unknown_tools_are_not_called
    (ctx : Context) (toolName argumentsJSON : string)
    (services : list (string * ServiceInfo))
    (filteredHeaders : list (string * string))
    (σ : serviceDiscoverer * World) :
  (∀ serviceName service method,
     (serviceName, service) ∈ services →
     method ∈ elems (store (snd σ)) (Methods service) →
     Tools.generateToolName lower serviceName (Name method) ≠ toolName) →
  handleToolsCall lower env ctx toolName argumentsJSON services
                  filteredHeaders σ
  = (Err (ErrInvalidToolName (ErrNoMatch toolName)), σ).
Proof.
  destruct σ as [d w]. cbn [snd]. intros Hnone.
  unfold handleToolsCall. run.
  destruct (parseToolName lower (store w) services toolName)
    as [[serviceName methodName]|err] eqn:Hparse.
  - apply parseToolName_sound in Hparse as (sv & x & Hin & Hx & <- & Hn).
    by destruct (Hnone serviceName sv x).
  - by apply parseToolName_error in Hparse as [-> _].
Qed.
End Facts.

Lemma parseToolName_ignores_the_range_order_witness :
  parseToolName id (Samples.storeWith [Samples.method "DoThing" false false])
    [("pkg.a.Widget", Samples.widget 1); ("pkg.b.Widget", Samples.widget 1)]
    "pkg_b_widget_dothing"
  = parseToolName id (Samples.storeWith [Samples.method "DoThing" false false])
      [("pkg.b.Widget", Samples.widget 1); ("pkg.a.Widget", Samples.widget 1)]
      "pkg_b_widget_dothing".
Proof.
  apply (parseToolName_ignores_the_range_order id
           (Samples.storeWith [Samples.method "DoThing" false false])
           [("pkg.a.Widget", Samples.widget 1);
            ("pkg.b.Widget", Samples.widget 1)]
           [("pkg.b.Widget", Samples.widget 1);
            ("pkg.a.Widget", Samples.widget 1)] "pkg_b_widget_dothing").
  - apply perm_swap.
  - intros s1 sv1 m1 s2 sv2 m2 H1 Hm1 H2 Hm2 Hname.
    apply elem_of_cons in H1 as [[= -> ->]|H1];
      [|apply list_elem_of_singleton in H1 as [= -> ->]];
      (apply elem_of_cons in H2 as [[= -> ->]|H2];
       [|apply list_elem_of_singleton in H2 as [= -> ->]]);
      apply list_elem_of_singleton in Hm1 as ->;
      apply list_elem_of_singleton in Hm2 as ->;
      first [done | vm_compute in Hname; discriminate].
Defined.

Lemma unknown_tools_are_not_called_witness :
  handleToolsCall id
    (Samples.succeeding [Samples.method "DoThing" false false])
    Background "no_such_tool" "{}" [("pkg.sub.Widget", Samples.widget 1)] []
    (Samples.discovered [Samples.method "DoThing" false false])
  = (Err (ErrInvalidToolName (ErrNoMatch "no_such_tool")),
     Samples.discovered [Samples.method "DoThing" false false]).
Proof.
  apply (unknown_tools_are_not_called id
           (Samples.succeeding [Samples.method "DoThing" false false])
           Background "no_such_tool" "{}"
           [("pkg.sub.Widget", Samples.widget 1)] []
           (Samples.discovered [Samples.method "DoThing" false false])).
  intros serviceName service method Hin Hm.
  apply list_elem_of_singleton in Hin as [= -> ->].
  apply list_elem_of_singleton in Hm as ->. discriminate.
Defined.

End ToolCallFacts.

(** ** Building the tools *)
Module ToolBuilderFacts.
Import GoStrings GoSubstrings Protoreflect GrpcTypes Tools Panics ToolBuilder
  BuilderFacts.

Lemma extends_refl s : extends s s.
Proof.
  split; [done|]. split; [done|].
  intros name Hnone [o Hsome]. congruence.
Qed.

Lemma extends_trans s1 s2 s3 : extends s1 s2 → extends s2 s3 → extends s1 s3.
Proof.
  intros (Hsub & Hkeep & Hnew) (Hsub' & Hkeep' & Hnew').
  split; [set_solver|]. split; [auto|].
  intros name Hnone Hsome.
  destruct (schemaCache (snd s2) !! name) as [o|] eqn:Hmid.
  - destruct (Hnew name Hnone) as [Hin Hnot]; [by exists o|]. set_solver.
  - destruct (Hnew' name Hmid Hsome) as [Hin Hnot]. set_solver.
Qed.

(** A step that leaves the cache and the visited map alone. *)
Lemma extends_frame s visited b b' :
  extends s (visited, b) →
  schemaCache b' = schemaCache b →
  extends s (visited, b').
Proof.
  intros (Hsub & Hkeep & Hnew) Hcache.
  split; [done|]. simpl in *. rewrite Hcache. by split.
Qed.

(** Closes a goal [extends s (visited, b')] where [b'] is made from a
    builder [b] with [extends s (visited, b)] by new objects and by
    writes into objects. *)
Ltac framed :=
  repeat match goal with
         | H : Some _ = Some _ |- _ => injection H as <- <- <-
         end;
  first
    [ eassumption
    | apply extends_refl
    | eapply extends_frame; [eassumption | reflexivity]
    | eapply extends_frame; [apply extends_refl | reflexivity]
    | match goal with
      | |- context [if ?c then _ else _] =>
          destruct c;
          first [ eassumption
                | eapply extends_frame; [eassumption | reflexivity]
                | eapply extends_frame; [apply extends_refl | reflexivity] ]
      end ].

Section Facts.
Variable reg : gmap string MessageBody.
Variable trim : string → string.

Section Level.
Variable generateMessage : option string → gset string → Builder → Outcome nat.
Hypothesis Hrec : extending generateMessage.

Lemma generateFieldSchema_extends n :
  ∀ field, fieldDepth field ≤ n →
  ∀ s visited b r visited' b',
    extends s (visited, b) →
    generateFieldSchema_ trim generateMessage field visited b
      = Some (r, visited', b') →
    extends s (visited', b').
Proof.
  induction n as [|n IH]; intros field Hdepth s visited b r visited' b' Hs;
    destruct field as [name kind card opt pres msg enum mapKV c l t];
    simpl in Hdepth.
  all: simpl.
  all: match goal with
       | |- match ?base with _ => _ end = _ → _ =>
           assert (∀ r1 v1 b1, base = Some (r1, v1, b1) → extends s (v1, b1))
             as Hbase;
           [ | destruct base as [[[r1 v1] b1]|]; [|done];
               specialize (Hbase _ _ _ eq_refl) ]
       end.
  1,3: intros r1 v1 b1; destruct kind; simpl; intros H; try framed;
       eapply extends_trans; [exact Hs|]; by eapply Hrec.
  all: destruct r1 as [baseSchema|err]; [|intros H; framed].
  all: destruct mapKV as [[k v]|];
    [|destruct (IsList _); intros H; framed].
  - lia.
  - unfold IsList, IsMap. simpl. rewrite andb_false_r.
    destruct (generateFieldSchema_ _ _ k v1 b1) as [[[rk v2] b2]|] eqn:Hk;
      [|done].
    pose proof (IH k ltac:(lia) _ _ _ _ _ _ Hbase Hk) as H2.
    destruct rk as [keySchema|err]; [|intros H; framed].
    destruct (generateFieldSchema_ _ _ v v2 b2) as [[[rv v3] b3]|] eqn:Hv;
      [|done].
    pose proof (IH v ltac:(lia) _ _ _ _ _ _ H2 Hv) as H3.
    destruct rv as [valueSchema|err]; intros H; framed.
Qed.

Lemma oneofOptionsLoop_extends fields :
  ∀ s oneOfOptions visited b r visited' b',
    extends s (visited, b) →
    oneofOptionsLoop trim generateMessage fields oneOfOptions visited b
      = Some (r, visited', b') →
    extends s (visited', b').
Proof.
  induction fields as [|field rest IH];
    intros s oneOfOptions visited b r visited' b' Hs; simpl;
    [intros H; framed|].
  destruct (generateFieldSchema_ _ _ field visited b) as [[[rf v1] b1]|] eqn:Hf;
    [|done].
  pose proof (generateFieldSchema_extends _ field (le_n _) _ _ _ _ _ _ Hs Hf)
    as H1.
  destruct rf as [fieldSchema|err]; [|intros H; framed].
  simpl. apply IH. framed.
Qed.

Lemma generateOneofSchema_extends oneof s visited b r visited' b' :
  extends s (visited, b) →
  generateOneofSchema_ trim generateMessage oneof visited b
    = Some (r, visited', b') →
  extends s (visited', b').
Proof.
  intros Hs. unfold generateOneofSchema_.
  destruct (ooFields oneof) as [|field rest] eqn:Hfields; [intros H; framed|].
  destruct (oneofOptionsLoop _ _ (field :: rest) [] visited b)
    as [[[ro v1] b1]|] eqn:Hloop; [|done].
  pose proof (oneofOptionsLoop_extends _ _ _ _ _ _ _ _ Hs Hloop) as H1.
  destruct ro; intros H; simpl in H; framed.
Qed.

Lemma fieldsLoop_extends fields :
  ∀ s properties required visited b r visited' b',
    extends s (visited, b) →
    fieldsLoop trim generateMessage fields properties required visited b
      = Some (r, visited', b') →
    extends s (visited', b').
Proof.
  induction fields as [|field rest IH];
    intros s properties required visited b r visited' b' Hs; simpl;
    [intros H; framed|].
  destruct (generateFieldSchema_ _ _ field visited b) as [[[rf v1] b1]|] eqn:Hf;
    [|done].
  pose proof (generateFieldSchema_extends _ field (le_n _) _ _ _ _ _ _ Hs Hf)
    as H1.
  destruct rf as [fieldSchema|err]; [|intros H; framed].
  apply IH. framed.
Qed.

Lemma oneofsLoop_extends oneofs :
  ∀ s properties visited b r visited' b',
    extends s (visited, b) →
    oneofsLoop trim generateMessage oneofs properties visited b
      = Some (r, visited', b') →
    extends s (visited', b').
Proof.
  induction oneofs as [|oneof rest IH];
    intros s properties visited b r visited' b' Hs; simpl;
    [intros H; framed|].
  destruct (generateOneofSchema_ _ _ oneof visited b) as [[[ro v1] b1]|] eqn:Ho;
    [|done].
  pose proof (generateOneofSchema_extends _ _ _ _ _ _ _ Hs Ho) as H1.
  destruct ro as [oneofSchema|err]; [|intros H; framed].
  apply IH. destruct oneofSchema; framed.
Qed.
End Level.

Lemma generateMessageBody_extending generateMessage :
  extending generateMessage →
  extending (generateMessageBody reg trim generateMessage).
Proof.
  intros Hrec desc visited b r visited' b'. unfold generateMessageBody.
  destruct desc as [desc|]; [|intros H; framed].
  destruct (decide (desc ∈ visited)) as [Hin|Hnot]; [intros H; simpl in H; framed|].
  destruct (schemaCache b !! desc) as [cached|] eqn:Hcache.
  { intros H. injection H as <- <- <-.
    split; [set_solver|]. split; [done|].
    intros name Hnone [o Hsome]. simpl in *. congruence. }
  simpl.
  match goal with
  | |- context [fieldsLoop _ _ ?fs ?props ?req ?v ?b0] =>
      assert (extends (v, b0) (v, b0)) as H0 by apply extends_refl;
      destruct (fieldsLoop trim generateMessage fs props req v b0)
        as [[[rf v1] b1]|] eqn:Hfields; [|done];
      pose proof (fieldsLoop_extends _ Hrec _ _ _ _ _ _ _ _ _ H0 Hfields) as H1
  end.
  assert (∀ v2 b2 b3,
            extends (visited ∪ {[desc]},
                     snd (newObject (snd (newObject b ∅))
                            (<["properties" := VRef (nextObject b)]>
                             (<["type" := VStr "object"]> ∅))))
                    (v2, b2) →
            schemaCache b3 = schemaCache b2 →
            extends (visited, b) (v2, b3)) as Hout.
  { intros v2 b2 b3 (Hsub & Hkeep & Hnew) Heq. simpl in *.
    split; [set_solver|]. simpl. rewrite Heq. split; [auto|].
    intros name Hnone Hsome. destruct (Hnew name Hnone Hsome). set_solver. }
  destruct rf as [required|err];
    [|intros H; injection H as <- <- <-; by eapply Hout].
  destruct (oneofsLoop _ _ _ _ v1 b1) as [[[ro v2] b2]|] eqn:Honeofs; [|done].
  pose proof (oneofsLoop_extends _ Hrec _ _ _ _ _ _ _ _ H1 Honeofs) as H2.
  destruct ro as [[]|err];
    [|intros H; injection H as <- <- <-; by eapply Hout].
  intros H. injection H as <- <- <-.
  match goal with
  | |- extends _ (_, cacheSchema ?b3 _ _) =>
      assert (extends (visited, b) (v2, b3)) as (Hsub & Hkeep & Hnew)
        by (eapply Hout; [exact H2 | by destruct required])
  end.
  simpl in *. split; [done|]. split.
  - intros name o Hname. simpl. simpl in Hname.
    rewrite lookup_insert_ne by (intros Heq; rewrite Heq in Hcache; congruence).
    auto.
  - intros name Hnone Hsome. simpl in Hsome.
    destruct (decide (name = desc)) as [->|Hne].
    + split; [|done]. destruct H2 as (Hsub2 & _). set_solver.
    + rewrite lookup_insert_ne in Hsome by done.
      destruct (Hnew name Hnone Hsome). by split.
Qed.

(** Every call of the generator extends the state. *)
Lemma generateMessageSchema_extending fuel :
  extending (generateMessageSchema reg trim fuel).
Proof.
  induction fuel as [|fuel IH]; [done|].
  simpl. by apply generateMessageBody_extending.
Qed.

(** A schema that the generator returns for a message that was not marked
    is in the cache after the call. *)
Lemma generateMessageSchema_caches fuel desc visited b schema visited' b' :
  desc ∉ visited →
  generateMessageSchema reg trim fuel (Some desc) visited b
    = Some (Ok schema, visited', b') →
  schemaCache b' !! desc = Some schema.
Proof.
  intros Hnot. destruct fuel as [|fuel]; [done|]. simpl.
  unfold generateMessageBody.
  destruct (decide (desc ∈ visited)); [done|].
  destruct (schemaCache b !! desc) as [cached|] eqn:Hcache;
    [by intros H; injection H as <- <- <-|].
  simpl.
  destruct (fieldsLoop _ _ _ _ _ _ _) as [[[[required|err] v1] b1]|]; [|done..].
  destruct (oneofsLoop _ _ _ _ _ _) as [[[[[]|err] v2] b2]|]; [|done..].
  intros H. injection H as <- <- <-. simpl. by rewrite lookup_insert_eq.
Qed.

(** A message that is in the cache is answered from it. *)
Lemma generateMessageSchema_cached fuel desc b schema :
  schemaCache b !! desc = Some schema →
  generateMessageSchema reg trim (S fuel) (Some desc) ∅ b
  = Some (Ok schema, ∅ ∪ {[desc]}, b).
Proof.
  intros Hcache. simpl. unfold generateMessageBody.
  destruct (decide (desc ∈ (∅ : gset string))); [set_solver|].
  by rewrite Hcache.
Qed.

Section Succeeds.
Variable generateMessage : option string → gset string → Builder → Outcome nat.
Hypothesis Hrec : succeeding generateMessage.

Lemma generateFieldSchema_succeeds n :
  ∀ field, fieldDepth field ≤ n →
  supported field = true →
  ∀ visited b err visited' b',
    generateFieldSchema_ trim generateMessage field visited b
      ≠ Some (Err err, visited', b').
Proof.
  induction n as [|n IH]; intros field Hdepth Hfield visited b err visited' b';
    destruct field as [name kind card opt pres msg enum mapKV c l t];
    simpl in Hdepth, Hfield.
  all: simpl.
  all: match goal with
       | |- match ?base with _ => _ end ≠ _ =>
           assert (∀ err1 v1 b1, base ≠ Some (Err err1, v1, b1)) as Hbase;
           [ | destruct base as [[[[baseSchema|err1] v1] b1]|];
               [ | by destruct (Hbase err1 v1 b1) | done ] ]
       end.
  1,3: intros err1 v1 b1; destruct kind; simpl; try done; apply Hrec.
  all: destruct mapKV as [[k v]|]; [|by destruct (IsList _)].
  - lia.
  - unfold IsList, IsMap. simpl. rewrite andb_false_r.
    apply andb_prop in Hfield as [_ [Hk Hv]%andb_prop].
    pose proof (IH k ltac:(lia) Hk v1 b1) as Hkey.
    destruct (generateFieldSchema_ _ _ k v1 b1)
      as [[[[keySchema|errk] v2] b2]|]; [|by destruct (Hkey errk v2 b2)|done].
    pose proof (IH v ltac:(lia) Hv v2 b2) as Hvalue.
    destruct (generateFieldSchema_ _ _ v v2 b2)
      as [[[[valueSchema|errv] v3] b3]|];
      [done|by destruct (Hvalue errv v3 b3)|done].
Qed.

Lemma oneofOptionsLoop_succeeds fields :
  Forall (λ field, supported field = true) fields →
  ∀ oneOfOptions visited b err visited' b',
    oneofOptionsLoop trim generateMessage fields oneOfOptions visited b
      ≠ Some (Err err, visited', b').
Proof.
  induction 1 as [|field rest Hfield Hrest IH];
    intros oneOfOptions visited b err visited' b'; simpl; [done|].
  pose proof (generateFieldSchema_succeeds _ field (le_n _) Hfield visited b)
    as Hf.
  destruct (generateFieldSchema_ _ _ field visited b)
    as [[[[fieldSchema|errf] v1] b1]|]; [|by destruct (Hf errf v1 b1)|done].
  apply IH.
Qed.

Lemma generateOneofSchema_succeeds oneof visited b err visited' b' :
  Forall (λ field, supported field = true) (ooFields oneof) →
  generateOneofSchema_ trim generateMessage oneof visited b
    ≠ Some (Err err, visited', b').
Proof.
  intros Hall. unfold generateOneofSchema_.
  destruct (ooFields oneof) as [|field rest] eqn:Hfields; [done|].
  pose proof (oneofOptionsLoop_succeeds _ Hall [] visited b) as Hloop.
  destruct (oneofOptionsLoop _ _ (field :: rest) [] visited b)
    as [[[[options|erro] v1] b1]|]; [done|by destruct (Hloop erro v1 b1)|done].
Qed.

Lemma fieldsLoop_succeeds fields :
  Forall (λ field, supported field = true) fields →
  ∀ properties required visited b err visited' b',
    fieldsLoop trim generateMessage fields properties required visited b
      ≠ Some (Err err, visited', b').
Proof.
  induction 1 as [|field rest Hfield Hrest IH];
    intros properties required visited b err visited' b'; simpl; [done|].
  pose proof (generateFieldSchema_succeeds _ field (le_n _) Hfield visited b)
    as Hf.
  destruct (generateFieldSchema_ _ _ field visited b)
    as [[[[fieldSchema|errf] v1] b1]|]; [|by destruct (Hf errf v1 b1)|done].
  apply IH.
Qed.

Lemma oneofsLoop_succeeds oneofs :
  Forall (λ oneof, Forall (λ field, supported field = true) (ooFields oneof))
         oneofs →
  ∀ properties visited b err visited' b',
    oneofsLoop trim generateMessage oneofs properties visited b
      ≠ Some (Err err, visited', b').
Proof.
  induction 1 as [|oneof rest Honeof Hrest IH];
    intros properties visited b err visited' b'; simpl; [done|].
  pose proof (λ err v1 b1,
                generateOneofSchema_succeeds oneof visited b err v1 b1 Honeof)
    as Ho.
  destruct (generateOneofSchema_ _ _ oneof visited b)
    as [[[[oneofSchema|erro] v1] b1]|]; [|by destruct (Ho erro v1 b1)|done].
  apply IH.
Qed.
End Succeeds.

Lemma forallb_Forall {A} (f : A → bool) (l : list A) :
  forallb f l = true → Forall (λ x, f x = true) l.
Proof.
  induction l as [|x l IH]; simpl; [done|].
  intros [Hx Hl]%andb_prop. constructor; auto.
Qed.

Lemma generateMessageBody_succeeding generateMessage :
  supportedRegistry reg →
  succeeding generateMessage →
  succeeding (generateMessageBody reg trim generateMessage).
Proof.
  intros Hreg Hrec desc visited b err visited' b'. unfold generateMessageBody.
  destruct (decide (desc ∈ visited)); [done|].
  destruct (schemaCache b !! desc) as [cached|]; [done|].
  simpl.
  assert (Forall (λ field, supported field = true) (Fields reg desc)
          ∧ Forall (λ oneof, Forall (λ field, supported field = true)
                                    (ooFields oneof))
                   (Oneofs reg desc)) as [Hfields Honeofs].
  { unfold Fields, Oneofs. destruct (reg !! desc) as [body|] eqn:Hbody;
      [|by split].
    apply Hreg in Hbody. apply andb_prop in Hbody as [Hf Ho].
    split; [by apply forallb_Forall|].
    apply forallb_Forall in Ho.
    eapply Forall_impl; [exact Ho|].
    intros oneof. apply forallb_Forall. }
  match goal with
  | |- context [fieldsLoop _ _ ?fs ?props ?req ?v ?b0] =>
      pose proof (fieldsLoop_succeeds _ Hrec _ Hfields props req v b0) as Hf;
      destruct (fieldsLoop trim generateMessage fs props req v b0)
        as [[[[required|errf] v1] b1]|];
        [|by destruct (Hf errf v1 b1)|done]
  end.
  match goal with
  | |- context [oneofsLoop _ _ ?os ?props ?v ?b0] =>
      pose proof (oneofsLoop_succeeds _ Hrec _ Honeofs props v b0) as Ho;
      destruct (oneofsLoop trim generateMessage os props v b0)
        as [[[[[]|erro] v2] b2]|];
        [done|by destruct (Ho erro v2 b2)|done]
  end.
Qed.

(** Over a registry without fields of group kind the generator does not
    fail on a descriptor. *)
Lemma generateMessageSchema_succeeding fuel :
  supportedRegistry reg →
  succeeding (generateMessageSchema reg trim fuel).
Proof.
  intros Hreg. induction fuel as [|fuel IH]; [done|].
  simpl. by apply generateMessageBody_succeeding.
Qed.

Section Oblivious.
Variable depth : Z.
Variable include : bool.
Variable generateMessage : option string → gset string → Builder → Outcome nat.
Hypothesis Hrec : oblivious depth include generateMessage.

Lemma generateFieldSchema_oblivious n :
  ∀ field, fieldDepth field ≤ n →
  ∀ visited b,
    generateFieldSchema_ trim generateMessage field visited
                         (withConfig depth include b)
    = configuredOutcome depth include
        (generateFieldSchema_ trim generateMessage field visited b).
Proof.
  induction n as [|n IH]; intros field Hdepth visited b;
    destruct field as [name kind card opt pres msg enum mapKV c l t];
    simpl in Hdepth.
  all: simpl.
  all: destruct kind; simpl; rewrite ?Hrec;
    try match goal with
        | |- context [generateMessage ?d ?v ?b0] =>
            destruct (generateMessage d v b0) as [[[[baseSchema|err] v1] b1]|];
            simpl
        end;
    try reflexivity.
  all: destruct mapKV as [[k v]|];
    [|destruct (IsList _); simpl; try reflexivity;
      match goal with
      | |- context [decide (?d = "")] => destruct (decide (d = ""))
      end; reflexivity].
  all: try lia.
  all: unfold IsList, IsMap; simpl; rewrite andb_false_r.
  all: repeat match goal with
       | |- match generateFieldSchema_ _ _ ?f ?v0 ?bl with _ => _ end
            = configuredOutcome _ _
                match generateFieldSchema_ _ _ ?f ?v0 ?b0 with _ => _ end =>
           change bl with (withConfig depth include b0);
           rewrite (IH f ltac:(lia) v0 b0);
           destruct (generateFieldSchema_ trim generateMessage f v0 b0)
             as [[[[?|?] ?] ?]|]; simpl; try reflexivity
       end.
Qed.

Lemma oneofOptionsLoop_oblivious fields :
  ∀ oneOfOptions visited b,
    oneofOptionsLoop trim generateMessage fields oneOfOptions visited
                     (withConfig depth include b)
    = configuredOutcome depth include
        (oneofOptionsLoop trim generateMessage fields oneOfOptions visited b).
Proof.
  induction fields as [|field rest IH]; intros oneOfOptions visited b; simpl;
    [done|].
  rewrite (generateFieldSchema_oblivious _ field (le_n _)).
  destruct (generateFieldSchema_ _ _ field visited b)
    as [[[[fieldSchema|errf] v1] b1]|]; simpl; try reflexivity.
  apply (IH _ _ (snd (newObject (snd (newObject b1 _)) _))).
Qed.

Lemma generateOneofSchema_oblivious oneof visited b :
  generateOneofSchema_ trim generateMessage oneof visited
                       (withConfig depth include b)
  = configuredOutcome depth include
      (generateOneofSchema_ trim generateMessage oneof visited b).
Proof.
  unfold generateOneofSchema_.
  destruct (ooFields oneof) as [|field rest] eqn:Hfields; [done|].
  rewrite oneofOptionsLoop_oblivious.
  by destruct (oneofOptionsLoop _ _ (field :: rest) [] visited b)
    as [[[[options|erro] v1] b1]|].
Qed.

Lemma fieldsLoop_oblivious fields :
  ∀ properties required visited b,
    fieldsLoop trim generateMessage fields properties required visited
               (withConfig depth include b)
    = configuredOutcome depth include
        (fieldsLoop trim generateMessage fields properties required visited b).
Proof.
  induction fields as [|field rest IH]; intros properties required visited b;
    simpl; [done|].
  rewrite (generateFieldSchema_oblivious _ field (le_n _)).
  destruct (generateFieldSchema_ _ _ field visited b)
    as [[[[fieldSchema|errf] v1] b1]|]; simpl; try reflexivity.
  apply (IH _ _ _ (setKey b1 _ _ _)).
Qed.

Lemma oneofsLoop_oblivious oneofs :
  ∀ properties visited b,
    oneofsLoop trim generateMessage oneofs properties visited
               (withConfig depth include b)
    = configuredOutcome depth include
        (oneofsLoop trim generateMessage oneofs properties visited b).
Proof.
  induction oneofs as [|oneof rest IH]; intros properties visited b;
    simpl; [done|].
  rewrite generateOneofSchema_oblivious.
  destruct (generateOneofSchema_ _ _ oneof visited b)
    as [[[[[o|]|erro] v1] b1]|]; simpl; try reflexivity.
  - apply (IH _ _ (setKey b1 _ _ _)).
  - apply IH.
Qed.
End Oblivious.

Lemma generateMessageBody_oblivious depth include generateMessage :
  oblivious depth include generateMessage →
  oblivious depth include (generateMessageBody reg trim generateMessage).
Proof.
  intros Hrec desc visited b. unfold generateMessageBody.
  destruct desc as [desc|]; [|done].
  destruct (decide (desc ∈ visited)); [done|].
  change (schemaCache (withConfig depth include b)) with (schemaCache b).
  destruct (schemaCache b !! desc) as [cached|]; [done|].
  simpl.
  match goal with
  | |- match fieldsLoop _ _ ?fs ?props ?req ?v ?bl with _ => _ end
       = configuredOutcome _ _
           match fieldsLoop _ _ ?fs ?props ?req ?v ?b0 with _ => _ end =>
      change bl with (withConfig depth include b0);
      rewrite (fieldsLoop_oblivious depth include _ Hrec fs props req v b0);
      destruct (fieldsLoop trim generateMessage fs props req v b0)
        as [[[[required|errf] v1] b1]|]; simpl; try reflexivity
  end.
  match goal with
  | |- match oneofsLoop _ _ ?os ?props ?v ?bl with _ => _ end
       = configuredOutcome _ _
           match oneofsLoop _ _ ?os ?props ?v ?b0 with _ => _ end =>
      change bl with (withConfig depth include b0);
      rewrite (oneofsLoop_oblivious depth include _ Hrec os props v b0);
      destruct (oneofsLoop trim generateMessage os props v b0)
        as [[[[[]|erro] v2] b2]|]; simpl; try reflexivity
  end.
  by destruct required.
Qed.

(** The generator does not read the two configuration fields. *)
Lemma generateMessageSchema_oblivious depth include fuel :
  oblivious depth include (generateMessageSchema reg trim fuel).
Proof.
  induction fuel as [|fuel IH]; [done|].
  simpl. by apply generateMessageBody_oblivious.
Qed.

(** *** [BuildTool] *)

Variable lower : string → string.

Lemma Contains_underscore (a b : string) :
  Contains (a +:+ "_" +:+ b) "_" = true.
Proof.
  induction a as [|c a IH].
  - change ("" +:+ "_" +:+ b) with (String "_" b).
    cbn [Contains].
    change (String.prefix "_" (String "_" b)) with (String.prefix "" b).
    by destruct b.
  - change (String c a +:+ "_" +:+ b) with (String c (a +:+ "_" +:+ b)).
    cbn [Contains]. rewrite IH. apply orb_true_r.
Qed.

Lemma generateDescription_not_empty serviceName method :
  generateDescription serviceName method ≠ "".
Proof.
  unfold generateDescription.
  by destruct (decide (Description method = "")).
Qed.

(** A tool with a generated name and description and an input schema
    passes the validation. *)
Lemma validateTool_built serviceName method input output :
  validateTool
    {| Mcp.Name := Tools.generateToolName lower serviceName (Name method);
       Mcp.Description := generateDescription serviceName method;
       Mcp.InputSchema := Some input;
       Mcp.OutputSchema := output |} = None.
Proof.
  unfold validateTool, Tools.generateToolName, Sprintf_s_s. simpl.
  rewrite Contains_underscore. simpl.
  destruct (decide (_ +:+ "_" +:+ _ = "")) as [Heq|_].
  { apply (f_equal (λ s, Contains s "_")) in Heq.
    by rewrite Contains_underscore in Heq. }
  destruct (decide (generateDescription _ _ = "")) as [Heq|_]; [|done].
  by destruct (generateDescription_not_empty _ _ Heq).
Qed.

Lemma BuildTool_built serviceName method b :
  ∃ out b',
    BuildTool reg trim lower serviceName method b = Some (out, b')
    ∧ built reg lower serviceName method out.
Proof.
  unfold BuildTool.
  destruct (InputDescriptor method) as [input|] eqn:Hin;
    [|eexists _, _; split; [done|by left]].
  destruct (generateMessageSchema_total reg trim input b)
    as (r1 & v1 & b1 & H1). rewrite H1.
  destruct r1 as [inputSchema|err].
  2: { eexists _, _. split; [done|]. split; [by eexists; left|].
       intros Hreg.
       by apply (generateMessageSchema_succeeding _ Hreg) in H1. }
  destruct (OutputDescriptor method) as [output|] eqn:Hout;
    [|eexists _, _; split; [done|by right]].
  destruct (generateMessageSchema_total reg trim output b1)
    as (r2 & v2 & b2 & H2). rewrite H2.
  destruct r2 as [outputSchema|err].
  2: { eexists _, _. split; [done|]. split; [by eexists; right|].
       intros Hreg.
       by apply (generateMessageSchema_succeeding _ Hreg) in H2. }
  rewrite validateTool_built.
  eexists _, _. split; [done|]. by repeat split.
Qed.

(** X23. [BuildTool] returns or panics; it panics exactly on a method one
    of whose descriptors is nil.  The only errors that it returns are
    those of the two schema generations, and only over a registry that
    has a field of group kind: the validation of the tool cannot fail.
    A tool that is returned has the generated name, the generated
    description and both schemas. *)
Theorem BuildTool_fails_only_on_a_schema
    (serviceName : string) (method : MethodInfo) (b : Builder) :
  match BuildTool reg trim lower serviceName method b with
  | None => False
  | Some (Panics, _) =>
      InputDescriptor method = None ∨ OutputDescriptor method = None
  | Some (Returns (Err err), _) =>
      (∃ cause, err = ErrInputSchema cause ∨ err = ErrOutputSchema cause)
      ∧ ¬ supportedRegistry reg
  | Some (Returns (Ok tool), _) =>
      Mcp.Name tool = Tools.generateToolName lower serviceName (Name method)
      ∧ Mcp.Description tool = generateDescription serviceName method
      ∧ Mcp.Description tool ≠ ""
      ∧ is_Some (Mcp.InputSchema tool)
      ∧ is_Some (Mcp.OutputSchema tool)
      ∧ validateTool tool = None
  end.
Proof.
  destruct (BuildTool_built serviceName method b) as (out & b' & -> & Hout).
  destruct out as [[tool|err]|]; [|exact Hout..].
  destruct Hout as (Hname & Hdesc & [input Hin] & Hout & _).
  repeat split; try done.
  - rewrite Hdesc. apply generateDescription_not_empty.
  - destruct tool as [name description inputSchema outputSchema].
    simpl in *. subst. apply validateTool_built.
Qed.

(** X24. A second [BuildTool] for the same method is answered from the
    schema cache: it returns the same tool, with the same two schema
    objects, and leaves the builder as it is. *)
Theorem BuildTool_again_returns_the_same_tool
    (serviceName : string) (method : MethodInfo) (b b' : Builder)
    (tool : Mcp.Tool) :
  BuildTool reg trim lower serviceName method b
    = Some (Returns (Ok tool), b') →
  BuildTool reg trim lower serviceName method b'
    = Some (Returns (Ok tool), b').
Proof.
  unfold BuildTool.
  destruct (InputDescriptor method) as [input|]; [|done].
  destruct (generateMessageSchema _ _ _ (Some input) ∅ b)
    as [[[[inputSchema|err] v1] b1]|] eqn:H1; [|done..].
  destruct (OutputDescriptor method) as [output|]; [|done].
  destruct (generateMessageSchema _ _ _ (Some output) ∅ b1)
    as [[[[outputSchema|err] v2] b2]|] eqn:H2; [|done..].
  rewrite validateTool_built. intros [= <- <-].
  pose proof (generateMessageSchema_caches _ _ _ _ _ _ _
                (not_elem_of_empty input) H1) as Hcached1.
  pose proof (generateMessageSchema_caches _ _ _ _ _ _ _
                (not_elem_of_empty output) H2) as Hcached2.
  destruct (generateMessageSchema_extending _ _ _ _ _ _ _ H2)
    as (_ & Hkeep & _).
  apply Hkeep in Hcached1. simpl in Hcached1.
  unfold enoughFuel.
  rewrite (generateMessageSchema_cached _ _ _ _ Hcached1).
  rewrite (generateMessageSchema_cached _ _ _ _ Hcached2).
  by rewrite validateTool_built.
Qed.


(** X26. The two configuration fields of the builder are never read:
    with [maxRecursionDepth] and [includeComments] set to any values,
    [BuildTool] has the same outcome and leaves the same builder, up to
    the two fields. *)
Theorem the_configuration_is_not_read
    (depth : Z) (include : bool)
    (serviceName : string) (method : MethodInfo) (b : Builder) :
  BuildTool reg trim lower serviceName method
            (SetIncludeComments (SetMaxRecursionDepth b depth) include)
  = (λ '(out, b'),
       (out, SetIncludeComments (SetMaxRecursionDepth b' depth) include))
      <$> BuildTool reg trim lower serviceName method b.
Proof.
  unfold BuildTool.
  destruct (InputDescriptor method) as [input|]; [|done].
  pose proof (generateMessageSchema_oblivious depth include (enoughFuel reg)
                (Some input) ∅ b) as H1.
  unfold withConfig in H1. rewrite H1.
  destruct (generateMessageSchema _ _ _ (Some input) ∅ b)
    as [[[[inputSchema|err] v1] b1]|]; [|done..].
  unfold configuredOutcome, withConfig. cbn [fmap option_fmap option_map].
  destruct (OutputDescriptor method) as [output|]; [|done].
  pose proof (generateMessageSchema_oblivious depth include (enoughFuel reg)
                (Some output) ∅ b1) as H2.
  unfold withConfig in H2. rewrite H2.
  destruct (generateMessageSchema _ _ _ (Some output) ∅ b1)
    as [[[[outputSchema|err] v2] b2]|]; [|done..].
  simpl. by rewrite validateTool_built.
Qed.

(** *** [BuildTools] *)

Lemma unaryNames_streaming serviceName method rest :
  IsClientStreaming method || IsServerStreaming method = true →
  unaryNames lower serviceName (method :: rest)
  = unaryNames lower serviceName rest.
Proof.
  intros Hstream. unfold unaryNames.
  rewrite filter_cons_False; [done|]. unfold unary. by rewrite Hstream.
Qed.

Lemma unaryNames_unary serviceName method rest :
  IsClientStreaming method || IsServerStreaming method = false →
  unaryNames lower serviceName (method :: rest)
  = Tools.generateToolName lower serviceName (Name method)
      :: unaryNames lower serviceName rest.
Proof.
  intros Hunary. unfold unaryNames. by rewrite filter_cons_True.
Qed.

Lemma methodsLoop_built serviceName methods :
  ∀ tools b,
  ∃ out b',
    ToolBuilder.methodsLoop reg trim lower serviceName methods tools b
      = Some (out, b')
    ∧ match out with
      | Panics =>
          ∃ method,
            method ∈ methods ∧ unary method
            ∧ (InputDescriptor method = None ∨ OutputDescriptor method = None)
      | Returns tools' =>
          ∃ new,
            tools' = tools ++ new
            ∧ sublist (Mcp.Name <$> new) (unaryNames lower serviceName methods)
            ∧ (supportedRegistry reg →
               Mcp.Name <$> new = unaryNames lower serviceName methods)
      end.
Proof.
  induction methods as [|method rest IH]; intros tools b; simpl.
  { eexists _, _. split; [done|]. exists []. by rewrite app_nil_r. }
  destruct (IsClientStreaming method || IsServerStreaming method) eqn:Hstream.
  { rewrite (unaryNames_streaming _ _ _ Hstream).
    destruct (IH tools b) as (out & b' & -> & Hout).
    exists out, b'. split; [done|].
    destruct out as [tools'|]; [done|].
    destruct Hout as (m & Hin & Hm). exists m. split; [by right|done]. }
  rewrite (unaryNames_unary _ _ _ Hstream).
  destruct (BuildTool_built serviceName method b) as (out1 & b1 & -> & Hbuilt).
  destruct out1 as [[tool|err]|].
  - destruct (IH (tools ++ [tool]) b1) as (out & b' & -> & Hout).
    exists out, b'. split; [done|].
    destruct out as [tools'|].
    + destruct Hout as (new & -> & Hsub & Heq).
      destruct Hbuilt as (Hname & _).
      exists (tool :: new). rewrite <- app_assoc. split; [done|].
      rewrite fmap_cons, Hname. split; [by apply sublist_skip|].
      intros Hreg. by rewrite Heq.
    + destruct Hout as (m & Hin & Hm). exists m. split; [by right|done].
  - destruct (IH tools b1) as (out & b' & -> & Hout).
    exists out, b'. split; [done|].
    destruct out as [tools'|].
    + destruct Hout as (new & -> & Hsub & Heq).
      exists new. split; [done|]. split; [by apply sublist_cons|].
      intros Hreg. by destruct Hbuilt as [_ []].
    + destruct Hout as (m & Hin & Hm). exists m. split; [by right|done].
  - eexists _, _. split; [done|]. exists method. split; [by left|].
    split; [exact Hstream|exact Hbuilt].
Qed.

Lemma servicesLoop_built st services :
  ∀ tools b,
  ∃ out b',
    ToolBuilder.servicesLoop reg trim lower st services tools b
      = Some (out, b')
    ∧ match out with
      | Panics => incomplete st services
      | Returns tools' =>
          ∃ new,
            tools' = tools ++ new
            ∧ sublist (Mcp.Name <$> new) (toolNames lower st services)
            ∧ (supportedRegistry reg →
               Mcp.Name <$> new = toolNames lower st services)
      end.
Proof.
  induction services as [|[serviceName service] rest IH]; intros tools b;
    simpl.
  { eexists _, _. split; [done|]. exists []. by rewrite app_nil_r. }
  destruct (methodsLoop_built serviceName (elems st (Methods service)) tools b)
    as (out1 & b1 & -> & Hout1).
  destruct out1 as [tools1|].
  - destruct Hout1 as (new1 & -> & Hsub1 & Heq1).
    destruct (IH (tools ++ new1) b1) as (out & b' & -> & Hout).
    exists out, b'. split; [done|].
    destruct out as [tools'|].
    + destruct Hout as (new & -> & Hsub & Heq).
      exists (new1 ++ new). rewrite <- app_assoc. split; [done|].
      fold (unaryNames lower serviceName (elems st (Methods service))).
      rewrite fmap_app. split; [by apply sublist_app|].
      intros Hreg. by rewrite Heq1, Heq.
    + destruct Hout as (s & sv & m & Hin & Hm).
      exists s, sv, m. split; [by right|done].
  - eexists _, _. split; [done|].
    destruct Hout1 as (m & Hin & Hm).
    exists serviceName, service, m. split; [by left|done].
Qed.

(** X27. [BuildTools] returns or panics, and its error is nil; it panics
    only when a unary method of the catalog has a nil descriptor.  The
    tools that it returns are named after unary methods of the catalog,
    in the order of the services and of their methods: no streaming
    method has a tool. *)
Theorem BuildTools_never_returns_an_error
    (st : Store) (services : list (string * ServiceInfo)) (b : Builder) :
  match BuildTools reg trim lower st services b with
  | None => False
  | Some (Panics, _) => incomplete st services
  | Some (Returns (Err _), _) => False
  | Some (Returns (Ok tools), _) =>
      sublist (Mcp.Name <$> tools) (toolNames lower st services)
  end.
Proof.
  unfold BuildTools.
  destruct (servicesLoop_built st services [] b) as (out & b' & -> & Hout).
  destruct out as [tools|]; [|exact Hout].
  by destruct Hout as (new & -> & Hsub & _).
Qed.

(** X28. Over a registry without fields of group kind, and for a catalog
    whose unary methods all have both descriptors, [BuildTools] returns
    one tool for each unary method, in the order of the services and of
    their methods. *)
Theorem BuildTools_lists_the_unary_methods
    (st : Store) (services : list (string * ServiceInfo)) (b : Builder) :
  supportedRegistry reg →
  ¬ incomplete st services →
  ∃ tools b',
    BuildTools reg trim lower st services b = Some (Returns (Ok tools), b')
    ∧ Mcp.Name <$> tools = toolNames lower st services.
Proof.
  intros Hreg Hcomplete. unfold BuildTools.
  destruct (servicesLoop_built st services [] b) as (out & b' & -> & Hout).
  destruct out as [tools|]; [|by destruct Hcomplete].
  destruct Hout as (new & -> & _ & Heq).
  exists new, b'. split; [done|]. by apply Heq.
Qed.

End Facts.

Lemma BuildTool_again_returns_the_same_tool_witness :
  ∃ tool b',
    BuildTool BuilderFixtures.widgetTypes trimSpaceASCII id "pkg.sub.Widget"
              (Samples.method "DoThing" false false) NewBuilder
      = Some (Returns (Ok tool), b')
    ∧ BuildTool BuilderFixtures.widgetTypes trimSpaceASCII id "pkg.sub.Widget"
                (Samples.method "DoThing" false false) b'
      = Some (Returns (Ok tool), b').
Proof.
  eexists _, _. split; [vm_compute; reflexivity|].
  apply (BuildTool_again_returns_the_same_tool
           BuilderFixtures.widgetTypes trimSpaceASCII id "pkg.sub.Widget"
           (Samples.method "DoThing" false false) NewBuilder).
  vm_compute. reflexivity.
Defined.

Lemma BuildTools_lists_the_unary_methods_witness :
  ∃ tools b',
    BuildTools BuilderFixtures.widgetTypes trimSpaceASCII id
               (Samples.storeWith BuilderFixtures.widgetMethods)
               [("pkg.sub.Widget", Samples.widget 2)] NewBuilder
      = Some (Returns (Ok tools), b')
    ∧ Mcp.Name <$> tools = ["pkg_sub_widget_dothing"].
Proof.
  apply (BuildTools_lists_the_unary_methods
           BuilderFixtures.widgetTypes trimSpaceASCII id
           (Samples.storeWith BuilderFixtures.widgetMethods)
           [("pkg.sub.Widget", Samples.widget 2)] NewBuilder).
  - apply (bool_decide_unpack _). vm_compute. exact I.
  - intros (serviceName & service & method & Hin & Hmethod & _ & Hnil).
    apply list_elem_of_singleton in Hin as [= -> ->].
    vm_compute in Hmethod.
    apply elem_of_cons in Hmethod as [->|Hmethod];
      [by destruct Hnil|].
    apply list_elem_of_singleton in Hmethod as ->.
    by destruct Hnil.
Defined.

End ToolBuilderFacts.

(** ** What the extractor leaves out *)
Module ExtractionFacts.
Import GoStrings Protoreflect Json Descriptors Grpc Panics ExtractorViews
  EnhancedSchema ExtractorFacts.

Section Facts.
Variable reg : gmap string MessageBody.

Section Level.
Variable extractMessage : string → gset string → Outcome.
Variable bound : nat.
Hypothesis Hrec : restores reg extractMessage bound.

(** The type schema of a field fails for the group kind only. *)
Lemma fieldType_fails_on_groups field visited :
  size (dom reg ∖ visited) < bound →
  match extractFieldTypeSchemaInternal_ extractMessage field visited with
  | Some (Ok _, visited') => visited' = visited ∧ fdKind field ≠ GroupKind
  | Some (Err _, visited') => visited' = visited ∧ fdKind field = GroupKind
  | None => False
  end.
Proof.
  intros Hsize. unfold extractFieldTypeSchemaInternal_.
  destruct (fdKind field) eqn:Hkind; try done.
  destruct (wellKnownSchema _); [done|].
  by destruct (Hrec (fdMessage field) visited Hsize) as [schema ->].
Qed.

Lemma field_fails_on_groups field visited :
  size (dom reg ∖ visited) < bound →
  match extractFieldSchemaInternal_ extractMessage field visited with
  | Some (Ok _, visited') =>
      visited' = visited ∧ fdKind (typeField field) ≠ GroupKind
  | Some (Err _, visited') =>
      visited' = visited ∧ fdKind (typeField field) = GroupKind
  | None => False
  end.
Proof.
  intros Hsize. unfold extractFieldSchemaInternal_, typeField.
  destruct (IsList field) eqn:Hlist.
  - assert (fdMapKV field = None) as ->.
    { unfold IsList, IsMap in Hlist. destruct (fdMapKV field); [|done].
      by rewrite andb_false_r in Hlist. }
    pose proof (fieldType_fails_on_groups field visited Hsize) as H.
    by destruct (extractFieldTypeSchemaInternal_ _ _ _) as [[[s|e] v]|].
  - destruct (fdMapKV field) as [[k v]|].
    + pose proof (fieldType_fails_on_groups v visited Hsize) as H.
      by destruct (extractFieldTypeSchemaInternal_ _ _ _) as [[[s|e] v0]|].
    + apply fieldType_fails_on_groups, Hsize.
Qed.

(** The properties after the loop over the fields: a field has a
    property exactly when it is not of group kind. *)
Lemma fieldsLoop_properties fields :
  ∀ properties required visited p r v field,
    size (dom reg ∖ visited) < bound →
    NoDup (fdName <$> fields) →
    field ∈ fields →
    fieldsLoop extractMessage fields properties required visited
      = Some (p, r, v) →
    if decide (fdKind (typeField field) = GroupKind)
    then p !! fdName field = properties !! fdName field
    else is_Some (p !! fdName field).
Proof.
  induction fields as [|head rest IH];
    intros properties required visited p r v field Hsize Hnodup Hin; simpl.
  { by apply elem_of_nil in Hin. }
  rewrite fmap_cons, NoDup_cons in Hnodup. destruct Hnodup as [Hnotin Hnodup].
  pose proof (field_fails_on_groups head visited Hsize) as Hhead.
  destruct (extractFieldSchemaInternal_ _ head visited)
    as [[[schema|err] v1]|]; [| |done]; destruct Hhead as [-> Hkind].
  - apply elem_of_cons in Hin as [->|Hin].
    + intros H. rewrite (fieldsLoop_keeps _ _ _ _ _ _ _ _ _ Hnotin H).
      rewrite lookup_insert_eq.
      by destruct (decide (fdKind (typeField head) = GroupKind)).
    + intros H. pose proof (IH _ _ _ _ _ _ _ Hsize Hnodup Hin H) as Hrest.
      destruct (decide (fdKind (typeField field) = GroupKind)); [|done].
      rewrite Hrest. apply lookup_insert_ne.
      intros Heq. apply Hnotin. rewrite Heq. by apply list_elem_of_fmap_2.
  - apply elem_of_cons in Hin as [->|Hin].
    + intros H. rewrite (fieldsLoop_keeps _ _ _ _ _ _ _ _ _ Hnotin H).
      by destruct (decide (fdKind (typeField head) = GroupKind)).
    + by apply IH.
Qed.
End Level.

Lemma extractMessageSchemaInternal_compiled msgDesc visited :
  ∃ schema,
    extractMessageSchemaInternal reg (enoughFuel reg) msgDesc visited
      = Some (Ok schema, visited)
    ∧ if decide (msgDesc ∈ visited) then schema = refTo msgDesc
      else compiled reg msgDesc schema.
Proof.
  unfold enoughFuel. simpl. unfold extractMessageBody.
  pose proof (extractMessageSchemaInternal_restores reg (size (dom reg)))
    as Hrec.
  destruct (decide (msgDesc ∈ visited)) as [Hin|Hnot]; [eauto|].
  assert (Fields reg msgDesc ≠ [] ∨ Oneofs reg msgDesc ≠ [] →
          size (dom reg ∖ (visited ∪ {[msgDesc]})) < size (dom reg))
    as Hless.
  { intros Hsome.
    assert (is_Some (reg !! msgDesc)) as Hbody.
    { unfold Fields, Oneofs in Hsome.
      destruct (reg !! msgDesc); [done|]. by destruct Hsome. }
    pose proof (unvisited_decreases reg msgDesc visited Hbody Hnot).
    assert (size (dom reg ∖ visited) ≤ size (dom reg)); [|lia].
    apply subseteq_size. set_solver. }
  assert (∃ props req,
            fieldsLoop (extractMessageSchemaInternal reg (size (dom reg)))
                       (Fields reg msgDesc) ∅ [] (visited ∪ {[msgDesc]})
            = Some (props, req, visited ∪ {[msgDesc]}))
    as (props & req & Hfields).
  { destruct (Fields reg msgDesc) as [|f fs] eqn:Hfs; [by eexists _, _|].
    apply (fieldsLoop_restores reg _ _ Hrec). apply Hless. by left. }
  rewrite Hfields.
  assert (∃ props',
            oneofsLoop (extractMessageSchemaInternal reg (size (dom reg)))
                       (Oneofs reg msgDesc) props (visited ∪ {[msgDesc]})
            = Some (props', visited ∪ {[msgDesc]}))
    as (props' & Honeofs).
  { destruct (Oneofs reg msgDesc) as [|o os] eqn:Hos; [by eexists|].
    apply (oneofsLoop_restores reg _ _ Hrec). apply Hless. by right. }
  rewrite Honeofs, unmark by done.
  eexists. split; [reflexivity|].
  unfold compiled, member.
  assert (∀ (base : gmap string JSON) key,
            key ≠ "properties" → key ≠ "required" →
            match req with
            | [] => <["properties" := JObj props']> base
            | _ :: _ =>
                <["required" := JStrs req]>
                  (<["properties" := JObj props']> base)
            end !! key = base !! key) as Hother.
  { intros base key Hp Hr.
    destruct req; rewrite ?(lookup_insert_ne _ "required") by done;
      by rewrite lookup_insert_ne. }
  split; [|split].
  - rewrite Hother by done.
    destruct (decide (Comments reg msgDesc = ""));
      rewrite ?(lookup_insert_ne _ "description") by done;
      apply lookup_insert_eq.
  - rewrite Hother by done.
    destruct (decide (Comments reg msgDesc = ""));
      [by rewrite lookup_insert_ne|apply lookup_insert_eq].
  - exists props'. split.
    { destruct req; rewrite ?(lookup_insert_ne _ "required") by done;
        apply lookup_insert_eq. }
    intros Hnodup field Hfield Hoo.
    rewrite (oneofsLoop_keeps _ _ _ _ _ _ _ Hoo Honeofs).
    assert (size (dom reg ∖ (visited ∪ {[msgDesc]})) < size (dom reg))
      as Hsize.
    { apply Hless. left. intros Hnil. rewrite Hnil in Hfield.
      by apply elem_of_nil in Hfield. }
    pose proof (fieldsLoop_properties _ _ Hrec _ _ _ _ _ _ _ field
                  Hsize Hnodup Hfield Hfields) as Hprop.
    destruct (decide (fdKind (typeField field) = GroupKind)) as [Hg|Hg].
    + rewrite Hprop, lookup_empty. split; [by intros []|done].
    + done.
Qed.

(** X29. The extractor never fails.  Whatever the visited map, it
    returns a schema and leaves the map as it was: a reference for a
    message that is marked, and otherwise an object with the comment of
    the message as its description and with properties, where a field of
    group kind, whose schema cannot be compiled, is left out and every
    other field has a property. *)
Theorem the_extractor_skips_what_it_cannot_compile
    (msgDesc : MessageDescriptor) (visited : gset string) :
  ∃ schema,
    extractMessageSchemaInternal reg (enoughFuel reg) msgDesc visited
      = Some (Ok schema, visited)
    ∧ if decide (msgDesc ∈ visited) then schema = refTo msgDesc
      else
        member "type" schema = Some (JStr "object")
        ∧ member "description" schema
          = (if decide (Comments reg msgDesc = "") then None
             else Some (JStr (Comments reg msgDesc)))
        ∧ ∃ properties,
            member "properties" schema = Some (JObj properties)
            ∧ (NoDup (fdName <$> Fields reg msgDesc) →
               ∀ field,
                 field ∈ Fields reg msgDesc →
                 fdName field ∉ ooName <$> Oneofs reg msgDesc →
                 is_Some (properties !! fdName field)
                 ↔ fdKind (typeField field) ≠ GroupKind).
Proof.
  destruct (extractMessageSchemaInternal_compiled msgDesc visited)
    as (schema & Hschema & Hshape).
  exists schema. split; [exact Hschema|].
  destruct (decide (msgDesc ∈ visited)) as [Hin|Hnot]; [exact Hshape|].
  destruct Hshape as (Htype & Hdescription & properties & Hproperties & Hfields).
  split; [exact Htype|]. split; [exact Hdescription|].
  exists properties. split; [exact Hproperties|]. exact Hfields.
Qed.

Variable lower : string → string.

Lemma toolDescription_not_empty serviceName method :
  toolDescription serviceName method ≠ "".
Proof.
  unfold toolDescription. by destruct (decide (emDescription method = "")).
Qed.

(** X30. [ExtractEnhancedToolSchema] returns or panics, and never
    returns an error; it panics exactly when the input descriptor of the
    method is nil.  The tool schema that it returns holds the generated
    name and a description that is not empty; its input schema holds the
    properties and the required names of the schema of the input message,
    and never its description: the comment of the input message is
    dropped. *)
Theorem the_tool_schema_drops_the_message_description
    (serviceName : string) (method : EnhancedMethodInfo) :
  match ExtractEnhancedToolSchema reg lower serviceName method with
  | None => False
  | Some Panics => emInputDescriptor method = None
  | Some (Returns (Err _)) => False
  | Some (Returns (Ok tool)) =>
      ∃ inputDescriptor schema input,
        emInputDescriptor method = Some inputDescriptor
        ∧ ExtractMessageSchema reg inputDescriptor = Some (Ok schema)
        ∧ member "name" tool
          = Some (JStr (Descriptors.generateToolName lower serviceName
                          (emName method)))
        ∧ member "description" tool
          = Some (JStr (toolDescription serviceName method))
        ∧ toolDescription serviceName method ≠ ""
        ∧ member "inputSchema" tool = Some input
        ∧ member "type" input = Some (JStr "object")
        ∧ member "properties" input = member "properties" schema
        ∧ member "required" input = member "required" schema
        ∧ member "description" input = None
  end.
Proof.
  unfold ExtractEnhancedToolSchema.
  destruct (emInputDescriptor method) as [inputDescriptor|]; [|done].
  destruct (extractMessageSchemaInternal_compiled inputDescriptor ∅)
    as (schema & Hschema & Hcompiled).
  destruct (decide (inputDescriptor ∈ (∅ : gset string))); [set_solver|].
  destruct Hcompiled as (Htype & Hdesc & properties & Hprops & _).
  assert (ExtractMessageSchema reg inputDescriptor = Some (Ok schema)) as Hex.
  { unfold ExtractMessageSchema. by rewrite Hschema. }
  rewrite Hex, Hprops. simpl.
  exists inputDescriptor, schema.
  destruct (member "required" schema) as [required|] eqn:Hrequired.
  - exists (JObj (<["required" := required]>
                  (<["properties" := JObj properties]>
                   (<["type" := JStr "object"]> ∅)))).
    rewrite ?Hprops, ?Hrequired. unfold member.
    repeat split; try done; try apply toolDescription_not_empty;
      repeat first [ rewrite lookup_insert_eq
                   | rewrite lookup_insert_ne by done
                   | rewrite lookup_empty ]; done.
  - exists (JObj (<["properties" := JObj properties]>
                  (<["type" := JStr "object"]> ∅))).
    rewrite ?Hprops, ?Hrequired. unfold member.
    repeat split; try done; try apply toolDescription_not_empty;
      repeat first [ rewrite lookup_insert_eq
                   | rewrite lookup_insert_ne by done
                   | rewrite lookup_empty ]; done.
Qed.

End Facts.

(** The tool schema of [ExtractorFixtures.putLegacy]: the group field
    and the comment of the message are gone. *)
Lemma legacy_tool_schema :
  ExtractEnhancedToolSchema ExtractorFixtures.legacy id "test.Store"
                            ExtractorFixtures.putLegacy
  = Some (Returns (Ok (JObj
      (<["description" := JStr "Calls test.Store.Put gRPC method"]>
       (<["inputSchema" :=
            JObj (<["required" := JStrs ["id"]]>
                  (<["properties" :=
                       JObj {[ "id" := JObj {[ "type" := JStr "string" ]} ]}]>
                   {[ "type" := JStr "object" ]}))]>
        {[ "name" := JStr "test_store_put" ]}))))).
Proof. vm_compute. reflexivity. Qed.

End ExtractionFacts.
